(** * World model and rollout engine (src/models/world_model.py,
      src/envs/world_model_env.py): a shallow embedding and its properties.

    Tensors are modelled by lists.  In the training code a batch is a list of
    trajectories (rows), in the rollout engine a (B, T) token tensor is the
    list of its T columns, each column holding one token per batch element.
    Floating point payloads (embeddings, hidden states, logits, losses) are
    kept abstract; rewards, which only take dyadic values here, are rationals. *)

From Stdlib Require Import List ZArith QArith Qround Lia Bool Arith PeanoNat.
Import ListNotations.
Local Open Scope nat_scope.

(** ** Exceptions *)

Inductive Error : Type :=
| AssertionError
| IndexError
| TypeError
| AttributeError
| ValueError
| RuntimeError
| EinopsError.

Inductive Result (A : Type) : Type :=
| Ok (a : A)
| Raise (e : Error).
Arguments Ok {A} a.
Arguments Raise {A} e.

Definition rbind {A B} (r : Result A) (k : A -> Result B) : Result B :=
  match r with
  | Ok a => k a
  | Raise e => Raise e
  end.

Notation "x <- c ;; k" := (rbind c (fun x => k))
  (at level 61, c at next level, right associativity).
Notation "' p <- c ;; k" := (rbind c (fun x => match x with p => k end))
  (at level 61, p pattern, c at next level, right associativity).

Definition assert (b : bool) : Result unit :=
  if b then Ok tt else Raise AssertionError.

(** ** One-dimensional tensors of numbers *)

Fixpoint update {A} (i : nat) (v : A) (l : list A) : list A :=
  match l, i with
  | [], _ => []
  | _ :: t, O => v :: t
  | x :: t, S j => x :: update j v t
  end.

(** [t[-k] = v]: the k-th entry from the end; out of range is an IndexError. *)
Definition setitem_neg (t : list Z) (k : nat) (v : Z) : Result (list Z) :=
  if (1 <=? k) && (k <=? length t)
  then Ok (update (length t - k) v t)
  else Raise IndexError.

Fixpoint map2 {A B C} (f : A -> B -> C) (l1 : list A) (l2 : list B) : list C :=
  match l1, l2 with
  | a :: t1, b :: t2 => f a b :: map2 f t1 t2
  | _, _ => []
  end.

Definition ones (n : nat) : list Z := repeat 1%Z n.
Definition zeros (n : nat) : list Z := repeat 0%Z n.

(** [x[:, idx]] along the sequence axis. *)
Definition index_select {A} (x : list A) (idx : list nat) : list A :=
  flat_map (fun i => match nth_error x i with Some a => [a] | None => [] end) idx.

(** ** Configuration and the key/value cache *)

(** The fields of TransformerConfig that the two source files read. *)
Record TransformerConfig : Type := {
  tokens_per_block : nat;
  max_blocks : nat;
  max_tokens : nat
}.

(** The indices a token holds: one for a token of a training sequence, one
    per batch element for a column of the rollout. *)
Class TokenIndices (Tok : Type) : Type :=
  token_indices : Tok -> list Z.

#[export] Instance TokenIndices_Z : TokenIndices Z := fun z => [z].

Section WorldModelDef.

Context {Tok Emb Hid Logit : Type} {HTok : TokenIndices Tok}.

(** Modelled from the spec: the incremental cache (models/kv_caching.py is not
    among the sources).  "Bounded-capacity store of cached projections per
    absolute position": one entry per cached position, here the embedded input
    the projections of that position are computed from, and the capacity. *)
Record KeysValues : Type := {
  kv_cache : list Emb;
  kv_max_tokens : nat
}.

Definition kv_size (kv : KeysValues) : nat := length (kv_cache kv).

(** Modelled from the spec: "allocate-empty-cache(batch size, max positions)". *)
Definition generate_empty_keys_values (max_tok : nat) : KeysValues :=
  {| kv_cache := []; kv_max_tokens := max_tok |}.

(** Modelled from the spec: the Sequence Backbone (models/transformer.py is
    not among the sources).  "Given per-position embedding vectors plus an
    optional incremental cache, returns causally-masked updated hidden states",
    "extending cache in place"; breaking the cache-size invariant is a
    fail-fast InvariantViolation.  [attend ctx] is the hidden state of the last
    position of the non-empty context [ctx]. *)
Definition Transformer_forward (attend : list Emb -> Hid)
    (sequences : list Emb) (past : option KeysValues)
  : Result (list Hid * option KeysValues) :=
  match past with
  | None =>
      Ok (map (fun i => attend (firstn (S i) sequences)) (seq 0 (length sequences)), None)
  | Some kv =>
      _ <- assert (kv_size kv + length sequences <=? kv_max_tokens kv) ;;
      Ok (map (fun i => attend (kv_cache kv ++ firstn (S i) sequences))
              (seq 0 (length sequences)),
          Some {| kv_cache := kv_cache kv ++ sequences;
                  kv_max_tokens := kv_max_tokens kv |})
  end.

(** ** Slicer, Head, Embedder *)

(** Modelled from the spec: models/slicer.py is not among the sources.  A head
    is "restricted to positions (within this call) whose (position mod
    block_size) matches that head's mask, using absolute offset, not
    call-local index, for mask lookup". *)
Definition compute_slice (block_mask : list Z) (num_steps prev_steps : nat) : list nat :=
  filter (fun i => (nth ((prev_steps + i) mod length block_mask) block_mask 0 =? 1)%Z)
         (seq 0 num_steps).

Record Head : Type := {
  head_block_mask : list Z;
  head_module : Hid -> Logit
}.

Definition Head_forward (h : Head) (x : list Hid) (num_steps prev_steps : nat) : list Logit :=
  map (head_module h) (index_select x (compute_slice (head_block_mask h) num_steps prev_steps)).

(** Each embedding table is an [nn.Embedding]: its number of rows
    ([num_embeddings]) and the row of a token. *)
Record Embedder : Type := {
  embedder_block_masks : list (list Z);
  embedding_tables : list (Tok -> Emb);
  embedding_sizes : list nat
}.

(** Elementwise sum of the masks, [sum(block_masks)]. *)
Definition sum_masks (n : nat) (masks : list (list Z)) : list Z :=
  fold_left (map2 Z.add) masks (zeros n).

(** Modelled from the spec: the Block Embedder "fails with a configuration
    error if the masks are not an exact partition at construction time". *)
Definition Embedder_init (n : nat) (block_masks : list (list Z))
    (tables : list (nat * (Tok -> Emb))) : Result Embedder :=
  _ <- assert (length block_masks =? length tables) ;;
  _ <- assert (forallb (fun m => length m =? n) block_masks) ;;
  _ <- assert (forallb (fun s => (s =? 1)%Z) (sum_masks n block_masks)) ;;
  Ok {| embedder_block_masks := block_masks;
        embedding_tables := map snd tables;
        embedding_sizes := map fst tables |}.

(** Modelled from the spec: "for each absolute position p in [offset,
    offset+T): role = the mask whose bit is 1 at (p mod block_size); token
    looked up in that role's table".  A position with no role keeps the zero
    vector [emb_zero]. *)
Fixpoint embed_role (emb_zero : Emb) (masks : list (list Z)) (tables : list (Tok -> Emb))
    (p : nat) (tok : Tok) : Emb :=
  match masks, tables with
  | m :: masks', t :: tables' =>
      if (nth (p mod length m) m 0 =? 1)%Z then t tok
      else embed_role emb_zero masks' tables' p tok
  | _, _ => emb_zero
  end.

Definition Embedder_output (emb_zero : Emb) (e : Embedder) (tokens : list Tok)
    (num_steps prev_steps : nat) : list Emb :=
  map2 (fun i tok => embed_role emb_zero (embedder_block_masks e) (embedding_tables e)
                                (prev_steps + i) tok)
       (seq 0 num_steps) tokens.

(** [nn.Embedding] with [n] rows raises an IndexError for an index outside
    0 .. n - 1. *)
Definition in_table (n : nat) (tok : Tok) : bool :=
  forallb (fun z => ((0 <=? z) && (z <? Z.of_nat n))%Z) (token_indices tok).

(** Every table looks up the tokens at the positions of its mask
    ([emb(tokens[:, s])] with [s] the slice of the mask): all of them have to
    be rows of that table. *)
Definition Embedder_in_range (e : Embedder) (tokens : list Tok)
    (num_steps prev_steps : nat) : bool :=
  forallb (fun mn => forallb (in_table (snd mn))
                       (index_select tokens (compute_slice (fst mn) num_steps prev_steps)))
          (combine (embedder_block_masks e) (embedding_sizes e)).

(** Embedder.forward. *)
Definition Embedder_forward (emb_zero : Emb) (e : Embedder) (tokens : list Tok)
    (num_steps prev_steps : nat) : Result (list Emb) :=
  if Embedder_in_range e tokens num_steps prev_steps
  then Ok (Embedder_output emb_zero e tokens num_steps prev_steps)
  else Raise IndexError.

(** ** WorldModel *)

(** The learned sub-modules handed to the constructor; their weights are not
    modelled, only their role as functions.  The three tables are the rows of
    the [nn.Embedding] modules built in lines 48. *)
Record Modules : Type := {
  m_attend : list Emb -> Hid;
  m_pos_emb : nat -> Emb;
  m_emb_add : Emb -> Emb -> Emb;
  m_emb_zero : Emb;
  m_act_table : Tok -> Emb;
  m_task_table : Tok -> Emb;
  m_obs_table : Tok -> Emb;
  m_head_observations : Hid -> Logit;
  m_head_rewards : Hid -> Logit;
  m_head_ends : Hid -> Logit
}.

Record WorldModel : Type := {
  obs_vocab_size : nat;
  act_vocab_size : nat;
  task_vocab_size : nat;
  config : TransformerConfig;
  transformer : list Emb -> Hid;
  pos_emb : nat -> Emb;
  emb_add : Emb -> Emb -> Emb;
  emb_zero : Emb;
  embedder : Embedder;
  head_observations : Head;
  head_rewards : Head;
  head_ends : Head
}.

(** WorldModel.__init__ (world_model.py, lines 26-87). *)
Definition WorldModel_init (obs_vocab act_vocab : nat) (cfg : TransformerConfig)
    (mods : Modules) : Result WorldModel :=
  let n := tokens_per_block cfg in
  let all_but_last_obs_tokens_pattern := ones n in
  all_but_last_obs_tokens_pattern <- setitem_neg all_but_last_obs_tokens_pattern 2 0 ;;
  all_but_last_obs_tokens_pattern <- setitem_neg all_but_last_obs_tokens_pattern 3 0 ;;
  let act_tokens_pattern := zeros n in
  let task_tokens_pattern := zeros n in
  act_tokens_pattern <- setitem_neg act_tokens_pattern 1 1 ;;
  task_tokens_pattern <- setitem_neg task_tokens_pattern 2 1 ;;
  let obs_tokens_pattern :=
    map2 Z.sub (map2 Z.sub (ones n) act_tokens_pattern) task_tokens_pattern in
  embedder <- Embedder_init n
                [act_tokens_pattern; task_tokens_pattern; obs_tokens_pattern]
                [(act_vocab, m_act_table mods); (39, m_task_table mods);
                 (obs_vocab, m_obs_table mods)] ;;
  Ok {| obs_vocab_size := obs_vocab;
        act_vocab_size := act_vocab;
        task_vocab_size := 39;
        config := cfg;
        transformer := m_attend mods;
        pos_emb := m_pos_emb mods;
        emb_add := m_emb_add mods;
        emb_zero := m_emb_zero mods;
        embedder := embedder;
        head_observations :=
          {| head_block_mask := all_but_last_obs_tokens_pattern;
             head_module := m_head_observations mods |};
        head_rewards :=
          {| head_block_mask := act_tokens_pattern;
             head_module := m_head_rewards mods |};
        head_ends :=
          {| head_block_mask := act_tokens_pattern;
             head_module := m_head_ends mods |} |}.

Record WorldModelOutput : Type := {
  output_sequence : list Hid;
  logits_observations : list Logit;
  logits_rewards : list Logit;
  logits_ends : list Logit
}.

(** WorldModel.forward (world_model.py, lines 92-107).  The embedder looks the
    tokens up first (line 98): a token outside the table of its role is an
    IndexError.  The position table has [max_tokens] rows, so looking up a
    position at or beyond it is an IndexError too (line 99); both happen
    before the backbone touches the cache. *)
Definition forward (wm : WorldModel) (tokens : list Tok) (past_keys_values : option KeysValues)
  : Result (WorldModelOutput * option KeysValues) :=
  let num_steps := length tokens in
  let prev_steps := match past_keys_values with
                    | None => 0
                    | Some kv => kv_size kv
                    end in
  sequences <- Embedder_forward (emb_zero wm) (embedder wm) tokens num_steps prev_steps ;;
  let positions := map (fun i => prev_steps + i) (seq 0 num_steps) in
  if forallb (fun p => p <? max_tokens (config wm)) positions then
    let sequences := map2 (emb_add wm) sequences (map (pos_emb wm) positions) in
    '(x, past') <- Transformer_forward (transformer wm) sequences past_keys_values ;;
    Ok ({| output_sequence := x;
           logits_observations := Head_forward (head_observations wm) x num_steps prev_steps;
           logits_rewards := Head_forward (head_rewards wm) x num_steps prev_steps;
           logits_ends := Head_forward (head_ends wm) x num_steps prev_steps |},
        past')
  else Raise IndexError.

End WorldModelDef.

Arguments KeysValues : clear implicits.
Arguments Head : clear implicits.
Arguments Embedder : clear implicits.
Arguments Modules : clear implicits.
Arguments WorldModel : clear implicits.
Arguments WorldModelOutput : clear implicits.

(** ** Training labels and loss (world_model.py, lines 109-139) *)

Definition ignore_index : Z := (-100)%Z.

(** [Tensor.long()] on a float: truncation toward zero. *)
Definition Qtrunc (q : Q) : Z := Z.quot (Qnum q) (Zpos (Qden q)).

(** One entry of [(rewards * 2).masked_fill(mask_fill, -100).long()]. *)
Definition reward_label (r : Q) (fill : bool) : Z :=
  Qtrunc (if fill then inject_Z ignore_index else (r * 2)%Q).

(** The class-to-value decoding of the rollout: [sample.float() / 2]
    (world_model_env.py, line 91). *)
Definition reward_value (c : Z) : Q := (inject_Z c / 2)%Q.

(** The reward head ends in [nn.Linear(embed_dim, 3)], the termination head
    in [nn.Linear(embed_dim, 2)]. *)
Definition num_reward_classes : Z := 3%Z.
Definition num_end_classes : Z := 2%Z.

Definition valid_class (num_classes c : Z) : bool :=
  ((0 <=? c) && (c <? num_classes))%Z.

Definition logical_not (mask : list (list bool)) : list (list bool) :=
  map (map negb) mask.

Definition masked_fill {A} (x : list (list A)) (mask : list (list bool)) (v : A)
  : list (list A) :=
  map2 (map2 (fun a (m : bool) => if m then v else a)) x mask.

(** [x.masked_fill(mask.unsqueeze(-1).expand_as(x), v)] for a (B, T, K) tensor. *)
Definition masked_fill_expand (x : list (list (list Z))) (mask : list (list bool)) (v : Z)
  : list (list (list Z)) :=
  map2 (map2 (fun toks (m : bool) => map (fun a => if m then v else a) toks)) x mask.

Definition sum_dim1 (x : list (list Z)) : list Z :=
  map (fun row => fold_right Z.add 0%Z row) x.

(** WorldModel.compute_labels_world_model (lines 131-139). *)
Definition compute_labels_world_model (obs_tokens : list (list (list Z)))
    (rewards : list (list Q)) (ends : list (list Z)) (mask_padding : list (list bool))
  : Result (list Z * list Z * list Z) :=
  _ <- assert (forallb (fun s => (s <=? 1)%Z) (sum_dim1 ends)) ;;
  let mask_fill := logical_not mask_padding in
  let labels_observations :=
    map (fun row => tl (concat row)) (masked_fill_expand obs_tokens mask_fill ignore_index) in
  let labels_rewards := map2 (map2 reward_label) rewards mask_fill in
  let labels_ends := masked_fill ends mask_fill ignore_index in
  Ok (concat labels_observations, concat labels_rewards, concat labels_ends).

Fixpoint mapM {A B} (f : A -> Result B) (l : list A) : Result (list B) :=
  match l with
  | [] => Ok []
  | a :: t => b <- f a ;; bs <- mapM f t ;; Ok (b :: bs)
  end.

Section Training.

Context {Emb Hid Logit Image Loss : Type}.

(** [tokenizer.encode(frame, should_preprocess=True).tokens] for one frame: the
    codec is an external collaborator. *)
Variable tokenizer_encode : Image -> list Z.

(** The value torch assigns to a list of (logits, target class) terms: the mean
    of the negative log-likelihoods, a floating point computation. *)
Variable nll_mean : list (Logit * Z) -> Loss.
Variable loss_add : Loss -> Loss -> Loss.

(** The terms [F.cross_entropy] keeps: those whose target is not the ignore
    index (-100 by default). *)
Definition cross_entropy_terms (input : list Logit) (target : list Z) : list (Logit * Z) :=
  filter (fun p => negb (snd p =? ignore_index)%Z) (combine input target).

(** [F.cross_entropy(input, target)] with class-index targets: the two batch
    sizes must agree, and a kept target must be a class of the head. *)
Definition cross_entropy (num_classes : Z) (input : list Logit) (target : list Z)
  : Result Loss :=
  if negb (length input =? length target) then Raise ValueError
  else
    let terms := cross_entropy_terms input target in
    if forallb (fun p => valid_class num_classes (snd p)) terms
    then Ok (nll_mean terms)
    else Raise IndexError.

Record LossWithIntermediateLosses : Type := {
  loss_total : Loss;
  loss_obs : Loss;
  loss_rewards : Loss;
  loss_ends : Loss
}.

(** Modelled from the spec: utils.LossWithIntermediateLosses is not among the
    sources; "total loss = sum of three independent classification losses". *)
Definition LossWithIntermediateLosses_init (l_obs l_rewards l_ends : Loss)
  : LossWithIntermediateLosses :=
  {| loss_total := loss_add (loss_add l_obs l_rewards) l_ends;
     loss_obs := l_obs;
     loss_rewards := l_rewards;
     loss_ends := l_ends |}.

Record Batch : Type := {
  observations_image : list (list Image);
  observations_token : list (list Z);
  actions : list (list Z);
  rewards : list (list Q);
  ends : list (list Z);
  mask_padding : list (list bool)
}.

(** [rearrange(x, 'b l -> b l 1')]. *)
Definition unsqueeze_last {A} (x : list (list A)) : list (list (list A)) :=
  map (map (fun a => [a])) x.

(** [torch.cat((a, b), dim=2)]. *)
Definition cat_dim2 {A} (a b : list (list (list A))) : list (list (list A)) :=
  map2 (map2 (@app A)) a b.

(** The interleaved token sequence of line 117, one row per trajectory. *)
Definition interleave (obs_tokens : list (list (list Z))) (task act : list (list Z))
  : list (list Z) :=
  map (@concat Z)
      (cat_dim2 (cat_dim2 obs_tokens (unsqueeze_last task)) (unsqueeze_last act)).

(** WorldModel.compute_loss (lines 109-129). *)
Definition compute_loss (wm : WorldModel Z Emb Hid Logit) (batch : Batch)
  : Result LossWithIntermediateLosses :=
  let obs_tokens := map (map tokenizer_encode) (observations_image batch) in
  let tokens := interleave obs_tokens (observations_token batch) (actions batch) in
  outputs <- mapM (fun row => '(o, _) <- forward wm row None ;; Ok o) tokens ;;
  '(labels_observations, labels_rewards, labels_ends) <-
     compute_labels_world_model obs_tokens (rewards batch) (ends batch) (mask_padding batch) ;;
  let logits_obs := concat (map (fun o => removelast (logits_observations o)) outputs) in
  l_obs <- cross_entropy (Z.of_nat (obs_vocab_size wm)) logits_obs labels_observations ;;
  l_rewards <- cross_entropy num_reward_classes
                 (concat (map (@logits_rewards Hid Logit) outputs)) labels_rewards ;;
  l_ends <- cross_entropy num_end_classes
              (concat (map (@logits_ends Hid Logit) outputs)) labels_ends ;;
  Ok (LossWithIntermediateLosses_init l_obs l_rewards l_ends).

End Training.

Arguments Batch : clear implicits.
Arguments LossWithIntermediateLosses : clear implicits.

(** ** The rollout engine (world_model_env.py) *)

(** One token per batch element: a (B, 1) slice of a token tensor. *)
Definition Col : Type := list Z.

#[export] Instance TokenIndices_Col : TokenIndices Col := fun c => c.

Definition zeros_like (t : list Col) : list Col :=
  map (map (fun _ => 0%Z)) t.

(** The rows of a (B, T) tensor given by its columns, and [reshape(-1)]. *)
Fixpoint rows_of_columns (cols : list Col) : list (list Z) :=
  match cols with
  | [] => []
  | [c] => map (fun x => [x]) c
  | c :: cs => map2 cons c (rows_of_columns cs)
  end.

Definition reshape_flat (cols : list Col) : list Z :=
  concat (rows_of_columns cols).

(** [torch.cat(tensors, dim=1)]: an empty list of tensors is an error. *)
Definition torch_cat_dim1 {A} (tensors : list (list A)) : Result (list A) :=
  match tensors with
  | [] => Raise RuntimeError
  | _ => Ok (concat tensors)
  end.

Fixpoint chunks {A} (w h : nat) (l : list A) : list (list A) :=
  match h with
  | O => []
  | S h' => firstn w l :: chunks w h' (skipn w l)
  end.

(** [rearrange(x, 'b (h w) e -> b e h w', h=h)]: the sequence axis is cut into
    [h] rows; its length has to be a multiple of [h]. *)
Definition rearrange_hw {A} (x : list A) (h : nat) : Result (list (list A)) :=
  if h =? 0 then Raise EinopsError
  else if length x mod h =? 0 then Ok (chunks (length x / h) h x)
  else Raise EinopsError.

Section Rollout.

Context {Emb Hid Logit Image CodeVec Rng : Type}.

(** The token codec, an external collaborator. *)
Record Tokenizer : Type := {
  tokenizer_encode_tokens : Image -> list Col;
  tokenizer_embedding : Col -> CodeVec;
  tokenizer_decode : list (list CodeVec) -> Image
}.

(** [Categorical(logits=l).sample()] at one position, threading the state of
    the random generator; [torch.clamp(rec, 0, 1)]. *)
Variable categorical_sample : Logit -> Rng -> Col * Rng.
Variable clamp01 : Image -> Image.

Variable world_model : WorldModel Col Emb Hid Logit.
Variable tokenizer : Tokenizer.

Record WorldModelEnv : Type := {
  keys_values_wm : option (KeysValues Emb);
  obs_tokens : option (list Col);
  _num_observations_tokens : option nat
}.

(** The mutable world of one engine: the object itself, the random generator,
    and, as ghost state, the completed calls of the world model: the tokens fed
    and the cache size they were fed at. *)
Record World : Type := {
  self : WorldModelEnv;
  rng : Rng;
  forward_calls : list (list Col * nat)
}.

(** State survives an exception, as the fields of a Python object do. *)
Definition M (A : Type) : Type := World -> Result A * World.

Definition ret {A} (a : A) : M A := fun w => (Ok a, w).
Definition raise {A} (e : Error) : M A := fun w => (Raise e, w).
Definition bind {A B} (c : M A) (k : A -> M B) : M B :=
  fun w => match c w with
           | (Ok a, w') => k a w'
           | (Raise e, w') => (Raise e, w')
           end.

Notation "x <~ c ;; k" := (bind c (fun x => k))
  (at level 61, c at next level, right associativity).

Definition get_self : M WorldModelEnv := fun w => (Ok (self w), w).
Definition set_self (e : WorldModelEnv) : M unit :=
  fun w => (Ok tt, {| self := e; rng := rng w; forward_calls := forward_calls w |}).
Definition massert (b : bool) : M unit :=
  if b then ret tt else raise AssertionError.

Definition set_keys_values_wm (kv : option (KeysValues Emb)) : M unit :=
  e <~ get_self ;;
  set_self {| keys_values_wm := kv; obs_tokens := obs_tokens e;
              _num_observations_tokens := _num_observations_tokens e |}.
Definition set_obs_tokens (t : option (list Col)) : M unit :=
  e <~ get_self ;;
  set_self {| keys_values_wm := keys_values_wm e; obs_tokens := t;
              _num_observations_tokens := _num_observations_tokens e |}.
Definition set_num_observations_tokens (n : option nat) : M unit :=
  e <~ get_self ;;
  set_self {| keys_values_wm := keys_values_wm e; obs_tokens := obs_tokens e;
              _num_observations_tokens := n |}.

(** [self.world_model(tokens, past_keys_values=self.keys_values_wm)]: the cache
    object is extended in place. *)
Definition call_world_model (tokens : list Col) : M (WorldModelOutput Hid Logit) :=
  fun w =>
    let past := keys_values_wm (self w) in
    match forward world_model tokens past with
    | Ok (out, past') =>
        (Ok out,
         {| self := {| keys_values_wm := past';
                       obs_tokens := obs_tokens (self w);
                       _num_observations_tokens := _num_observations_tokens (self w) |};
            rng := rng w;
            forward_calls :=
              forward_calls w
              ++ [(tokens, match past with Some kv => kv_size kv | None => 0 end)] |})
    | Raise e => (Raise e, w)
    end.

(** One draw per position of a logits tensor. *)
Fixpoint sample_all (logits : list Logit) (g : Rng) : list Col * Rng :=
  match logits with
  | [] => ([], g)
  | l :: ls =>
      let (c, g1) := categorical_sample l g in
      let (cs, g2) := sample_all ls g1 in
      (c :: cs, g2)
  end.

Definition Categorical_sample (logits : list Logit) : M (list Col) :=
  fun w =>
    let (t, g) := sample_all logits (rng w) in
    (Ok t, {| self := self w; rng := g; forward_calls := forward_calls w |}).

Record Observation : Type := {
  image : Image;
  token : list Col
}.

(** WorldModelEnv.decode_obs_tokens (lines 117-125). *)
Definition decode_obs_tokens : M Observation :=
  e <~ get_self ;;
  match obs_tokens e with
  | None => raise TypeError
  | Some obs_tokens =>
      let q := removelast obs_tokens in
      let embedded_tokens := map (tokenizer_embedding tokenizer) q in
      match _num_observations_tokens e with
      | None => raise TypeError
      | Some num_observations_tokens =>
          match rearrange_hw embedded_tokens (Nat.sqrt num_observations_tokens) with
          | Raise err => raise err
          | Ok z =>
              let rec := tokenizer_decode tokenizer z in
              match obs_tokens with
              | [] => raise IndexError
              | _ => ret {| image := clamp01 rec;
                            token := [last obs_tokens []] |}
              end
          end
      end
  end.

(** WorldModelEnv.refresh_keys_values_with_initial_obs_tokens (lines 62-68). *)
Definition refresh_keys_values_with_initial_obs_tokens (obs_tokens : list Col)
  : M (list Hid) :=
  let num_observations_tokens := length obs_tokens in
  e <~ get_self ;;
  _ <~ massert (match _num_observations_tokens e with
                | Some n => num_observations_tokens =? n
                | None => false
                end) ;;
  _ <~ set_keys_values_wm
         (Some (generate_empty_keys_values (max_tokens (config world_model)))) ;;
  outputs_wm <~ call_world_model obs_tokens ;;
  ret (output_sequence outputs_wm).

(** WorldModelEnv.reset_from_initial_observations (lines 45-59). *)
Definition reset_from_initial_observations (obs_img : Image) (obs_tok : list Col)
  : M Observation :=
  let obs_tokens := tokenizer_encode_tokens tokenizer obs_img in
  let obs_tokens := obs_tokens ++ obs_tok in
  let num_observations_tokens := length obs_tokens in
  e <~ get_self ;;
  _ <~ (match _num_observations_tokens e with
        | None => set_num_observations_tokens (Some num_observations_tokens)
        | Some _ => ret tt
        end) ;;
  _ <~ refresh_keys_values_with_initial_obs_tokens obs_tokens ;;
  _ <~ set_obs_tokens (Some obs_tokens) ;;
  decode_obs_tokens.

(** The local variables of the loop of [step]. *)
Record StepLocals : Type := {
  l_token : list Col;
  l_output_sequence : list (list Hid);
  l_obs_tokens : list (list Col);
  l_reward : option (list Q);
  l_done : option (list bool)
}.

(** The body of the loop of [step] (lines 87-101) at pass [k]. *)
Definition step_pass (num_observations_tokens k : nat) (l : StepLocals) : M StepLocals :=
  outputs_wm <~ call_world_model (l_token l) ;;
  let output_sequence := l_output_sequence l ++ [output_sequence outputs_wm] in
  rd <~ (if k =? 0 then
           r <~ Categorical_sample (logits_rewards outputs_wm) ;;
           d <~ Categorical_sample (logits_ends outputs_wm) ;;
           ret (Some (map reward_value (reshape_flat r)),
                Some (map (fun c => negb (c =? 0)%Z) (reshape_flat d)))
         else ret (l_reward l, l_done l)) ;;
  if k <? num_observations_tokens then
    if k =? num_observations_tokens - 1 then
      let token := zeros_like (l_token l) in
      ret {| l_token := token;
             l_output_sequence := output_sequence;
             l_obs_tokens := l_obs_tokens l ++ [token];
             l_reward := fst rd; l_done := snd rd |}
    else
      token <~ Categorical_sample (logits_observations outputs_wm) ;;
      ret {| l_token := token;
             l_output_sequence := output_sequence;
             l_obs_tokens := l_obs_tokens l ++ [token];
             l_reward := fst rd; l_done := snd rd |}
  else
    ret {| l_token := l_token l;
           l_output_sequence := output_sequence;
           l_obs_tokens := l_obs_tokens l;
           l_reward := fst rd; l_done := snd rd |}.

(** [for k in range(...)]. *)
Fixpoint for_each (ks : list nat) (body : nat -> StepLocals -> M StepLocals)
    (l : StepLocals) : M StepLocals :=
  match ks with
  | [] => ret l
  | k :: ks' => l' <~ body k l ;; for_each ks' body l'
  end.

Record StepReturn : Type := {
  r_obs : option Observation;
  r_reward : list Q;
  r_done : list bool
}.

(** WorldModelEnv.step (lines 71-108); [action] holds one action per batch
    element. *)
Definition step (action : Col) (should_predict_next_obs : bool) : M StepReturn :=
  e <~ get_self ;;
  match keys_values_wm e, _num_observations_tokens e with
  | Some kv, Some num_observations_tokens =>
      let num_passes :=
        if should_predict_next_obs then 1 + num_observations_tokens else 1 in
      _ <~ (if max_tokens (config world_model) <? kv_size kv + num_passes then
              match obs_tokens e with
              | Some t => _ <~ refresh_keys_values_with_initial_obs_tokens t ;; ret tt
              | None => raise AttributeError
              end
            else ret tt) ;;
      let token := [action] in
      l <~ for_each (seq 0 num_passes) (step_pass num_observations_tokens)
             {| l_token := token; l_output_sequence := []; l_obs_tokens := [];
                l_reward := None; l_done := None |} ;;
      match torch_cat_dim1 (l_output_sequence l), torch_cat_dim1 (l_obs_tokens l) with
      | Ok _, Ok new_obs_tokens =>
          _ <~ set_obs_tokens (Some new_obs_tokens) ;;
          obs <~ (if should_predict_next_obs
                  then o <~ decode_obs_tokens ;; ret (Some o)
                  else ret None) ;;
          match l_reward l, l_done l with
          | Some reward, Some done =>
              ret {| r_obs := obs; r_reward := reward; r_done := done |}
          | _, _ => raise RuntimeError
          end
      | _, _ => raise RuntimeError
      end
  | _, _ => raise AssertionError
  end.

End Rollout.

Arguments Tokenizer : clear implicits.
Arguments WorldModelEnv : clear implicits.
Arguments World : clear implicits.
Arguments Observation : clear implicits.
Arguments StepReturn : clear implicits.
Arguments StepLocals : clear implicits.

(** ** Stub collaborators, used to run the definitions on concrete inputs *)

Definition stub_modules (Tok : Type) : Modules Tok unit nat nat :=
  {| m_attend := fun ctx => length ctx;
     m_pos_emb := fun _ => tt;
     m_emb_add := fun _ _ => tt;
     m_emb_zero := tt;
     m_act_table := fun _ => tt;
     m_task_table := fun _ => tt;
     m_obs_table := fun _ => tt;
     m_head_observations := fun h => h;
     m_head_rewards := fun h => h;
     m_head_ends := fun h => h |}.

Definition stub_config (n cap : nat) : TransformerConfig :=
  {| tokens_per_block := n; max_blocks := 20; max_tokens := cap |}.

(** ** Vocabulary of the statements *)

Section Vocabulary.

Context {Tok Emb Hid Logit : Type} {HTok : TokenIndices Tok}.

(** The masks of a block of [m + 3] tokens, in closed form. *)
Definition act_mask (m : nat) : list Z := zeros (m + 1) ++ [0; 1]%Z.
Definition task_mask (m : nat) : list Z := zeros (m + 1) ++ [1; 0]%Z.
Definition obs_mask (m : nat) : list Z := ones (m + 1) ++ [0; 0]%Z.
Definition all_but_last_obs_mask (m : nat) : list Z := ones m ++ [0; 0; 1]%Z.

(** What a successful constructor call has built. *)
Definition constructed (cfg : TransformerConfig) (wm : WorldModel Tok Emb Hid Logit)
    (m : nat) : Prop :=
  tokens_per_block cfg = m + 3 /\
  config wm = cfg /\
  embedder_block_masks (embedder wm) = [act_mask m; task_mask m; obs_mask m] /\
  head_block_mask (head_observations wm) = all_but_last_obs_mask m /\
  head_block_mask (head_rewards wm) = act_mask m /\
  head_block_mask (head_ends wm) = act_mask m.

(** The sequence fed to the backbone by [forward]. *)
Definition embedded (wm : WorldModel Tok Emb Hid Logit) (tokens : list Tok) (prev : nat) : list Emb :=
  map2 (emb_add wm)
       (Embedder_output (emb_zero wm) (embedder wm) tokens (length tokens) prev)
       (map (pos_emb wm) (map (fun i => prev + i) (seq 0 (length tokens)))).

Definition heads_output (wm : WorldModel Tok Emb Hid Logit) (x : list Hid) (num prev : nat) : WorldModelOutput Hid Logit :=
  {| output_sequence := x;
     logits_observations := Head_forward (head_observations wm) x num prev;
     logits_rewards := Head_forward (head_rewards wm) x num prev;
     logits_ends := Head_forward (head_ends wm) x num prev |}.

(** The three tables have the numbers of rows the constructor gives them
    (line 48): [act_vocab_size], [task_vocab_size], [obs_vocab_size]. *)
Definition tables_sized (wm : WorldModel Tok Emb Hid Logit) : Prop :=
  embedding_sizes (embedder wm)
  = [act_vocab_size wm; task_vocab_size wm; obs_vocab_size wm].

(** The number of rows of the table in which the token at absolute position
    [p] is looked up: the action table at the last slot of a block, the task
    table at the second-to-last, the observation table elsewhere. *)
Definition slot_vocab_size (wm : WorldModel Tok Emb Hid Logit) (p : nat) : nat :=
  let n := tokens_per_block (config wm) in
  if p mod n =? n - 1 then act_vocab_size wm
  else if p mod n =? n - 2 then task_vocab_size wm
  else obs_vocab_size wm.

(** Every token of a sequence fed at offset [prev] is a row of the table of
    its slot. *)
Definition in_vocabulary (wm : WorldModel Tok Emb Hid Logit) (tokens : list Tok)
    (prev : nat) : Prop :=
  forall i tok, nth_error tokens i = Some tok ->
    in_table (slot_vocab_size wm (prev + i)) tok = true.

End Vocabulary.

(** ** Vocabulary: rewards and terminations *)

(** The rewards the comment of line 135 names. *)
Definition clipped_reward (r : Q) : Prop :=
  (r == -1 \/ r == 0 \/ r == 1)%Q.

(** The reward [r] of an unpadded step goes to class 2r, a class of the 3-way
    head, and the rollout decoding gives [r] back. *)
Definition reward_roundtrip (r : Q) : Prop :=
  let c := reward_label r false in
  (inject_Z c == r * 2)%Q /\
  valid_class num_reward_classes c = true /\
  (reward_value c == r)%Q.

(** Number of termination events of a trajectory: positions with [ends] set. *)
Definition terminations (row : list Z) : nat :=
  length (filter (fun e => negb (e =? 0)%Z) row).

Definition binary (x : list (list Z)) : Prop :=
  Forall (Forall (fun e => e = 0%Z \/ e = 1%Z)) x.

(** A stub world model: the constructor run on the stub modules. *)
Definition stub_world_model (Tok : Type) (n cap : nat) : WorldModel Tok unit nat nat :=
  match WorldModel_init 512 6 (stub_config n cap) (stub_modules Tok) with
  | Ok wm => wm
  | Raise _ =>
      {| obs_vocab_size := 512; act_vocab_size := 6; task_vocab_size := 39;
         config := stub_config n cap;
         transformer := m_attend (stub_modules Tok);
         pos_emb := m_pos_emb (stub_modules Tok);
         emb_add := m_emb_add (stub_modules Tok);
         emb_zero := tt;
         embedder := {| embedder_block_masks := []; embedding_tables := [];
                        embedding_sizes := [] |};
         head_observations := {| head_block_mask := []; head_module := fun h => h |};
         head_rewards := {| head_block_mask := []; head_module := fun h => h |};
         head_ends := {| head_block_mask := []; head_module := fun h => h |} |}
  end.

(** A batch of one trajectory of two steps with K = 2 observation tokens per
    step; frames are given by their tokens. *)
Definition stub_batch (ends0 ends1 : Z) (pad0 pad1 : bool) : Batch (list Z) :=
  {| observations_image := [[[5; 6]; [7; 8]]]%Z;
     observations_token := [[30; 31]]%Z;
     actions := [[2; 3]]%Z;
     rewards := [[1; 1 # 2]]%Q;
     ends := [[ends0; ends1]];
     mask_padding := [[pad0; pad1]] |}.

(** ** Vocabulary: batches and loss terms *)

Definition shaped2 {A} (B L : nat) (x : list (list A)) : Prop :=
  length x = B /\ Forall (fun row => length row = L) x.

Definition shaped3 {A} (B L K : nat) (x : list (list (list A))) : Prop :=
  length x = B /\
  Forall (fun row => length row = L /\ Forall (fun t => length t = K) row) x.

(** The (logits, label) pairs a classification loss keeps: those whose label
    is not the ignore label. *)
Definition kept_terms {Logit} (pairs : list (Logit * Z)) : list (Logit * Z) :=
  filter (fun p => negb (snd p =? ignore_index)%Z) pairs.

Section LossVocabulary.

Context {Emb Hid Logit Image : Type}.
Variable tokenizer_encode : Image -> list Z.
Variable wm : WorldModel Z Emb Hid Logit.

(** A batch of B trajectories of L steps with K observation tokens per step. *)
Definition batch_shaped (B L K : nat) (batch : Batch Image) : Prop :=
  shaped3 B L K (map (map tokenizer_encode) (observations_image batch)) /\
  shaped2 B L (observations_token batch) /\
  shaped2 B L (actions batch) /\
  shaped2 B L (rewards batch) /\
  shaped2 B L (ends batch) /\
  shaped2 B L (mask_padding batch).

(** Observation tokens are rows of the observation table (and so classes of
    the observation head), task tokens rows of the task table, actions rows of
    the action table; rewards go to classes of the reward head, ends are 0 or
    1. *)
Definition batch_in_range (batch : Batch Image) : Prop :=
  Forall (Forall (Forall (fun z => valid_class (Z.of_nat (obs_vocab_size wm)) z = true)))
         (map (map tokenizer_encode) (observations_image batch)) /\
  Forall (Forall (fun z => valid_class (Z.of_nat (task_vocab_size wm)) z = true))
         (observations_token batch) /\
  Forall (Forall (fun z => valid_class (Z.of_nat (act_vocab_size wm)) z = true))
         (actions batch) /\
  Forall (Forall (fun r => valid_class num_reward_classes (reward_label r false) = true))
         (rewards batch) /\
  binary (ends batch).

(** The interleaved tokens of one trajectory: per step the observation
    tokens, the task token, the action token. *)
Definition trajectory_tokens (obs : list (list Z)) (task act : list Z) : list Z :=
  concat (map2 (@app Z) (map2 (@app Z) obs (map (fun a => [a]) task))
               (map (fun a => [a]) act)).

(** The hidden states of one trajectory, computed without a cache. *)
Definition hidden_states (tokens : list Z) : list Hid :=
  map (fun i => transformer wm (firstn (S i) (embedded wm tokens 0)))
      (seq 0 (length tokens)).

(** The label of the token at sequence position [q] of a trajectory: the token
    itself, or the ignore label when its step is padded. *)
Definition token_label (tokens : list Z) (padding : list bool) (q : nat) : Z :=
  if nth (q / tokens_per_block (config wm)) padding true
  then nth q tokens 0%Z
  else ignore_index.

(** The pairing the claim words: at every sequence position but the final one
    at which the observation head emits logits, these logits go with the label
    of the token one position later. *)
Definition shifted_obs_pairs (tokens : list Z) (padding : list bool) : list (Logit * Z) :=
  let positions :=
    compute_slice (head_block_mask (head_observations wm)) (length tokens - 1) 0 in
  combine (map (head_module (head_observations wm))
               (index_select (hidden_states tokens) positions))
          (map (fun p => token_label tokens padding (p + 1)) positions).

(** The action slot of each of the first L blocks. *)
Definition action_positions (L : nat) : list nat :=
  map (fun t => t * tokens_per_block (config wm) + (tokens_per_block (config wm) - 1))
      (seq 0 L).

(** Unshifted pairing: the logits a head emits at the action slot of step t go
    with the t-th label. *)
Definition step_pairs (h : Head Hid Logit) (tokens : list Z) (labels : list Z)
  : list (Logit * Z) :=
  combine (map (head_module h)
               (index_select (hidden_states tokens) (action_positions (length labels))))
          labels.

End LossVocabulary.

(** ** Vocabulary: states of the rollout engine *)

Section RolloutVocabulary.

Context {Emb Hid Logit Rng : Type}.
Variable world_model : WorldModel Col Emb Hid Logit.

Definition cache_size (w : World Emb Rng) : nat :=
  match keys_values_wm (self w) with
  | Some kv => kv_size kv
  | None => 0
  end.

(** The cache exists, was allocated with the configured capacity and is
    filled within it. *)
Definition cache_ok (w : World Emb Rng) : Prop :=
  exists kv,
    keys_values_wm (self w) = Some kv /\
    kv_max_tokens kv = max_tokens (config world_model) /\
    kv_size kv <= max_tokens (config world_model).

(** An initialized engine with [N] tokens per stored block: what reset leaves
    behind and a step with next-observation prediction keeps.  The block fits
    the cache, to which reset has fed it. *)
Definition initialized (w : World Emb Rng) (N : nat) : Prop :=
  cache_ok w /\
  N <= max_tokens (config world_model) /\
  _num_observations_tokens (self w) = Some N /\
  exists t, obs_tokens (self w) = Some t /\ length t = N.

(** The block of the world model is the stored block plus the action token,
    and the cache ends on a stored block: the next position is an action
    slot. *)
Definition aligned (w : World Emb Rng) (N : nat) : Prop :=
  tokens_per_block (config world_model) = N + 1 /\
  cache_size w mod (N + 1) = N.

Definition ready (w : World Emb Rng) (N : nat) : Prop :=
  initialized w N /\ aligned w N.

(** A computation of the engine keeps a property of the world, whether it
    returns or raises. *)
Definition preserves {A} (P : World Emb Rng -> Prop) (c : M A) : Prop :=
  forall w, P w -> P (snd (c w)).

(** The calls of the world model a computation adds to the log. *)
Definition calls_added {A} (c : M A) (w : World Emb Rng)
    (added : list (list Col * nat)) : Prop :=
  forward_calls (snd (c w)) = forward_calls w ++ added.

(** The world a step leaves behind: cache [kv], stored block [t], generator
    [g], log extended by [added]. *)
Definition after_step (w : World Emb Rng) (kv : KeysValues Emb) (t : list Col) (g : Rng)
    (added : list (list Col * nat)) : World Emb Rng :=
  {| self := {| keys_values_wm := Some kv;
                obs_tokens := Some t;
                _num_observations_tokens := _num_observations_tokens (self w) |};
     rng := g;
     forward_calls := forward_calls w ++ added |}.

(** The world after a call of the world model left the cache [kv]. *)
Definition with_cache (w : World Emb Rng) (kv : KeysValues Emb) (added : list (list Col * nat)) : World Emb Rng :=
  {| self := {| keys_values_wm := Some kv;
                obs_tokens := obs_tokens (self w);
                _num_observations_tokens := _num_observations_tokens (self w) |};
     rng := rng w;
     forward_calls := forward_calls w ++ added |}.

Definition all_zero (t : list Col) : Prop :=
  Forall (Forall (fun z => z = 0%Z)) t.

(** Calls of the world model whose tokens are all rows of the tables of their
    slots. *)
Definition calls_in_range (calls : list (list Col * nat)) : Prop :=
  Forall (fun c => Embedder_in_range (embedder world_model) (fst c) (length (fst c)) (snd c)
                   = true) calls.

(** The log of [w] is the log of [w0] followed by such calls. *)
Definition logged_in_range (w0 w : World Emb Rng) : Prop :=
  exists added, forward_calls w = forward_calls w0 ++ added /\ calls_in_range added.

(** The state of the loop of [step] before pass [k]: the loop started at
    cache size [s0] with the token [token0], log [calls0], cache [kv0] and
    generator [g0]; [r0], [d0] and [t0] are the reward, the done flag and the
    first observation token drawn in pass 0. *)
Definition pass_invariant (N s0 : nat) (token0 : list Col)
    (calls0 : list (list Col * nat)) (e0 : WorldModelEnv Emb)
    (kv0 : KeysValues Emb) (g0 : Rng) (r0 : list Q) (d0 : list bool)
    (t0 : list Col) (k : nat) (l : StepLocals Hid) (w : World Emb Rng) : Prop :=
  (exists kv, keys_values_wm (self w) = Some kv /\
              kv_max_tokens kv = max_tokens (config world_model) /\
              kv_size kv = s0 + k) /\
  obs_tokens (self w) = obs_tokens e0 /\
  _num_observations_tokens (self w) = _num_observations_tokens e0 /\
  forward_calls w
  = calls0 ++ map2 pair (firstn k (token0 :: l_obs_tokens l)) (seq s0 k) /\
  length (l_output_sequence l) = k /\
  length (l_obs_tokens l) = Nat.min k N /\
  Forall (fun t => length t = 1) (token0 :: l_obs_tokens l) /\
  l_token l = last (l_obs_tokens l) token0 /\
  (1 <= N <= k -> all_zero (last (l_obs_tokens l) token0)) /\
  (k = 0 -> rng w = g0 /\ keys_values_wm (self w) = Some kv0) /\
  (1 <= k -> l_reward l = Some r0 /\ l_done l = Some d0) /\
  (1 <= k -> 2 <= N -> hd [] (l_obs_tokens l) = t0).

End RolloutVocabulary.

(** Stub codec, sampler and engine state: an image is the grid of the
    embedded tokens, the sampler counts its draws, the batch has one element. *)
Definition stub_tokenizer : Tokenizer (list (list Col)) Col :=
  {| tokenizer_encode_tokens := fun img => concat img;
     tokenizer_embedding := fun c => c;
     tokenizer_decode := fun z => z |}.

Definition stub_sample (l : nat) (g : nat) : Col * nat :=
  ([Z.of_nat ((l + g) mod 512)], S g).

Definition stub_world (t : list Col) (cached cap : nat) : World unit nat :=
  {| self := {| keys_values_wm :=
                  Some {| kv_cache := repeat tt cached; kv_max_tokens := cap |};
                obs_tokens := Some t;
                _num_observations_tokens := Some (length t) |};
     rng := 0;
     forward_calls := [] |}.

(** A stored block of [N] tokens: observation tokens 1 .. N-1, task token 30. *)
Definition stub_block (N : nat) : list Col :=
  map (fun i => [Z.of_nat i]) (seq 1 (N - 1)) ++ [[30%Z]].

(** The reward and done values drawn from the outputs of pass 0. *)
Definition pass0_reward {Hid Logit Rng} (categorical_sample : Logit -> Rng -> Col * Rng)
    (out : WorldModelOutput Hid Logit) (g : Rng) : list Q :=
  map reward_value (reshape_flat (fst (sample_all categorical_sample (logits_rewards out) g))).

Definition pass0_done {Hid Logit Rng} (categorical_sample : Logit -> Rng -> Col * Rng)
    (out : WorldModelOutput Hid Logit) (g : Rng) : list bool :=
  map (fun c => negb (c =? 0)%Z)
      (reshape_flat
         (fst (sample_all categorical_sample (logits_ends out)
                 (snd (sample_all categorical_sample (logits_rewards out) g))))).

(** The first observation token, drawn in pass 0 after the reward and the
    done flag. *)
Definition pass0_token {Hid Logit Rng} (categorical_sample : Logit -> Rng -> Col * Rng)
    (out : WorldModelOutput Hid Logit) (g : Rng) : list Col :=
  fst (sample_all categorical_sample (logits_observations out)
         (snd (sample_all categorical_sample (logits_ends out)
                 (snd (sample_all categorical_sample (logits_rewards out) g))))).

(** The end of [step]: the new stored block, the decoding and the return
    (lines 103-108). *)
Definition step_return {Emb Hid Image CodeVec Rng}
    (clamp01 : Image -> Image) (tokenizer : Tokenizer Image CodeVec)
    (should_predict_next_obs : bool) (l : StepLocals Hid)
  : @M Emb Rng (StepReturn Image) :=
  match torch_cat_dim1 (l_output_sequence l), torch_cat_dim1 (l_obs_tokens l) with
  | Ok _, Ok new_obs_tokens =>
      bind (set_obs_tokens (Some new_obs_tokens)) (fun _ =>
      bind (if should_predict_next_obs
            then bind (decode_obs_tokens clamp01 tokenizer) (fun o => ret (Some o))
            else ret None) (fun obs =>
      match l_reward l, l_done l with
      | Some reward, Some done =>
          ret {| r_obs := obs; r_reward := reward; r_done := done |}
      | _, _ => raise RuntimeError
      end))
  | _, _ => raise RuntimeError
  end.

(** [step] after the capacity check: the passes, then the return (lines
    81-108). *)
Definition step_body {Emb Hid Logit Image CodeVec Rng}
    (categorical_sample : Logit -> Rng -> Col * Rng) (clamp01 : Image -> Image)
    (world_model : WorldModel Col Emb Hid Logit) (tokenizer : Tokenizer Image CodeVec)
    (num_observations_tokens : nat) (action : Col) (should_predict_next_obs : bool)
  : @M Emb Rng (StepReturn Image) :=
  bind (for_each (seq 0 (if should_predict_next_obs
                         then 1 + num_observations_tokens else 1))
          (step_pass categorical_sample world_model num_observations_tokens)
          {| l_token := [action]; l_output_sequence := []; l_obs_tokens := [];
             l_reward := None; l_done := None |})
       (step_return clamp01 tokenizer should_predict_next_obs).

(** The log of the world model calls starts with [calls]. *)
Definition has_prefix {Emb Rng} (calls : list (list Col * nat)) (w : World Emb Rng) : Prop :=
  exists rest, forward_calls w = calls ++ rest.

(** A property of the world that the primitive operations of the engine keep:
    a call of the world model, a draw, storing a block, allocating a cache. *)
Record stable {Emb Hid Logit Rng} (categorical_sample : Logit -> Rng -> Col * Rng)
    (world_model : WorldModel Col Emb Hid Logit) (P : World Emb Rng -> Prop) : Prop := {
  stable_call : forall tokens, preserves P (call_world_model world_model tokens);
  stable_sample : forall logits, preserves P (Categorical_sample categorical_sample logits);
  stable_set_obs_tokens : forall t, preserves P (set_obs_tokens t);
  stable_allocate :
    forall w, P w ->
      P (snd (set_keys_values_wm
                (Some (generate_empty_keys_values (max_tokens (config world_model)))) w))
}.

(** The draws from observation logits are classes of the observation head,
    which has [obs_vocab_size] outputs, and so rows of the observation
    table. *)
Definition samples_in_vocabulary {Emb Hid Logit Rng}
    (categorical_sample : Logit -> Rng -> Col * Rng)
    (world_model : WorldModel Col Emb Hid Logit) : Prop :=
  forall (h : Hid) (g : Rng),
    in_table (obs_vocab_size world_model)
      (fst (categorical_sample (head_module (head_observations world_model) h) g)) = true.

(** ** Vocabulary: outputs of successive calls *)

(** The outputs of two calls of the world model, concatenated along the
    sequence axis. *)
Definition cat_outputs {Hid Logit} (o1 o2 : WorldModelOutput Hid Logit)
  : WorldModelOutput Hid Logit :=
  {| output_sequence := output_sequence o1 ++ output_sequence o2;
     logits_observations := logits_observations o1 ++ logits_observations o2;
     logits_rewards := logits_rewards o1 ++ logits_rewards o2;
     logits_ends := logits_ends o1 ++ logits_ends o2 |}.

(** ** The rollout engine: construction, reset from the environment, rendering *)

(** WorldModelEnv.__init__ (world_model_env.py, lines 15-23): no cache, no
    stored block, no token count yet. *)
Definition WorldModelEnv_init {Emb : Type} : WorldModelEnv Emb :=
  {| keys_values_wm := None; obs_tokens := None; _num_observations_tokens := None |}.

(** The values [render_batch] handles: a tensor, or the dict that
    [decode_obs_tokens] returns. *)
Inductive Value (Image : Type) : Type :=
| VTensor (x : Image)
| VDict (o : Observation Image).
Arguments VTensor {Image} x.
Arguments VDict {Image} o.

(** [v.detach()]: a method of tensors; a dict has no such attribute. *)
Definition detach {Image} (v : Value Image) : Result Image :=
  match v with
  | VTensor x => Ok x
  | VDict _ => Raise AttributeError
  end.

(** [t.shape == (b, n)] for a (B, T) tensor given by its T columns; [n] is
    None when the token count is not set.  (With no column the batch size is
    not represented; the comparison then only looks at the count.) *)
Definition shape_is (t : list Col) (b : nat) (n : option nat) : bool :=
  match n with
  | Some n => (length t =? n) && forallb (fun c => length c =? b) t
  | None => false
  end.

Section Rendering.

Context {Emb Image CodeVec Rng RawImage EnvState Frame : Type}.
Variable clamp01 : Image -> Image.
Variable tokenizer : Tokenizer Image CodeVec.

(** [rearrange(frames, 'b c h w -> b h w c').mul(255).numpy().astype(np.uint8)]
    and [Image.fromarray] on each frame: one picture per batch element. *)
Variable to_frames : Image -> list Frame.

(** WorldModelEnv.render_batch (lines 110-114). *)
Definition render_batch : World Emb Rng -> Result (list Frame) * World Emb Rng :=
  fun w =>
    match decode_obs_tokens clamp01 tokenizer w with
    | (Raise e, w') => (Raise e, w')
    | (Ok o, w') =>
        match detach (VDict o) with
        | Raise e => (Raise e, w')
        | Ok frames => (Ok (to_frames frames), w')
        end
    end.

(** WorldModelEnv.render (lines 127-130). *)
Definition render : World Emb Rng -> Result Frame * World Emb Rng :=
  fun w =>
    match obs_tokens (self w) with
    | None => (Raise AttributeError, w)
    | Some t =>
        if shape_is t 1 (_num_observations_tokens (self w)) then
          match render_batch w with
          | (Ok frames, w') =>
              match frames with
              | f :: _ => (Ok f, w')
              | [] => (Raise IndexError, w')
              end
          | (Raise e, w') => (Raise e, w')
          end
        else (Raise AssertionError, w)
    end.

End Rendering.

Section ResetFromEnv.

Context {Emb Hid Logit Image CodeVec Rng RawImage EnvState : Type}.
Variable clamp01 : Image -> Image.
Variable world_model : WorldModel Col Emb Hid Logit.
Variable tokenizer : Tokenizer Image CodeVec.

(** The real environment, an external collaborator: [env.reset()] returns a
    frame and a task token and moves the environment on. *)
Variable env_reset : EnvState -> (RawImage * Z) * EnvState.

(** [torchvision.transforms.functional.to_tensor(obs_img).unsqueeze(0)]. *)
Variable to_tensor : RawImage -> Image.

(** WorldModelEnv.reset (lines 29-42); [env] is the state of [self.env], None
    for an engine built without an environment.  The task token becomes the
    (1, 1) tensor [torch.tensor([token]).unsqueeze(0)]. *)
Definition reset (env : option EnvState)
  : World Emb Rng -> (Result (Observation Image) * World Emb Rng) * option EnvState :=
  fun w =>
    match env with
    | None => ((Raise AssertionError, w), None)
    | Some s =>
        let (data, s') := env_reset s in
        let obs_img := to_tensor (fst data) in
        let obs_tok := [[snd data]] in
        (reset_from_initial_observations clamp01 world_model tokenizer obs_img obs_tok w,
         Some s')
    end.

End ResetFromEnv.

(** ** Vocabulary: a sequence of steps *)

(** The world after the engine was stepped with each of [actions] in turn,
    with next-observation prediction, whatever each step returned. *)
Definition after_steps {Emb Hid Logit Image CodeVec Rng}
    (categorical_sample : Logit -> Rng -> Col * Rng) (clamp01 : Image -> Image)
    (world_model : WorldModel Col Emb Hid Logit) (tokenizer : Tokenizer Image CodeVec)
    (actions : list Col) (w : World Emb Rng) : World Emb Rng :=
  fold_left (fun w a => snd (step categorical_sample clamp01 world_model tokenizer a true w))
            actions w.

(** A freshly constructed engine. *)
Definition fresh_world {Emb Rng} (g : Rng) : World Emb Rng :=
  {| self := WorldModelEnv_init; rng := g; forward_calls := [] |}.

(** ** The collector (collector.py): storing collected experience *)

(** The exceptions above, and numpy's AxisError. *)
Inductive CollectorError : Type :=
| Python (e : Error)
| AxisError.

(** Entry [i] of every row: [arr[:, i]] for a (T, N) array given by its rows. *)
Definition column {A} (i : nat) (rows : list (list A)) : list A :=
  flat_map (fun r => match nth_error r i with Some a => [a] | None => [] end) rows.

(** [np.swapaxes(arr, 0, 1)] on a list of T per-step arrays with one entry
    per environment: the list becomes an array first, which has the two axes
    only if there is at least one step (an empty list is a one-dimensional
    array: AxisError) and, in numpy since 1.24, only if all steps have the
    same number of entries (ValueError otherwise). *)
Definition swapaxes01 {A} (rows : list (list A)) : CollectorError + list (list A) :=
  match rows with
  | [] => inl AxisError
  | r0 :: _ =>
      if forallb (fun r => length r =? length r0) rows
      then inr (map (fun i => column i rows) (seq 0 (length r0)))
      else inl (Python ValueError)
  end.

Section CollectorDef.

Context {RawFrame Frame Dataset : Type}.

(** episode.Episode, as the collector builds it. *)
Record Episode : Type := {
  ep_observations_image : list Frame;
  ep_observations_token : list Z;
  ep_actions : list Z;
  ep_rewards : list Q;
  ep_ends : list Z;
  ep_mask_padding : list bool
}.

(** The episode store, an external collaborator: [add_episode] returns the id
    of the stored episode. *)
Variable add_episode : Episode -> Dataset -> nat * Dataset.
Variable update_episode : nat -> Episode -> Dataset -> Dataset.

(** [torch.ByteTensor(img).permute(0, 3, 1, 2)] on one frame: channel-first. *)
Variable channel_first : RawFrame -> Frame.

(** One observation of the vectorized environment: a frame and a task token
    per environment. *)
Record EnvObs : Type := {
  obs_image : list RawFrame;
  obs_token : list Z
}.

Inductive DatasetCall : Type :=
| AddEpisode (e : Episode)
| UpdateEpisode (id : nat) (e : Episode).

(** The fields of the Collector that add_experience_to_dataset uses, and, as
    ghost state, the calls of the episode store. *)
Record Collector : Type := {
  episode_ids : list (option nat);
  dataset : Dataset;
  dataset_calls : list DatasetCall
}.

(** The episode built in the body of the loop (lines 152-162). *)
Definition make_episode (img : list RawFrame) (tok a : list Z) (r : list Q) (d : list bool)
  : Episode :=
  {| ep_observations_image := map channel_first img;
     ep_observations_token := tok;
     ep_actions := a;
     ep_rewards := r;
     ep_ends := map Z.b2z d;
     ep_mask_padding := repeat true (length d) |}.

(** The body of the loop (lines 150-167) for environment [i]. *)
Definition store_episode (i : nat) (episode : Episode) (c : Collector)
  : option CollectorError * Collector :=
  match nth_error (episode_ids c) i with
  | None => (Some (Python IndexError), c)
  | Some None =>
      let (id, d) := add_episode episode (dataset c) in
      (None, {| episode_ids := update i (Some id) (episode_ids c);
                dataset := d;
                dataset_calls := dataset_calls c ++ [AddEpisode episode] |})
  | Some (Some id) =>
      (None, {| episode_ids := episode_ids c;
                dataset := update_episode id episode (dataset c);
                dataset_calls := dataset_calls c ++ [UpdateEpisode id episode] |})
  end.

Fixpoint store_episodes
    (l : list (nat * (list RawFrame * (list Z * (list Z * (list Q * list bool))))))
    (c : Collector) : option CollectorError * Collector :=
  match l with
  | [] => (None, c)
  | (i, (img, (tok, (a, (r, d))))) :: l' =>
      match store_episode i (make_episode img tok a r d) c with
      | (None, c') => store_episodes l' c'
      | (Some e, c') => (Some e, c')
      end
  end.

(** Collector.add_experience_to_dataset (lines 132-167); the result is the
    exception raised, if any. *)
Definition add_experience_to_dataset (observations : list EnvObs)
    (actions : list (list Z)) (rewards : list (list Q)) (dones : list (list bool))
    (c : Collector) : option CollectorError * Collector :=
  if negb ((length observations =? length actions)
           && (length actions =? length rewards)
           && (length rewards =? length dones))
  then (Some (Python AssertionError), c)
  else
    let obs_img := map obs_image observations in
    let obs_token := map obs_token observations in
    match swapaxes01 obs_img, swapaxes01 obs_token, swapaxes01 actions,
          swapaxes01 rewards, swapaxes01 dones with
    | inr imgs, inr toks, inr acts, inr rews, inr dns =>
        let zipped := combine imgs (combine toks (combine acts (combine rews dns))) in
        store_episodes (combine (seq 0 (length zipped)) zipped) c
    | inl e, _, _, _, _ => (Some e, c)
    | _, inl e, _, _, _ => (Some e, c)
    | _, _, inl e, _, _ => (Some e, c)
    | _, _, _, inl e, _ => (Some e, c)
    | _, _, _, _, inl e => (Some e, c)
    end.

End CollectorDef.

Arguments Episode : clear implicits.
Arguments EnvObs : clear implicits.
Arguments DatasetCall : clear implicits.
Arguments Collector : clear implicits.

(** ** Vocabulary: the experience of one environment *)

(** A (T, N) array given by its T rows. *)
Definition rectangular {A} (T N : nat) (rows : list (list A)) : Prop :=
  length rows = T /\ Forall (fun r => length r = N) rows.

(** The episode of environment [i] in T steps of collected experience. *)
Definition episode_of {RawFrame Frame} (channel_first : RawFrame -> Frame)
    (observations : list (EnvObs RawFrame)) (actions : list (list Z))
    (rewards : list (list Q)) (dones : list (list bool)) (i : nat) : Episode Frame :=
  {| ep_observations_image :=
       map channel_first (column i (map (@obs_image RawFrame) observations));
     ep_observations_token := column i (map (@obs_token RawFrame) observations);
     ep_actions := column i actions;
     ep_rewards := column i rewards;
     ep_ends := map Z.b2z (column i dones);
     ep_mask_padding := repeat true (length dones) |}.

(** * Properties *)

(** ** Lists *)

Lemma update_app_length {A} (l1 : list A) x l2 v :
  update (length l1) v (l1 ++ x :: l2) = l1 ++ v :: l2.
Proof. induction l1 as [|a l1 IH]; simpl; [reflexivity | now rewrite IH]. Qed.

Lemma setitem_neg_app (l1 : list Z) x l2 v k :
  k = S (length l2) ->
  setitem_neg (l1 ++ x :: l2) k v = Ok (l1 ++ v :: l2).
Proof.
  intros ->. unfold setitem_neg. rewrite length_app. simpl length.
  replace (length l1 + S (length l2) - S (length l2)) with (length l1) by lia.
  rewrite update_app_length.
  replace (S (length l2) <=? length l1 + S (length l2)) with true
    by (symmetry; apply Nat.leb_le; lia).
  reflexivity.
Qed.

Lemma setitem_neg_Ok t k v t' :
  setitem_neg t k v = Ok t' -> 1 <= k <= length t.
Proof.
  unfold setitem_neg.
  destruct (1 <=? k) eqn:H1; destruct (k <=? length t) eqn:H2; simpl; try discriminate.
  apply Nat.leb_le in H1, H2. lia.
Qed.

Lemma map2_app {A B C} (f : A -> B -> C) l1 l1' l2 l2' :
  length l1 = length l1' ->
  map2 f (l1 ++ l2) (l1' ++ l2') = map2 f l1 l1' ++ map2 f l2 l2'.
Proof.
  revert l1'. induction l1 as [|a l1 IH]; intros [|b l1'] H; simpl in *; try discriminate.
  - reflexivity.
  - f_equal. apply IH. lia.
Qed.

Lemma map2_repeat {A B C} (f : A -> B -> C) a b n :
  map2 f (repeat a n) (repeat b n) = repeat (f a b) n.
Proof. induction n; simpl; [reflexivity | now rewrite IHn]. Qed.

Lemma map2_length {A B C} (f : A -> B -> C) l1 l2 :
  length (map2 f l1 l2) = Nat.min (length l1) (length l2).
Proof.
  revert l2. induction l1 as [|a l1 IH]; intros [|b l2]; simpl; try reflexivity.
  now rewrite IH.
Qed.

Lemma repeat_snoc {A} (a : A) n : repeat a (S n) = repeat a n ++ [a].
Proof. induction n; simpl; [reflexivity | now rewrite <- IHn]. Qed.

Lemma forallb_repeat {A} (f : A -> bool) a n :
  f a = true -> forallb f (repeat a n) = true.
Proof. intros H. induction n; simpl; [reflexivity | now rewrite H]. Qed.

Lemma nth_repeat_app {A} (a d : A) n l p :
  p < n -> nth p (repeat a n ++ l) d = a.
Proof.
  intros H. rewrite app_nth1 by (rewrite repeat_length; lia).
  apply nth_repeat_lt; exact H.
Qed.

Lemma nth_app_repeat {A} (a d : A) n l p :
  nth (n + p) (repeat a n ++ l) d = nth p l d.
Proof.
  rewrite app_nth2 by (rewrite repeat_length; lia).
  rewrite repeat_length. f_equal. lia.
Qed.

(** ** The block masks built by the constructor *)

Section Masks.

Context {Tok Emb Hid Logit : Type}.

Lemma ones_split m : ones (m + 3) = ones (m + 1) ++ [1; 1]%Z.
Proof.
  unfold ones. replace (m + 3) with ((m + 1) + 2) by lia.
  now rewrite repeat_app.
Qed.

Lemma zeros_split m : zeros (m + 3) = zeros (m + 1) ++ [0; 0]%Z.
Proof.
  unfold zeros. replace (m + 3) with ((m + 1) + 2) by lia.
  now rewrite repeat_app.
Qed.

Lemma ones_snoc m : ones (m + 1) = ones m ++ [1]%Z.
Proof. unfold ones. rewrite Nat.add_1_r. apply repeat_snoc. Qed.

Lemma build_all_but_last m :
  (t <- setitem_neg (ones (m + 3)) 2 0%Z ;; setitem_neg t 3 0%Z)
  = Ok (all_but_last_obs_mask m).
Proof.
  rewrite ones_split.
  rewrite (setitem_neg_app (ones (m + 1)) 1%Z [1%Z] 0%Z) by reflexivity. simpl rbind.
  rewrite ones_snoc, <- app_assoc. simpl app.
  now apply (setitem_neg_app (ones m) 1%Z [0; 1]%Z 0%Z).
Qed.

Lemma build_act m : setitem_neg (zeros (m + 3)) 1 1%Z = Ok (act_mask m).
Proof.
  rewrite zeros_split.
  change (zeros (m + 1) ++ [0; 0]%Z) with (zeros (m + 1) ++ [0%Z] ++ [0%Z]).
  rewrite app_assoc.
  rewrite (setitem_neg_app (zeros (m + 1) ++ [0%Z]) 0%Z [] 1%Z) by reflexivity.
  now rewrite <- app_assoc.
Qed.

Lemma build_task m : setitem_neg (zeros (m + 3)) 2 1%Z = Ok (task_mask m).
Proof.
  rewrite zeros_split.
  now apply (setitem_neg_app (zeros (m + 1)) 0%Z [0%Z] 1%Z).
Qed.

Lemma build_obs m :
  map2 Z.sub (map2 Z.sub (ones (m + 3)) (act_mask m)) (task_mask m) = obs_mask m.
Proof.
  rewrite ones_split. unfold act_mask, task_mask, obs_mask, ones, zeros.
  rewrite !map2_app by (rewrite ?map2_length, !repeat_length; lia).
  rewrite !map2_repeat. reflexivity.
Qed.

Lemma act_mask_length m : length (act_mask m) = m + 3.
Proof. unfold act_mask, zeros. rewrite length_app, repeat_length. simpl. lia. Qed.
Lemma task_mask_length m : length (task_mask m) = m + 3.
Proof. unfold task_mask, zeros. rewrite length_app, repeat_length. simpl. lia. Qed.
Lemma obs_mask_length m : length (obs_mask m) = m + 3.
Proof. unfold obs_mask, ones. rewrite length_app, repeat_length. simpl. lia. Qed.
Lemma all_but_last_obs_mask_length m : length (all_but_last_obs_mask m) = m + 3.
Proof.
  unfold all_but_last_obs_mask, ones. rewrite length_app, repeat_length. simpl. lia.
Qed.

Lemma masks_sum_to_one m :
  sum_masks (m + 3) [act_mask m; task_mask m; obs_mask m] = ones (m + 3).
Proof.
  unfold sum_masks. simpl fold_left.
  rewrite zeros_split, ones_split. unfold act_mask, task_mask, obs_mask, ones, zeros.
  rewrite !map2_app by (rewrite ?map2_length, !repeat_length; lia).
  rewrite !map2_repeat. reflexivity.
Qed.

Lemma Embedder_init_masks m (tables : list (nat * (Tok -> Emb))) :
  length tables = 3 ->
  Embedder_init (m + 3) [act_mask m; task_mask m; obs_mask m] tables
  = Ok {| embedder_block_masks := [act_mask m; task_mask m; obs_mask m];
          embedding_tables := map snd tables;
          embedding_sizes := map fst tables |}.
Proof.
  intros Ht. unfold Embedder_init. simpl length. rewrite Ht. simpl rbind.
  simpl forallb at 1.
  rewrite act_mask_length, task_mask_length, obs_mask_length, Nat.eqb_refl.
  simpl rbind. rewrite masks_sum_to_one.
  unfold ones. rewrite forallb_repeat by reflexivity. reflexivity.
Qed.

Lemma WorldModel_init_small ov av cfg (mods : Modules Tok Emb Hid Logit) :
  tokens_per_block cfg < 3 -> WorldModel_init ov av cfg mods = Raise IndexError.
Proof.
  intros H. unfold WorldModel_init.
  destruct (tokens_per_block cfg) as [|[|[|n]]]; try lia; reflexivity.
Qed.

Lemma WorldModel_init_large ov av cfg (mods : Modules Tok Emb Hid Logit) m :
  tokens_per_block cfg = m + 3 ->
  exists wm, WorldModel_init ov av cfg mods = Ok wm /\ constructed cfg wm m.
Proof.
  intros H. unfold WorldModel_init. rewrite H.
  pose proof (build_all_but_last m) as Hab.
  destruct (setitem_neg (ones (m + 3)) 2 0%Z) as [t|e] eqn:E1; [|discriminate].
  simpl rbind in Hab |- *. rewrite Hab. simpl rbind.
  rewrite build_act. simpl rbind. rewrite build_task. simpl rbind.
  rewrite build_obs. rewrite Embedder_init_masks by reflexivity. simpl rbind.
  eexists. split; [reflexivity|].
  unfold constructed. simpl. repeat split; assumption || reflexivity.
Qed.

Lemma WorldModel_init_tables ov av cfg (mods : Modules Tok Emb Hid Logit) wm :
  WorldModel_init ov av cfg mods = Ok wm -> tables_sized wm.
Proof.
  intros H.
  destruct (Nat.lt_ge_cases (tokens_per_block cfg) 3) as [Hlt|Hge].
  - rewrite WorldModel_init_small in H by exact Hlt. discriminate.
  - revert H. unfold WorldModel_init.
    replace (tokens_per_block cfg) with ((tokens_per_block cfg - 3) + 3) by lia.
    set (m := tokens_per_block cfg - 3).
    pose proof (build_all_but_last m) as Hab.
    destruct (setitem_neg (ones (m + 3)) 2 0%Z) as [t|e] eqn:E1; [|discriminate].
    simpl rbind in Hab |- *. rewrite Hab. simpl rbind.
    rewrite build_act. simpl rbind. rewrite build_task. simpl rbind.
    rewrite build_obs. rewrite Embedder_init_masks by reflexivity. simpl rbind.
    intros H. injection H as <-. reflexivity.
Qed.

Lemma WorldModel_init_vocab ov av cfg (mods : Modules Tok Emb Hid Logit) wm :
  WorldModel_init ov av cfg mods = Ok wm ->
  task_vocab_size wm = 39 /\ act_vocab_size wm = av /\ obs_vocab_size wm = ov.
Proof.
  unfold WorldModel_init. intros H.
  destruct (setitem_neg (ones _) 2 0%Z); [|discriminate]. simpl rbind in H.
  destruct (setitem_neg _ 3 0%Z); [|discriminate]. simpl rbind in H.
  destruct (setitem_neg _ 1 1%Z); [|discriminate]. simpl rbind in H.
  destruct (setitem_neg _ 2 1%Z); [|discriminate]. simpl rbind in H.
  destruct (Embedder_init _ _ _); [|discriminate]. simpl rbind in H.
  injection H as <-. repeat split.
Qed.

Lemma WorldModel_init_inv ov av cfg (mods : Modules Tok Emb Hid Logit) wm :
  WorldModel_init ov av cfg mods = Ok wm ->
  exists m, constructed cfg wm m.
Proof.
  intros H.
  destruct (Nat.lt_ge_cases (tokens_per_block cfg) 3) as [Hlt|Hge].
  - rewrite WorldModel_init_small in H by exact Hlt. discriminate.
  - destruct (WorldModel_init_large ov av cfg mods (tokens_per_block cfg - 3))
      as [wm' [E C]]; [lia|].
    rewrite E in H. injection H as <-. eauto.
Qed.

(** Entries of the four masks. *)
Lemma act_mask_nth m p :
  nth p (act_mask m) 0%Z = if p =? m + 2 then 1%Z else 0%Z.
Proof.
  unfold act_mask, zeros.
  destruct (Nat.lt_ge_cases p (m + 1)) as [H|H].
  - rewrite nth_repeat_app by exact H.
    destruct (Nat.eqb_spec p (m + 2)); [lia | reflexivity].
  - replace p with ((m + 1) + (p - (m + 1))) at 1 by lia.
    rewrite nth_app_repeat.
    destruct (Nat.eqb_spec p (m + 2)) as [->|Hne].
    + replace (m + 2 - (m + 1)) with 1 by lia. reflexivity.
    + destruct (p - (m + 1)) as [|[|[|k]]] eqn:E; try reflexivity; lia.
Qed.

Lemma task_mask_nth m p :
  nth p (task_mask m) 0%Z = if p =? m + 1 then 1%Z else 0%Z.
Proof.
  unfold task_mask, zeros.
  destruct (Nat.lt_ge_cases p (m + 1)) as [H|H].
  - rewrite nth_repeat_app by exact H.
    destruct (Nat.eqb_spec p (m + 1)); [lia | reflexivity].
  - replace p with ((m + 1) + (p - (m + 1))) at 1 by lia.
    rewrite nth_app_repeat.
    destruct (Nat.eqb_spec p (m + 1)) as [->|Hne].
    + replace (m + 1 - (m + 1)) with 0 by lia. reflexivity.
    + destruct (p - (m + 1)) as [|[|[|k]]] eqn:E; try reflexivity; lia.
Qed.

Lemma obs_mask_nth m p :
  nth p (obs_mask m) 0%Z = if p <? m + 1 then 1%Z else 0%Z.
Proof.
  unfold obs_mask, ones.
  destruct (Nat.ltb_spec p (m + 1)) as [H|H].
  - now rewrite nth_repeat_app.
  - replace p with ((m + 1) + (p - (m + 1))) by lia.
    rewrite nth_app_repeat.
    destruct (p - (m + 1)) as [|[|[|k]]]; reflexivity.
Qed.

Lemma all_but_last_obs_mask_nth m p :
  nth p (all_but_last_obs_mask m) 0%Z
  = if (p <? m) || (p =? m + 2) then 1%Z else 0%Z.
Proof.
  unfold all_but_last_obs_mask, ones.
  destruct (Nat.ltb_spec p m) as [H|H]; simpl orb.
  - now rewrite nth_repeat_app.
  - replace p with (m + (p - m)) at 1 by lia.
    rewrite nth_app_repeat.
    destruct (Nat.eqb_spec p (m + 2)) as [->|Hne].
    + replace (m + 2 - m) with 2 by lia. reflexivity.
    + destruct (p - m) as [|[|[|k]]] eqn:E; try reflexivity; try lia.
      now destruct k.
Qed.

End Masks.

(** ** The forward pass *)

Section Forward.

Context {Tok Emb Hid Logit : Type} {HTok : TokenIndices Tok}.
Implicit Types (wm : WorldModel Tok Emb Hid Logit) (kv : KeysValues Emb).

(** [forward] in terms of the two lookups that can fail and of the sequence
    handed to the backbone. *)
Lemma forward_eq wm tokens past :
  forward wm tokens past
  = let prev := match past with None => 0 | Some kv => kv_size kv end in
    if Embedder_in_range (embedder wm) tokens (length tokens) prev then
      if forallb (fun p => p <? max_tokens (config wm))
                 (map (fun i => prev + i) (seq 0 (length tokens)))
      then '(x, past') <- Transformer_forward (transformer wm) (embedded wm tokens prev) past ;;
           Ok (heads_output wm x (length tokens) prev, past')
      else Raise IndexError
    else Raise IndexError.
Proof.
  unfold forward, Embedder_forward.
  destruct (Embedder_in_range _ _ _ _); reflexivity.
Qed.

(** A call that returns has found every token in the table of its role. *)
Lemma forward_Ok_in_range wm tokens past r :
  forward wm tokens past = Ok r ->
  Embedder_in_range (embedder wm) tokens (length tokens)
    (match past with None => 0 | Some kv => kv_size kv end) = true.
Proof.
  rewrite forward_eq. cbv zeta.
  destruct (Embedder_in_range _ _ _ _); [reflexivity | discriminate].
Qed.

(** A token outside the table of its role is an IndexError, cache or not. *)
Lemma forward_out_of_table wm tokens past :
  Embedder_in_range (embedder wm) tokens (length tokens)
    (match past with None => 0 | Some kv => kv_size kv end) = false ->
  forward wm tokens past = Raise IndexError.
Proof. intros H. rewrite forward_eq. cbv zeta. now rewrite H. Qed.

Lemma positions_in_table cap prev num :
  forallb (fun p => p <? cap) (map (fun i => prev + i) (seq 0 num)) = true
  <-> num = 0 \/ prev + num <= cap.
Proof.
  rewrite forallb_forall. split.
  - intros H. destruct num as [|k]; [now left | right].
    assert (Hin : In (prev + k) (map (fun i => prev + i) (seq 0 (S k)))).
    { apply in_map. apply in_seq. lia. }
    apply H, Nat.ltb_lt in Hin. lia.
  - intros H p Hp. apply in_map_iff in Hp as [i [<- Hi]].
    apply in_seq in Hi. apply Nat.ltb_lt. lia.
Qed.

Lemma Embedder_output_length z (e : Embedder Tok Emb) tokens prev :
  length (Embedder_output z e tokens (length tokens) prev) = length tokens.
Proof.
  unfold Embedder_output. rewrite map2_length, length_seq. apply Nat.min_id.
Qed.

Lemma embedded_length wm tokens prev :
  length (embedded wm tokens prev) = length tokens.
Proof.
  unfold embedded.
  rewrite map2_length, Embedder_output_length, !length_map, length_seq.
  apply Nat.min_id.
Qed.

(** A cached call within capacity extends the cache by the tokens fed. *)
Lemma forward_cached wm tokens kv :
  kv_max_tokens kv = max_tokens (config wm) ->
  kv_size kv + length tokens <= max_tokens (config wm) ->
  Embedder_in_range (embedder wm) tokens (length tokens) (kv_size kv) = true ->
  exists x,
    length x = length tokens /\
    forward wm tokens (Some kv)
    = Ok (heads_output wm x (length tokens) (kv_size kv),
          Some {| kv_cache := kv_cache kv ++ embedded wm tokens (kv_size kv);
                  kv_max_tokens := kv_max_tokens kv |}).
Proof.
  intros Hmax Hcap Hin. rewrite forward_eq. cbv zeta. rewrite Hin.
  replace (forallb _ _) with true
    by (symmetry; apply positions_in_table; now right).
  unfold Transformer_forward. rewrite embedded_length.
  replace (kv_size kv + length tokens <=? kv_max_tokens kv) with true
    by (symmetry; apply Nat.leb_le; lia).
  simpl rbind. eexists. split; [|reflexivity].
  now rewrite length_map, length_seq.
Qed.

(** A cached call that would pass the capacity fails and leaves no result. *)
Lemma forward_cached_overflow wm tokens kv :
  tokens <> [] ->
  max_tokens (config wm) < kv_size kv + length tokens ->
  forward wm tokens (Some kv) = Raise IndexError.
Proof.
  intros Hne Hcap. rewrite forward_eq. cbv zeta.
  destruct (Embedder_in_range _ _ _ _); [|reflexivity].
  destruct (forallb _ _) eqn:E; [|reflexivity].
  apply positions_in_table in E as [E|E]; [|lia].
  apply length_zero_iff_nil in E. contradiction.
Qed.

(** Whatever a cached call returns, the cache stays within its capacity. *)
Lemma forward_cached_size wm tokens kv out past' :
  kv_max_tokens kv = max_tokens (config wm) ->
  kv_size kv <= max_tokens (config wm) ->
  forward wm tokens (Some kv) = Ok (out, past') ->
  exists kv', past' = Some kv' /\
    kv_size kv' = kv_size kv + length tokens /\
    kv_max_tokens kv' = max_tokens (config wm) /\
    kv_size kv' <= max_tokens (config wm).
Proof.
  intros Hmax Hsz H.
  destruct (Nat.le_gt_cases (kv_size kv + length tokens) (max_tokens (config wm)))
    as [Hle|Hgt].
  - destruct (forward_cached wm tokens kv Hmax Hle (forward_Ok_in_range _ _ _ _ H))
      as [x [_ E]].
    rewrite E in H. injection H as <- <-.
    eexists. split; [reflexivity|]. unfold kv_size. simpl.
    rewrite length_app, embedded_length. unfold kv_size in *. lia.
  - destruct tokens as [|t ts].
    + simpl in Hgt. lia.
    + rewrite forward_cached_overflow in H; [discriminate | discriminate | exact Hgt].
Qed.

(** A call without a cache, as in training. *)
Lemma forward_uncached wm tokens :
  length tokens <= max_tokens (config wm) ->
  Embedder_in_range (embedder wm) tokens (length tokens) 0 = true ->
  exists x,
    length x = length tokens /\
    forward wm tokens None = Ok (heads_output wm x (length tokens) 0, None).
Proof.
  intros Hcap Hin. rewrite forward_eq. cbv zeta. rewrite Hin.
  replace (forallb _ _) with true
    by (symmetry; apply positions_in_table; now right).
  unfold Transformer_forward. simpl rbind.
  eexists. split; [|reflexivity].
  rewrite length_map, length_seq. apply embedded_length.
Qed.

Lemma compute_slice_single (mask : list Z) prev :
  compute_slice mask 1 prev
  = if (nth (prev mod length mask) mask 0 =? 1)%Z then [0] else [].
Proof.
  unfold compute_slice. simpl. now rewrite Nat.add_0_r.
Qed.

Lemma Head_forward_single (h : Head Hid Logit) (x : Hid) prev :
  Head_forward h [x] 1 prev
  = if (nth (prev mod length (head_block_mask h)) (head_block_mask h) 0 =? 1)%Z
    then [head_module h x] else [].
Proof.
  unfold Head_forward. rewrite compute_slice_single.
  now destruct (_ =? _)%Z.
Qed.

Lemma compute_slice_In (mask : list Z) num prev i :
  In i (compute_slice mask num prev)
  <-> i < num /\ nth ((prev + i) mod length mask) mask 0%Z = 1%Z.
Proof.
  unfold compute_slice. rewrite filter_In, in_seq, Z.eqb_eq. intuition lia.
Qed.

(** The lookups of one table succeed when every token at a position of its
    mask is one of its rows. *)
Lemma slice_in_table (mask : list Z) n (tokens : list Tok) prev :
  forallb (in_table n) (index_select tokens (compute_slice mask (length tokens) prev)) = true
  <-> forall i tok, nth_error tokens i = Some tok ->
        nth ((prev + i) mod length mask) mask 0%Z = 1%Z -> in_table n tok = true.
Proof.
  rewrite forallb_forall. unfold index_select. split.
  - intros H i tok Hnth Hbit. apply H. apply in_flat_map. exists i. split.
    + apply compute_slice_In. split; [|exact Hbit].
      apply nth_error_Some. now rewrite Hnth.
    + rewrite Hnth. now left.
  - intros H tok Hin. apply in_flat_map in Hin as (i & Hi & Hin).
    apply compute_slice_In in Hi as [_ Hbit].
    destruct (nth_error tokens i) as [a|] eqn:E; [|contradiction].
    destruct Hin as [->|[]]. exact (H i tok E Hbit).
Qed.

(** In a constructed world model the lookups of the embedder succeed exactly
    on the sequences whose tokens are in the vocabulary of their slot. *)
Lemma Embedder_in_range_iff cfg wm m tokens prev :
  constructed cfg wm m -> tables_sized wm ->
  Embedder_in_range (embedder wm) tokens (length tokens) prev = true
  <-> in_vocabulary wm tokens prev.
Proof.
  intros (Hn & Hc & He & _) Hs. unfold Embedder_in_range, in_vocabulary, slot_vocab_size.
  rewrite He, Hs, Hc, Hn. cbn [combine forallb fst snd].
  rewrite !andb_true_iff, !slice_in_table.
  rewrite act_mask_length, task_mask_length, obs_mask_length.
  replace (m + 3 - 1) with (m + 2) by lia.
  replace (m + 3 - 2) with (m + 1) by lia.
  split.
  - intros (Ha & Ht & Ho & _) i tok Hnth.
    specialize (Ha i tok Hnth). specialize (Ht i tok Hnth). specialize (Ho i tok Hnth).
    rewrite act_mask_nth in Ha. rewrite task_mask_nth in Ht. rewrite obs_mask_nth in Ho.
    assert (Hlt : (prev + i) mod (m + 3) < m + 3) by (apply Nat.mod_upper_bound; lia).
    destruct (Nat.eqb_spec ((prev + i) mod (m + 3)) (m + 2)); [now apply Ha|].
    destruct (Nat.eqb_spec ((prev + i) mod (m + 3)) (m + 1)); [now apply Ht|].
    destruct (Nat.ltb_spec ((prev + i) mod (m + 3)) (m + 1)); [now apply Ho | lia].
  - intros H. repeat split; intros i tok Hnth Hbit; specialize (H i tok Hnth);
      rewrite ?act_mask_nth, ?task_mask_nth, ?obs_mask_nth in Hbit;
      destruct (Nat.eqb_spec ((prev + i) mod (m + 3)) (m + 2));
      destruct (Nat.eqb_spec ((prev + i) mod (m + 3)) (m + 1));
      destruct (Nat.ltb_spec ((prev + i) mod (m + 3)) (m + 1));
      try discriminate; try lia; exact H.
Qed.

Lemma in_vocabulary_app wm (t1 t2 : list Tok) prev :
  in_vocabulary wm (t1 ++ t2) prev
  <-> in_vocabulary wm t1 prev /\ in_vocabulary wm t2 (prev + length t1).
Proof.
  unfold in_vocabulary. split.
  - intros H. split.
    + intros i tok Hnth. apply H. rewrite nth_error_app1; [exact Hnth|].
      apply nth_error_Some. now rewrite Hnth.
    + intros i tok Hnth. rewrite <- Nat.add_assoc. apply H.
      rewrite nth_error_app2 by lia.
      now replace (length t1 + i - length t1) with i by lia.
  - intros [H1 H2] i tok Hnth.
    destruct (Nat.lt_ge_cases i (length t1)) as [Hlt|Hge].
    + rewrite nth_error_app1 in Hnth by exact Hlt. now apply H1.
    + rewrite nth_error_app2 in Hnth by exact Hge.
      specialize (H2 _ _ Hnth).
      now replace (prev + length t1 + (i - length t1)) with (prev + i) in H2 by lia.
Qed.

Lemma slot_vocab_size_cases cfg wm m p :
  constructed cfg wm m ->
  slot_vocab_size wm p
  = if p mod (m + 3) =? m + 2 then act_vocab_size wm
    else if p mod (m + 3) =? m + 1 then task_vocab_size wm
    else obs_vocab_size wm.
Proof.
  intros (Hn & Hc & _). unfold slot_vocab_size. rewrite Hc, Hn.
  replace (m + 3 - 1) with (m + 2) by lia.
  replace (m + 3 - 2) with (m + 1) by lia. reflexivity.
Qed.

Lemma in_vocabulary_single wm (tok : Tok) prev :
  in_vocabulary wm [tok] prev <-> in_table (slot_vocab_size wm prev) tok = true.
Proof.
  unfold in_vocabulary. split.
  - intros H. specialize (H 0 tok eq_refl). now rewrite Nat.add_0_r in H.
  - intros H [|i] t Hnth; simpl in Hnth.
    + injection Hnth as <-. now rewrite Nat.add_0_r.
    + now destruct i.
Qed.

End Forward.

(** ** Role masks and head masks *)

Section MaskClaims.

Context {Tok Emb Hid Logit : Type} {HTok : TokenIndices Tok}.

(** C6.  Role-mask partition: in every constructed WorldModel the action, task
    and observation block masks have the block length, the action mask is 1
    only at the last position, the task mask only at the second-to-last one,
    the observation mask at every other position; at each position the three
    sum to 1 and are pairwise disjoint. *)
Theorem role_masks_partition ov av cfg (mods : Modules Tok Emb Hid Logit) wm :
  WorldModel_init ov av cfg mods = Ok wm ->
  let n := tokens_per_block cfg in
  exists act task obs,
    embedder_block_masks (embedder wm) = [act; task; obs] /\
    length act = n /\ length task = n /\ length obs = n /\
    forall p, p < n ->
      let a := nth p act 0%Z in
      let t := nth p task 0%Z in
      let o := nth p obs 0%Z in
      a = (if p =? n - 1 then 1%Z else 0%Z) /\
      t = (if p =? n - 2 then 1%Z else 0%Z) /\
      o = (if p <? n - 2 then 1%Z else 0%Z) /\
      (a + t + o = 1)%Z /\
      (a * t = 0)%Z /\ (a * o = 0)%Z /\ (t * o = 0)%Z.
Proof.
  intros H n. apply WorldModel_init_inv in H as [m (Hn & _ & He & _)].
  subst n. rewrite Hn.
  exists (act_mask m), (task_mask m), (obs_mask m).
  rewrite act_mask_length, task_mask_length, obs_mask_length.
  repeat split; try assumption; try reflexivity;
    rewrite ?act_mask_nth, ?task_mask_nth, ?obs_mask_nth;
    replace (m + 3 - 1) with (m + 2) by lia;
    replace (m + 3 - 2) with (m + 1) by lia;
    try reflexivity;
    destruct (Nat.eqb_spec p (m + 2)); destruct (Nat.eqb_spec p (m + 1));
    destruct (Nat.ltb_spec p (m + 1)); try lia; reflexivity.
Qed.


End MaskClaims.

Lemma role_masks_partition_witness :
  exists wm,
    WorldModel_init 512 6 (stub_config 18 340) (stub_modules Z) = Ok wm /\
    exists act task obs,
      embedder_block_masks (embedder wm) = [act; task; obs] /\
      nth 17 act 0%Z = 1%Z /\ nth 16 task 0%Z = 1%Z /\ nth 3 obs 0%Z = 1%Z.
Proof.
  eexists. split; [reflexivity|].
  destruct (role_masks_partition 512 6 (stub_config 18 340) (stub_modules Z) _ eq_refl)
    as (act & task & obs & E & _ & _ & _ & H).
  exists act, task, obs. split; [exact E|].
  pose proof (H 17 ltac:(simpl; lia)) as (H17 & _).
  pose proof (H 16 ltac:(simpl; lia)) as (_ & H16 & _).
  pose proof (H 3 ltac:(simpl; lia)) as (_ & _ & H3 & _).
  repeat split; assumption.
Defined.


(** ** Reward discretization *)

Lemma Qtrunc_nonneg q : (0 <= q)%Q -> Qtrunc q = Qfloor q.
Proof.
  destruct q as [a b]. unfold Qtrunc, Qfloor, Qle. simpl. intros H.
  apply Z.quot_div_nonneg; lia.
Qed.

Lemma Qtrunc_opp q : Qtrunc (- q) = (- Qtrunc q)%Z.
Proof.
  destruct q as [a b]. unfold Qtrunc. simpl. apply Z.quot_opp_l. lia.
Qed.

Lemma Qtrunc_comp q q' : (q == q')%Q -> Qtrunc q = Qtrunc q'.
Proof.
  intros E. destruct (Qlt_le_dec q 0) as [Hneg|Hpos].
  - assert (Hq : (0 <= - q)%Q) by (apply (Qopp_le_compat q 0), Qlt_le_weak, Hneg).
    assert (Hq' : (0 <= - q')%Q) by (rewrite <- E; exact Hq).
    apply Z.opp_inj. rewrite <- !Qtrunc_opp, !Qtrunc_nonneg by assumption.
    now rewrite E.
  - assert (Hpos' : (0 <= q')%Q) by (rewrite <- E; exact Hpos).
    rewrite !Qtrunc_nonneg by assumption. now rewrite E.
Qed.

Lemma Qtrunc_inject_Z c : Qtrunc (inject_Z c) = c.
Proof. unfold Qtrunc. simpl. apply Z.quot_1_r. Qed.

Lemma reward_label_unpadded r c :
  (r * 2 == inject_Z c)%Q -> reward_label r false = c.
Proof.
  intros E. unfold reward_label. rewrite (Qtrunc_comp _ _ E). apply Qtrunc_inject_Z.
Qed.

Lemma reward_label_padded r : reward_label r true = ignore_index.
Proof. reflexivity. Qed.

Lemma valid_class_3 c :
  valid_class num_reward_classes c = true <-> c = 0%Z \/ c = 1%Z \/ c = 2%Z.
Proof.
  unfold valid_class, num_reward_classes.
  rewrite andb_true_iff, Z.leb_le, Z.ltb_lt. lia.
Qed.

(** C1.  The code at the reward -1 of an unpadded step, a reward of the domain
    {-1, 0, 1} that the comment of line 135 and the claim name: the
    discretization gives the class index -2, which is neither a class of the
    3-way reward head nor the ignore label, so the round trip fails there, and
    the loss of a batch holding this reward raises an IndexError; the rollout
    decoding of the three classes of the head gives 0, 1/2 and 1, never -1. *)
Theorem reward_label_at_minus_one :
  clipped_reward (-1) /\
  reward_label (-1) false = (-2)%Z /\
  valid_class num_reward_classes (reward_label (-1) false) = false /\
  (reward_label (-1) false =? ignore_index)%Z = false /\
  ~ reward_roundtrip (-1) /\
  (reward_value 0 == 0)%Q /\ (reward_value 1 == 1 # 2)%Q /\ (reward_value 2 == 1)%Q /\
  compute_loss (fun img : list Z => img) (fun terms => length terms) Nat.add
    (stub_world_model Z 4 8)
    {| observations_image := [[[5; 6]; [7; 8]]]%Z;
       observations_token := [[30; 31]]%Z;
       actions := [[2; 3]]%Z;
       rewards := [[1; - (1)]]%Q;
       ends := [[0; 1]]%Z;
       mask_padding := [[true; true]] |} = Raise IndexError.
Proof.
  split; [left; reflexivity|].
  split; [reflexivity|]. split; [reflexivity|]. split; [reflexivity|].
  split; [intros (_ & Hv & _); vm_compute in Hv; discriminate|].
  split; [reflexivity|]. split; [reflexivity|]. split; [reflexivity|].
  vm_compute. reflexivity.
Qed.

(** The round trip does not hold on all of {-1, 0, 1}. *)
Lemma reward_roundtrip_fails_at_minus_one :
  ~ (forall r, clipped_reward r -> reward_roundtrip r).
Proof.
  intros H. destruct (H (-1)%Q) as (_ & Hv & _).
  - left. reflexivity.
  - vm_compute in Hv. discriminate.
Qed.

(** Where the two maps of the code are inverse to each other: the reward of an
    unpadded step goes to the class index 2r, a class of the 3-way head, and
    class / 2 gives r back, precisely for r in {0, 1/2, 1}; on the classes
    {0, 1, 2} the discretization inverts the decoding. *)
Lemma reward_roundtrip_exact :
  (forall r, reward_roundtrip r <-> (r == 0 \/ r == 1 # 2 \/ r == 1)%Q) /\
  (forall c, valid_class num_reward_classes c = true ->
             reward_label (reward_value c) false = c).
Proof.
  split.
  - intros r. unfold reward_roundtrip. split.
    + intros (_ & Hv & Hr). apply valid_class_3 in Hv.
      destruct Hv as [Hc|[Hc|Hc]]; rewrite Hc in Hr; rewrite <- Hr;
        [left | right; left | right; right]; reflexivity.
    + intros [E|[E|E]].
      * rewrite (reward_label_unpadded r 0) by (rewrite E; reflexivity).
        repeat split; try reflexivity; rewrite E; reflexivity.
      * rewrite (reward_label_unpadded r 1) by (rewrite E; reflexivity).
        repeat split; try reflexivity; rewrite E; reflexivity.
      * rewrite (reward_label_unpadded r 2) by (rewrite E; reflexivity).
        repeat split; try reflexivity; rewrite E; reflexivity.
  - intros c Hv. apply reward_label_unpadded. unfold reward_value. field.
Qed.

(** ** Termination precondition *)

Lemma sum_binary row :
  Forall (fun e => e = 0%Z \/ e = 1%Z) row ->
  fold_right Z.add 0%Z row = Z.of_nat (terminations row).
Proof.
  unfold terminations. induction 1 as [|e row [->| ->] _ IH].
  - reflexivity.
  - exact IH.
  - change (fold_right Z.add 0%Z (1%Z :: row)) with (1 + fold_right Z.add 0%Z row)%Z.
    change (filter (fun e => negb (e =? 0)%Z) (1%Z :: row))
      with (1%Z :: filter (fun e => negb (e =? 0)%Z) row).
    rewrite IH. cbn [length]. lia.
Qed.

Lemma ends_check ends :
  binary ends ->
  forallb (fun s => (s <=? 1)%Z) (sum_dim1 ends) = true
  <-> Forall (fun row => terminations row <= 1) ends.
Proof.
  unfold sum_dim1. intros Hb. rewrite forallb_forall, Forall_forall. split.
  - intros H row Hin.
    assert (Hs : In (fold_right Z.add 0%Z row) (map (fun r => fold_right Z.add 0%Z r) ends))
      by (apply in_map; exact Hin).
    apply H, Z.leb_le in Hs.
    rewrite sum_binary in Hs by (eapply Forall_forall in Hb; eauto). lia.
  - intros H s Hin. apply in_map_iff in Hin as [row [<- Hin]].
    apply Z.leb_le. rewrite sum_binary by (eapply Forall_forall in Hb; eauto).
    specialize (H row Hin). lia.
Qed.

Lemma compute_labels_world_model_raises obs_tokens rewards ends mask_padding :
  forallb (fun s => (s <=? 1)%Z) (sum_dim1 ends) = false ->
  compute_labels_world_model obs_tokens rewards ends mask_padding = Raise AssertionError.
Proof. intros H. unfold compute_labels_world_model. now rewrite H. Qed.

Lemma compute_labels_world_model_returns obs_tokens rewards ends mask_padding :
  forallb (fun s => (s <=? 1)%Z) (sum_dim1 ends) = true ->
  compute_labels_world_model obs_tokens rewards ends mask_padding
  = Ok (concat (map (fun row => tl (concat row))
                    (masked_fill_expand obs_tokens (logical_not mask_padding) ignore_index)),
        concat (map2 (map2 reward_label) rewards (logical_not mask_padding)),
        concat (masked_fill ends (logical_not mask_padding) ignore_index)).
Proof. intros H. unfold compute_labels_world_model. now rewrite H. Qed.

Lemma forward_uncached_cases {Tok Emb Hid Logit} {HTok : TokenIndices Tok}
    (wm : WorldModel Tok Emb Hid Logit) tokens :
  forward wm tokens None = Raise IndexError
  \/ exists out, forward wm tokens None = Ok (out, None).
Proof.
  rewrite forward_eq. cbv zeta.
  destruct (Embedder_in_range _ _ _ _); [|now left].
  destruct (forallb _ _); [right | now left].
  unfold Transformer_forward. simpl rbind. eauto.
Qed.

Lemma mapM_forward_cases {Tok Emb Hid Logit} {HTok : TokenIndices Tok}
    (wm : WorldModel Tok Emb Hid Logit) rows :
  mapM (fun row => '(o, _) <- forward wm row None ;; Ok o) rows = Raise IndexError
  \/ exists outs, mapM (fun row => '(o, _) <- forward wm row None ;; Ok o) rows = Ok outs.
Proof.
  induction rows as [|row rows IH]; simpl.
  - right. eauto.
  - destruct (forward_uncached_cases wm row) as [E|[out E]]; rewrite E; simpl.
    + now left.
    + destruct IH as [E'|[outs E']]; rewrite E'; simpl; [now left | right; eauto].
Qed.

Section TerminationClaim.

Context {Emb Hid Logit Image Loss : Type}.
Variable tokenizer_encode : Image -> list Z.
Variable nll_mean : list (Logit * Z) -> Loss.
Variable loss_add : Loss -> Loss -> Loss.

(** C7.  At-most-one-termination precondition: on a batch whose [ends] are 0
    or 1, the label computation raises the assertion error, and with it the
    loss computation raises (that error, or the index error of a sequence
    longer than the position table, which is met first), whenever some
    trajectory has two or more termination events; the check passes and the
    labels are returned whenever every trajectory has at most one. *)
Theorem termination_precondition (wm : WorldModel Z Emb Hid Logit) (batch : Batch Image) :
  binary (ends batch) ->
  let labels :=
    compute_labels_world_model (map (map tokenizer_encode) (observations_image batch))
      (rewards batch) (ends batch) (mask_padding batch) in
  (Exists (fun row => 2 <= terminations row) (ends batch) ->
     labels = Raise AssertionError /\
     (compute_loss tokenizer_encode nll_mean loss_add wm batch = Raise AssertionError \/
      compute_loss tokenizer_encode nll_mean loss_add wm batch = Raise IndexError)) /\
  (Forall (fun row => terminations row <= 1) (ends batch) ->
     exists l, labels = Ok l).
Proof.
  intros Hb labels. subst labels. split.
  - intros Hex.
    assert (Hc : forallb (fun s => (s <=? 1)%Z) (sum_dim1 (ends batch)) = false).
    { destruct (forallb _ _) eqn:E; [|reflexivity].
      apply (ends_check _ Hb) in E. apply Exists_exists in Hex as [row [Hin Hrow]].
      eapply Forall_forall in E; [|exact Hin]. lia. }
    split; [now apply compute_labels_world_model_raises|].
    unfold compute_loss.
    destruct (mapM_forward_cases wm
                (interleave (map (map tokenizer_encode) (observations_image batch))
                            (observations_token batch) (actions batch)))
      as [E|[outs E]]; rewrite E; simpl rbind.
    + now right.
    + left. now rewrite compute_labels_world_model_raises.
  - intros Hall. apply (ends_check _ Hb) in Hall.
    rewrite compute_labels_world_model_returns by exact Hall. eauto.
Qed.

End TerminationClaim.

Lemma termination_precondition_witness :
  compute_labels_world_model [[[5; 6]; [7; 8]]]%Z [[1; 1 # 2]]%Q [[1; 1]]%Z [[true; true]]
  = Raise AssertionError /\
  exists l,
    compute_labels_world_model [[[5; 6]; [7; 8]]]%Z [[1; 1 # 2]]%Q [[0; 1]]%Z [[true; true]]
    = Ok l.
Proof.
  split.
  - refine (proj1 (proj1 (termination_precondition (fun x => x) (fun _ => tt) (fun _ _ => tt)
              (stub_world_model Z 4 340) (stub_batch 1 1 true true) _) _)).
    + repeat (apply Forall_cons || apply Forall_nil); auto.
    + constructor. unfold terminations. simpl. lia.
  - refine (proj2 (termination_precondition (fun x => x) (fun _ => tt) (fun _ _ => tt)
              (stub_world_model Z 4 340) (stub_batch 0 1 true true) _) _).
    + repeat (apply Forall_cons || apply Forall_nil); auto.
    + repeat (apply Forall_cons || apply Forall_nil). unfold terminations. simpl. lia.
Defined.

(** ** More on lists: indexing, blocks, periodic filters *)

Lemma nth_map2 {A B C} (f : A -> B -> C) l1 l2 i d d1 d2 :
  i < length l1 -> i < length l2 ->
  nth i (map2 f l1 l2) d = f (nth i l1 d1) (nth i l2 d2).
Proof.
  revert l2 i. induction l1 as [|a l1 IH]; intros [|b l2] [|i] H1 H2; simpl in *;
    try lia; try reflexivity.
  apply IH; lia.
Qed.

Lemma nth_tl {A} (l : list A) j d :
  1 <= j -> nth (j - 1) (tl l) d = nth j l d.
Proof.
  intros H. destruct j as [|j]; [lia|]. simpl. rewrite Nat.sub_0_r.
  destruct l; [now destruct j | reflexivity].
Qed.

Lemma Forall_map2 {A B C} (P : C -> Prop) (f : A -> B -> C) l1 l2 :
  (forall a b, In a l1 -> In b l2 -> P (f a b)) -> Forall P (map2 f l1 l2).
Proof.
  revert l2. induction l1 as [|a l1 IH]; intros [|b l2] H; simpl; constructor.
  - apply H; now left.
  - apply IH. intros a' b' Ha Hb. apply H; now right.
Qed.

Lemma In_map2 {A B C} (f : A -> B -> C) l1 l2 c :
  In c (map2 f l1 l2) -> exists a b, In a l1 /\ In b l2 /\ c = f a b.
Proof.
  revert l2. induction l1 as [|a l1 IH]; intros [|b l2] H; simpl in H; try tauto.
  destruct H as [<-|H].
  - exists a, b. repeat split; now left.
  - destruct (IH l2 H) as (a' & b' & Ha & Hb & E).
    exists a', b'. repeat split; auto; now right.
Qed.

Lemma concat_length_uniform {A} (rows : list (list A)) n :
  Forall (fun r => length r = n) rows -> length (concat rows) = length rows * n.
Proof.
  induction 1 as [|r rows Hr _ IH]; simpl; [reflexivity|].
  rewrite length_app, IH, Hr. lia.
Qed.

Lemma nth_concat_uniform {A} (rows : list (list A)) n b i d :
  Forall (fun r => length r = n) rows ->
  i < n ->
  nth (b * n + i) (concat rows) d = nth i (nth b rows []) d.
Proof.
  intros H Hi. revert b. induction H as [|r rows Hr _ IH]; intros b.
  - simpl. destruct b, i; simpl; try reflexivity; now destruct (_ + _).
  - destruct b as [|b]; simpl.
    + apply app_nth1. lia.
    + rewrite app_nth2 by lia. rewrite <- IH. f_equal. lia.
Qed.

Lemma filter_map_swap {A B} (f : B -> bool) (g : A -> B) l :
  filter f (map g l) = map g (filter (fun a => f (g a)) l).
Proof.
  induction l as [|a l IH]; simpl; [reflexivity|].
  destruct (f (g a)); simpl; now rewrite IH.
Qed.

Lemma seq_offset start len :
  seq start len = map (fun k => start + k) (seq 0 len).
Proof.
  revert start. induction len as [|len IH]; intros start; simpl; [reflexivity|].
  rewrite Nat.add_0_r. f_equal.
  rewrite (IH (S start)), (IH 1), map_map.
  apply map_ext. intros k. lia.
Qed.

Lemma slot_of_position n t k : k < n -> (t * n + k) mod n = k.
Proof.
  intros H. rewrite Nat.add_comm, Nat.Div0.mod_add. now apply Nat.mod_small.
Qed.

Lemma step_of_position n t k : k < n -> (t * n + k) / n = t.
Proof.
  intros H. rewrite Nat.add_comm, Nat.div_add by lia.
  rewrite Nat.div_small by exact H. reflexivity.
Qed.

(** A filter that only looks at the slot keeps the same slots in every block. *)
Lemma filter_periodic (f : nat -> bool) n L :
  filter (fun q => f (q mod n)) (seq 0 (L * n))
  = concat (map (fun t => map (fun k => t * n + k) (filter f (seq 0 n))) (seq 0 L)).
Proof.
  induction L as [|L IH]; [reflexivity|].
  replace (S L * n) with (L * n + n) by lia.
  rewrite seq_app, filter_app, IH, seq_S, map_app, concat_app. simpl.
  rewrite app_nil_r. f_equal.
  rewrite (seq_offset (L * n) n), filter_map_swap. f_equal.
  apply filter_ext_in. intros k Hk. apply in_seq in Hk.
  now rewrite slot_of_position by lia.
Qed.

Lemma filter_none {A} (f : A -> bool) l :
  (forall a, In a l -> f a = false) -> filter f l = [].
Proof.
  induction l as [|a l IH]; intros H; simpl; [reflexivity|].
  rewrite (H a) by now left. apply IH. intros b Hb. apply H. now right.
Qed.

Lemma filter_all {A} (f : A -> bool) l :
  (forall a, In a l -> f a = true) -> filter f l = l.
Proof.
  intros H. apply forallb_filter_id, forallb_forall. exact H.
Qed.

Lemma filter_seq_below K n :
  K <= n -> filter (fun k => k <? K) (seq 0 n) = seq 0 K.
Proof.
  intros H. replace n with (K + (n - K)) by lia.
  rewrite seq_app, filter_app.
  rewrite filter_all by (intros k Hk; apply in_seq in Hk; apply Nat.ltb_lt; lia).
  rewrite filter_none by (intros k Hk; apply in_seq in Hk; apply Nat.ltb_ge; lia).
  apply app_nil_r.
Qed.

Lemma index_select_app {A} (x : list A) i1 i2 :
  index_select x (i1 ++ i2) = index_select x i1 ++ index_select x i2.
Proof. unfold index_select. apply flat_map_app. Qed.

Lemma index_select_length {A} (x : list A) idx :
  Forall (fun i => i < length x) idx -> length (index_select x idx) = length idx.
Proof.
  unfold index_select. induction 1 as [|i idx Hi _ IH]; simpl; [reflexivity|].
  destruct (nth_error x i) eqn:E.
  - simpl. now rewrite IH.
  - apply nth_error_None in E. lia.
Qed.

Lemma index_select_single {A} (x : list A) i :
  i < length x -> exists a, index_select x [i] = [a].
Proof.
  intros H. unfold index_select. simpl.
  destruct (nth_error x i) eqn:E.
  - simpl. eauto.
  - apply nth_error_None in E. lia.
Qed.

Lemma combine_concat {A B} (la : list (list A)) (lb : list (list B)) :
  Forall2 (fun a b => length a = length b) la lb ->
  combine (concat la) (concat lb) = concat (map2 (@combine A B) la lb).
Proof.
  induction 1 as [|a b la lb Hab _ IH]; simpl; [reflexivity|].
  rewrite <- IH. clear IH.
  revert b Hab. induction a as [|x a IHa]; intros [|y b] Hab; simpl in *;
    try discriminate; [reflexivity|].
  f_equal. apply IHa. lia.
Qed.

Lemma Forall2_nth {A B} (P : A -> B -> Prop) la lb da db :
  length la = length lb ->
  (forall i, i < length la -> P (nth i la da) (nth i lb db)) ->
  Forall2 P la lb.
Proof.
  revert lb. induction la as [|a la IH]; intros [|b lb] Hlen H; simpl in *;
    try discriminate; constructor.
  - apply (H 0). lia.
  - apply IH; [lia|]. intros i Hi. apply (H (S i)). lia.
Qed.

Lemma map2_nth_seq {A B C} (f : A -> B -> C) la lb da db n :
  length la = n -> length lb = n ->
  map2 f la lb = map (fun i => f (nth i la da) (nth i lb db)) (seq 0 n).
Proof.
  intros Ha Hb. apply (nth_ext _ _ (f da db) (f da db)).
  - rewrite map2_length, length_map, length_seq. lia.
  - intros i Hi. rewrite map2_length in Hi.
    rewrite (nth_map2 f la lb i _ da db) by lia.
    rewrite (nth_indep _ _ (f (nth 0 la da) (nth 0 lb db)))
      by (rewrite length_map, length_seq; lia).
    rewrite (map_nth (fun i => f (nth i la da) (nth i lb db)) (seq 0 n) 0 i).
    rewrite seq_nth by lia. reflexivity.
Qed.

(** ** Padding *)

Lemma cross_entropy_terms_kept {Logit} (input : list Logit) target g y :
  In (g, y) (cross_entropy_terms input target) -> y <> ignore_index.
Proof.
  unfold cross_entropy_terms. rewrite filter_In. simpl. intros [_ H] ->.
  discriminate.
Qed.

Lemma logical_not_nth mask b t :
  nth t (nth b (logical_not mask) []) false = negb (nth t (nth b mask []) true).
Proof.
  unfold logical_not.
  change (@nil bool) with (map negb []) at 1. rewrite map_nth.
  change false with (negb true) at 1. now rewrite map_nth.
Qed.

Lemma logical_not_shaped B L mask :
  shaped2 B L mask -> shaped2 B L (logical_not mask).
Proof.
  unfold shaped2, logical_not. intros [HB HL]. rewrite length_map. split; [exact HB|].
  apply Forall_map. eapply Forall_impl; [|exact HL].
  intros row Hrow. simpl. now rewrite length_map.
Qed.

Lemma map2_rows_shaped {A B' C} (f : A -> B' -> C) B L x y :
  shaped2 B L x -> shaped2 B L y -> shaped2 B L (map2 (map2 f) x y).
Proof.
  intros [HxB HxL] [HyB HyL]. split.
  - rewrite map2_length. lia.
  - apply Forall_map2. intros a b Ha Hb.
    rewrite Forall_forall in HxL, HyL.
    rewrite map2_length, (HxL a Ha), (HyL b Hb). apply Nat.min_id.
Qed.

Lemma map2_rows_nth {A B' C} (f : A -> B' -> C) B L x y b t d dx dy :
  shaped2 B L x -> shaped2 B L y -> b < B -> t < L ->
  nth t (nth b (map2 (map2 f) x y) []) d
  = f (nth t (nth b x []) dx) (nth t (nth b y []) dy).
Proof.
  intros [HxB HxL] [HyB HyL] Hb Ht.
  rewrite (nth_map2 (map2 f) x y b [] [] []) by lia.
  rewrite Forall_forall in HxL, HyL.
  apply nth_map2.
  - rewrite (HxL (nth b x [])); [exact Ht | apply nth_In; lia].
  - rewrite (HyL (nth b y [])); [exact Ht | apply nth_In; lia].
Qed.

Lemma masked_obs_rows_shaped B L K obs mask :
  shaped3 B L K obs -> shaped2 B L mask ->
  shaped2 B (L * K - 1)
    (map (fun row => tl (concat row)) (masked_fill_expand obs mask ignore_index)).
Proof.
  intros [HoB HoL] [HmB HmL]. unfold masked_fill_expand. split.
  - rewrite length_map, map2_length. lia.
  - apply Forall_map, Forall_map2. intros row mrow Hrow Hmrow.
    rewrite Forall_forall in HoL, HmL.
    destruct (HoL row Hrow) as [Hlen Hblocks]. specialize (HmL mrow Hmrow).
    assert (Hc : length (concat (map2 (fun toks (m : bool) =>
                   map (fun a => if m then ignore_index else a) toks) row mrow)) = L * K).
    { rewrite (concat_length_uniform _ K).
      - rewrite map2_length. lia.
      - apply Forall_map2. intros toks m Ht _. rewrite length_map.
        rewrite Forall_forall in Hblocks. now apply Hblocks. }
    destruct (concat _) as [|z zs]; simpl in *; lia.
Qed.

Lemma masked_obs_nth B L K obs mask b t k :
  shaped3 B L K obs -> shaped2 B L mask -> b < B -> t < L -> k < K ->
  nth (t * K + k)
      (concat (nth b (masked_fill_expand obs mask ignore_index) [])) 0%Z
  = if nth t (nth b mask []) false then ignore_index
    else nth k (nth t (nth b obs []) []) 0%Z.
Proof.
  intros [HoB HoL] [HmB HmL] Hb Ht Hk. unfold masked_fill_expand.
  rewrite (nth_map2 _ obs mask b [] [] []) by lia.
  rewrite Forall_forall in HoL, HmL.
  destruct (HoL (nth b obs [])) as [Hlen Hblocks]; [apply nth_In; lia|].
  assert (Hmlen : length (nth b mask []) = L) by (apply HmL, nth_In; lia).
  rewrite (nth_concat_uniform _ K).
  - rewrite (nth_map2 _ _ _ t [] [] false) by lia.
    destruct (nth t (nth b mask []) false).
    + rewrite (nth_indep _ 0%Z ignore_index).
      * exact (map_nth (fun a : Z => if true then ignore_index else a) _ 0%Z k).
      * rewrite length_map.
        rewrite Forall_forall in Hblocks. rewrite (Hblocks (nth t (nth b obs []) [])); [lia|].
        apply nth_In. lia.
    + exact (map_nth (fun a : Z => if false then ignore_index else a) _ 0%Z k).
  - apply Forall_map2. intros toks m Ht' _. rewrite length_map.
    rewrite Forall_forall in Hblocks. now apply Hblocks.
  - exact Hk.
Qed.

(** C8.  Padding ignore-label: on a batch of B trajectories of L steps with K
    observation tokens each that passes the termination check, the labels are
    returned, and for every step the padding mask marks as padded the reward
    label, the termination label and every observation label of that step
    (all but the very first token of a trajectory, which has no label) equal
    the ignore label -100; the classification losses keep no term with that
    label, so none of these labels contributes a loss term. *)
Theorem padding_ignore_label {Logit : Type} (B L K : nat)
    (obs_tokens : list (list (list Z))) (rewards : list (list Q))
    (ends : list (list Z)) (mask_padding : list (list bool)) :
  shaped3 B L K obs_tokens -> shaped2 B L rewards ->
  shaped2 B L ends -> shaped2 B L mask_padding ->
  binary ends -> Forall (fun row => terminations row <= 1) ends ->
  exists lo lr le,
    compute_labels_world_model obs_tokens rewards ends mask_padding = Ok (lo, lr, le) /\
    forall b t, b < B -> t < L ->
      nth t (nth b mask_padding []) true = false ->
      let i_step := b * L + t in
      nth i_step lr 0%Z = ignore_index /\
      nth i_step le 0%Z = ignore_index /\
      (forall k, k < K -> 1 <= t * K + k ->
         nth (b * (L * K - 1) + (t * K + k - 1)) lo 0%Z = ignore_index) /\
      (forall (input : list Logit) (g : Logit),
         ~ In (g, nth i_step lr 0%Z) (cross_entropy_terms input lr) /\
         ~ In (g, nth i_step le 0%Z) (cross_entropy_terms input le) /\
         forall k, k < K -> 1 <= t * K + k ->
           ~ In (g, nth (b * (L * K - 1) + (t * K + k - 1)) lo 0%Z)
                (cross_entropy_terms input lo)).
Proof.
  intros Ho Hr He Hm Hbin Hterm.
  rewrite compute_labels_world_model_returns by (now apply ends_check).
  do 3 eexists. split; [reflexivity|].
  intros b t Hb Ht Hpad i_step. subst i_step.
  pose proof (logical_not_shaped B L _ Hm) as Hf.
  assert (Hfill : nth t (nth b (logical_not mask_padding) []) false = true)
    by (rewrite logical_not_nth, Hpad; reflexivity).
  assert (Hlr : nth (b * L + t)
                  (concat (map2 (map2 reward_label) rewards (logical_not mask_padding))) 0%Z
                = ignore_index).
  { rewrite (nth_concat_uniform _ L)
      by (exact (proj2 (map2_rows_shaped reward_label B L _ _ Hr Hf)) || exact Ht).
    rewrite (map2_rows_nth reward_label B L _ _ b t 0%Z 0%Q false) by assumption.
    rewrite Hfill. reflexivity. }
  assert (Hle : nth (b * L + t)
                  (concat (masked_fill ends (logical_not mask_padding) ignore_index)) 0%Z
                = ignore_index).
  { unfold masked_fill.
    rewrite (nth_concat_uniform _ L)
      by (exact (proj2 (map2_rows_shaped _ B L _ _ He Hf)) || exact Ht).
    rewrite (map2_rows_nth _ B L _ _ b t 0%Z 0%Z false) by assumption.
    rewrite Hfill. reflexivity. }
  assert (Hlo : forall k, k < K -> 1 <= t * K + k ->
            nth (b * (L * K - 1) + (t * K + k - 1))
                (concat (map (fun row => tl (concat row))
                   (masked_fill_expand obs_tokens (logical_not mask_padding) ignore_index)))
                0%Z = ignore_index).
  { intros k Hk Hpos.
    assert (HtK : t * K + k < L * K) by nia.
    rewrite (nth_concat_uniform _ (L * K - 1))
      by (exact (proj2 (masked_obs_rows_shaped B L K _ _ Ho Hf)) || lia).
    change (@nil Z) with ((fun row => tl (concat row)) (@nil (list Z))).
    rewrite map_nth.
    pose proof (masked_obs_nth B L K obs_tokens _ b t k Ho Hf Hb Ht Hk) as Hn.
    rewrite Hfill in Hn. rewrite nth_tl by exact Hpos. exact Hn. }
  repeat split; try assumption.
  - rewrite Hlr. intros Hin. now apply cross_entropy_terms_kept in Hin.
  - rewrite Hle. intros Hin. now apply cross_entropy_terms_kept in Hin.
  - intros k Hk Hpos. rewrite Hlo by assumption.
    intros Hin. now apply cross_entropy_terms_kept in Hin.
Qed.

Lemma padding_ignore_label_witness :
  exists lo lr le,
    compute_labels_world_model [[[5; 6]; [7; 8]]]%Z [[1; 1 # 2]]%Q [[0; 1]]%Z [[false; true]]
    = Ok (lo, lr, le) /\
    nth 0 lr 0%Z = ignore_index /\ nth 0 le 0%Z = ignore_index /\
    nth 0 lo 0%Z = ignore_index.
Proof.
  destruct (padding_ignore_label (Logit := nat) 1 2 2
              [[[5; 6]; [7; 8]]]%Z [[1; 1 # 2]]%Q [[0; 1]]%Z [[false; true]])
    as (lo & lr & le & E & H).
  - split; [reflexivity|]. repeat (apply Forall_cons || apply Forall_nil || split); reflexivity.
  - split; [reflexivity|]. repeat (apply Forall_cons || apply Forall_nil); reflexivity.
  - split; [reflexivity|]. repeat (apply Forall_cons || apply Forall_nil); reflexivity.
  - split; [reflexivity|]. repeat (apply Forall_cons || apply Forall_nil); reflexivity.
  - repeat (apply Forall_cons || apply Forall_nil); auto.
  - repeat (apply Forall_cons || apply Forall_nil). unfold terminations. simpl. lia.
  - exists lo, lr, le. split; [exact E|].
    destruct (H 0 0 ltac:(lia) ltac:(lia) eq_refl) as (Hr & He & Ho & _).
    repeat split; try assumption.
    apply (Ho 1); lia.
Defined.

(** ** The loss: one trajectory *)

Lemma list_as_nth_seq {A} (l : list A) d :
  l = map (fun i => nth i l d) (seq 0 (length l)).
Proof.
  apply (nth_ext _ _ d d).
  - now rewrite length_map, length_seq.
  - intros i Hi. symmetry.
    rewrite (nth_indep (map (fun i => nth i l d) (seq 0 (length l))) d (nth 0 l d))
      by (rewrite length_map, length_seq; exact Hi).
    rewrite (map_nth (fun i => nth i l d) (seq 0 (length l)) 0 i).
    now rewrite seq_nth.
Qed.

Lemma map_tl {A B} (f : A -> B) l : tl (map f l) = map f (tl l).
Proof. now destruct l. Qed.

Lemma concat_singletons {A B} (f : A -> B) l :
  concat (map (fun a => [f a]) l) = map f l.
Proof. induction l as [|a l IH]; simpl; [reflexivity | now rewrite IH]. Qed.

Lemma map2_map_same {A B C D} (f : B -> C -> D) (g : A -> B) (h : A -> C) l :
  map2 f (map g l) (map h l) = map (fun a => f (g a) (h a)) l.
Proof. induction l as [|a l IH]; simpl; [reflexivity | now rewrite IH]. Qed.

Lemma map2_map_nth {A C D} (f : list A -> C -> D) (g : nat -> list A) l2 B d :
  length l2 = B ->
  map2 f (map g (seq 0 B)) l2 = map (fun b => f (g b) (nth b l2 d)) (seq 0 B).
Proof.
  intros Hlen. rewrite (list_as_nth_seq l2 d) at 1.
  rewrite Hlen. apply map2_map_same.
Qed.

Lemma Forall2_map_same {A B C} (P : B -> C -> Prop) (g : A -> B) (h : A -> C) l :
  (forall a, In a l -> P (g a) (h a)) -> Forall2 P (map g l) (map h l).
Proof.
  induction l as [|a l IH]; intros H; simpl; constructor.
  - apply H. now left.
  - apply IH. intros b Hb. apply H. now right.
Qed.

Lemma mapM_ok {A B} (f : A -> Result B) (g : A -> B) l :
  (forall a, In a l -> f a = Ok (g a)) -> mapM f l = Ok (map g l).
Proof.
  induction l as [|a l IH]; intros H; simpl; [reflexivity|].
  rewrite (H a) by now left. simpl.
  rewrite IH by (intros b Hb; apply H; now right). reflexivity.
Qed.

Section OneTrajectory.

Context {Emb Hid Logit : Type}.
Variable wm : WorldModel Z Emb Hid Logit.
Variable m : nat.
Hypothesis Hwm : constructed (config wm) wm m.

Let n := m + 3.
Let K := m + 1.

Lemma block_length : tokens_per_block (config wm) = n.
Proof. exact (proj1 Hwm). Qed.

Lemma forward_uncached_hidden tokens :
  length tokens <= max_tokens (config wm) ->
  Embedder_in_range (embedder wm) tokens (length tokens) 0 = true ->
  forward wm tokens None
  = Ok (heads_output wm (hidden_states wm tokens) (length tokens) 0, None).
Proof.
  intros Hcap Hin. rewrite forward_eq. cbv zeta. rewrite Hin.
  replace (forallb _ _) with true
    by (symmetry; apply positions_in_table; now right).
  unfold Transformer_forward. rewrite embedded_length. reflexivity.
Qed.

Lemma in_table_Z k (z : Z) : in_table k z = valid_class (Z.of_nat k) z.
Proof. unfold in_table, valid_class. simpl. apply andb_true_r. Qed.

Lemma slot_in_block prev k : prev mod n = 0 -> k < n -> (prev + k) mod n = k.
Proof.
  intros Hprev Hk.
  rewrite Nat.Div0.add_mod, Hprev, Nat.add_0_l, Nat.Div0.mod_mod.
  now apply Nat.mod_small.
Qed.

(** The interleaved tokens of a trajectory are in the vocabulary when the
    observation tokens, the task tokens and the actions are rows of their
    tables. *)
Lemma trajectory_in_vocabulary obs task act prev :
  prev mod n = 0 ->
  Forall (fun t => length t = K) obs ->
  Forall (Forall (fun z => valid_class (Z.of_nat (obs_vocab_size wm)) z = true)) obs ->
  Forall (fun z => valid_class (Z.of_nat (task_vocab_size wm)) z = true) task ->
  Forall (fun z => valid_class (Z.of_nat (act_vocab_size wm)) z = true) act ->
  in_vocabulary wm (trajectory_tokens obs task act) prev.
Proof.
  intros Hprev HK Ho. revert prev Hprev task act.
  induction Ho as [|o obs Hov Ho IH]; intros prev Hprev task act Ht Ha.
  - intros [|i] tok Hnth; discriminate.
  - destruct task as [|t task]; [intros [|i] tok Hnth; discriminate|].
    destruct act as [|a act]; [intros [|i] tok Hnth; discriminate|].
    change (trajectory_tokens (o :: obs) (t :: task) (a :: act))
      with (((o ++ [t]) ++ [a]) ++ trajectory_tokens obs task act).
    inversion HK as [|? ? HKo HK']; subst.
    inversion Ht as [|? ? Htv Ht']; subst. inversion Ha as [|? ? Hav Ha']; subst.
    rewrite !in_vocabulary_app, !in_vocabulary_single.
    rewrite !length_app, HKo. cbn [length].
    rewrite !(slot_vocab_size_cases _ wm m _ Hwm). fold n.
    repeat split.
    + intros i tok Hnth. rewrite (slot_vocab_size_cases _ wm m _ Hwm). fold n.
      assert (Hi : i < K) by (rewrite <- HKo; apply nth_error_Some; now rewrite Hnth).
      rewrite slot_in_block by (subst n K; lia || exact Hprev).
      destruct (Nat.eqb_spec i (m + 2)); [subst K; lia|].
      destruct (Nat.eqb_spec i (m + 1)); [subst K; lia|].
      rewrite in_table_Z. rewrite Forall_forall in Hov.
      apply Hov. eapply nth_error_In. exact Hnth.
    + rewrite slot_in_block by (subst n K; lia || exact Hprev).
      destruct (Nat.eqb_spec K (m + 2)); [subst K; lia|].
      destruct (Nat.eqb_spec K (m + 1)); [|subst K; lia].
      now rewrite in_table_Z.
    + rewrite slot_in_block by (subst n K; lia || exact Hprev).
      destruct (Nat.eqb_spec (K + 1) (m + 2)); [|subst K; lia].
      now rewrite in_table_Z.
    + apply IH; try assumption.
      replace (prev + (K + 1 + 1)) with (prev + n) by (subst n K; lia).
      rewrite Nat.Div0.add_mod, Hprev, Nat.Div0.mod_same. apply Nat.Div0.mod_0_l.
Qed.

Lemma hidden_states_length tokens : length (hidden_states wm tokens) = length tokens.
Proof. unfold hidden_states. now rewrite length_map, length_seq. Qed.

(** Slots at which the observation head is active, and slots holding an
    observation token one position later. *)
Lemma head_slot_shift p :
  (nth (p mod n) (all_but_last_obs_mask m) 0 =? 1)%Z = ((p + 1) mod n <? K).
Proof.
  rewrite all_but_last_obs_mask_nth. subst n K.
  assert (Hlt : p mod (m + 3) < m + 3) by (apply Nat.mod_upper_bound; lia).
  assert (Hs : (p + 1) mod (m + 3)
               = if p mod (m + 3) =? m + 2 then 0 else p mod (m + 3) + 1).
  { rewrite (Nat.div_mod_eq p (m + 3)) at 1.
    destruct (Nat.eqb_spec (p mod (m + 3)) (m + 2)) as [E|E].
    - rewrite E.
      replace ((m + 3) * (p / (m + 3)) + (m + 2) + 1)
        with (0 + (p / (m + 3) + 1) * (m + 3)) by lia.
      rewrite Nat.Div0.mod_add. apply Nat.mod_small. lia.
    - replace ((m + 3) * (p / (m + 3)) + p mod (m + 3) + 1)
        with ((p mod (m + 3) + 1) + (p / (m + 3)) * (m + 3)) by lia.
      rewrite Nat.Div0.mod_add. apply Nat.mod_small. lia. }
  rewrite Hs.
  destruct (Nat.eqb_spec (p mod (m + 3)) (m + 2)) as [E|E];
    destruct (Nat.ltb_spec (p mod (m + 3)) m); simpl;
    repeat match goal with |- context [?a <? ?b] => destruct (Nat.ltb_spec a b) end;
    try lia; reflexivity.
Qed.

Lemma compute_slice_obs_head T :
  compute_slice (head_block_mask (head_observations wm)) T 0
  = filter (fun p => (p + 1) mod n <? K) (seq 0 T).
Proof.
  unfold compute_slice. destruct Hwm as (_ & _ & _ & -> & _).
  rewrite all_but_last_obs_mask_length. apply filter_ext. intros p.
  simpl Nat.add. apply head_slot_shift.
Qed.

Lemma compute_slice_obs_head_last L :
  compute_slice (head_block_mask (head_observations wm)) (S L * n) 0
  = compute_slice (head_block_mask (head_observations wm)) (S L * n - 1) 0
    ++ [S L * n - 1].
Proof.
  rewrite !compute_slice_obs_head.
  replace (S L * n) with (S (S L * n - 1)) at 1 by (subst n; lia).
  rewrite seq_S, filter_app. cbn [filter Nat.add]. f_equal.
  replace (S L * n - 1 + 1) with (0 + S L * n) by (subst n; lia).
  rewrite Nat.Div0.mod_add. rewrite Nat.mod_small by (subst n; lia).
  subst K. now destruct (Nat.ltb_spec 0 (m + 1)); [|lia].
Qed.

(** The observation logits the loss keeps: those of every active position but
    the final one. *)
Lemma kept_obs_logits L tokens :
  length tokens = L * n ->
  removelast (logits_observations
                (heads_output wm (hidden_states wm tokens) (length tokens) 0))
  = map (head_module (head_observations wm))
        (index_select (hidden_states wm tokens)
           (compute_slice (head_block_mask (head_observations wm)) (length tokens - 1) 0)).
Proof.
  intros HT. simpl logits_observations. unfold Head_forward. rewrite HT.
  destruct L as [|L].
  - reflexivity.
  - rewrite compute_slice_obs_head_last, index_select_app, map_app.
    destruct (index_select_single (hidden_states wm tokens) (S L * n - 1)) as [a Ea].
    { rewrite hidden_states_length, HT. subst n. lia. }
    rewrite Ea. simpl map at 2. apply removelast_last.
Qed.

Lemma trajectory_blocks_shaped L obs task act :
  length obs = L -> Forall (fun t => length t = K) obs ->
  length task = L -> length act = L ->
  length (map2 (@app Z) (map2 (@app Z) obs (map (fun a => [a]) task))
               (map (fun a => [a]) act)) = L /\
  Forall (fun blk => length blk = n)
         (map2 (@app Z) (map2 (@app Z) obs (map (fun a => [a]) task))
               (map (fun a => [a]) act)).
Proof.
  intros Ho HK Ht Ha. split.
  - rewrite !map2_length, !length_map. lia.
  - apply Forall_map2. intros x y Hx Hy.
    apply in_map_iff in Hy as [a [<- _]].
    apply In_map2 in Hx as (o & t & Hin & Htk & ->).
    apply in_map_iff in Htk as [t' [<- _]].
    rewrite Forall_forall in HK.
    rewrite !length_app, (HK o Hin). simpl. subst n K. lia.
Qed.

Lemma trajectory_tokens_length L obs task act :
  length obs = L -> Forall (fun t => length t = K) obs ->
  length task = L -> length act = L ->
  length (trajectory_tokens obs task act) = L * n.
Proof.
  intros Ho HK Ht Ha.
  destruct (trajectory_blocks_shaped L obs task act Ho HK Ht Ha) as [Hlen Hblk].
  unfold trajectory_tokens. now rewrite (concat_length_uniform _ n Hblk), Hlen.
Qed.

Lemma trajectory_tokens_obs L obs task act t k :
  length obs = L -> Forall (fun t => length t = K) obs ->
  length task = L -> length act = L ->
  t < L -> k < K ->
  nth (t * n + k) (trajectory_tokens obs task act) 0%Z = nth k (nth t obs []) 0%Z.
Proof.
  intros Ho HK Ht Ha Hlt Hk.
  destruct (trajectory_blocks_shaped L obs task act Ho HK Ht Ha) as [Hlen Hblk].
  unfold trajectory_tokens.
  rewrite (nth_concat_uniform _ n) by (exact Hblk || (subst n K; lia)).
  rewrite (nth_map2 _ _ _ t [] [] [])
    by (rewrite ?map2_length, ?length_map; lia).
  rewrite (nth_map2 _ _ _ t [] [] [])
    by (rewrite ?length_map; lia).
  rewrite <- app_assoc. apply app_nth1.
  rewrite Forall_forall in HK. rewrite (HK (nth t obs [])); [exact Hk|].
  apply nth_In. lia.
Qed.

(** The observation labels of one trajectory are the labels of the tokens one
    position after the positions whose logits are kept. *)
Lemma kept_obs_labels L obs task act padding :
  length obs = L -> Forall (fun t => length t = K) obs ->
  length task = L -> length act = L -> length padding = L ->
  let tokens := trajectory_tokens obs task act in
  tl (concat (map2 (fun toks (f : bool) => map (fun a => if f then ignore_index else a) toks)
                   obs (map negb padding)))
  = map (fun p => token_label wm tokens padding (p + 1))
        (compute_slice (head_block_mask (head_observations wm)) (length tokens - 1) 0).
Proof.
  intros Ho HK Ht Ha Hp tokens.
  assert (HT : length tokens = L * n)
    by (apply trajectory_tokens_length; assumption).
  (* the masked tokens are the labels of the observation slots *)
  assert (Hall :
    concat (map2 (fun toks (f : bool) => map (fun a => if f then ignore_index else a) toks)
                 obs (map negb padding))
    = map (token_label wm tokens padding)
          (filter (fun q => q mod n <? K) (seq 0 (L * n)))).
  { rewrite (filter_periodic (fun k => k <? K) n L).
    rewrite filter_seq_below by (subst n K; lia).
    rewrite concat_map, map_map. f_equal.
    rewrite (map2_nth_seq _ obs (map negb padding) [] false L)
      by (rewrite ?length_map; assumption).
    apply map_ext_in. intros t Hin. apply in_seq in Hin.
    rewrite map_map.
    assert (HKt : length (nth t obs []) = K).
    { rewrite Forall_forall in HK. apply HK, nth_In. lia. }
    rewrite (list_as_nth_seq (nth t obs []) 0%Z) at 1.
    rewrite map_map, HKt. apply map_ext_in. intros k Hk. apply in_seq in Hk.
    unfold token_label. rewrite block_length.
    rewrite step_of_position by (subst n K; lia).
    change false with (negb true). rewrite map_nth.
    subst tokens.
    rewrite (trajectory_tokens_obs L) by (assumption || lia).
    now destruct (nth t padding true). }
  rewrite Hall, map_tl, HT, compute_slice_obs_head. clear Hall.
  destruct L as [|L]; [reflexivity|].
  replace (S L * n) with (S (S L * n - 1)) at 1 by (subst n; lia).
  cbn [seq filter].
  replace (0 mod n <? K) with true
    by (symmetry; rewrite Nat.Div0.mod_0_l; apply Nat.ltb_lt; subst K; lia).
  cbn [tl]. rewrite <- seq_shift, filter_map_swap, map_map.
  replace (filter (fun a => S a mod n <? K) (seq 0 (S L * n - 1)))
    with (filter (fun p => (p + 1) mod n <? K) (seq 0 (S L * n - 1)))
    by (apply filter_ext; intros p; now rewrite Nat.add_1_r).
  apply map_ext. intros p. now rewrite Nat.add_1_r.
Qed.

(** The reward and termination heads are active at the action slot of every
    block. *)
Lemma compute_slice_act_head L :
  compute_slice (act_mask m) (L * n) 0 = action_positions wm L.
Proof.
  unfold compute_slice, action_positions.
  rewrite act_mask_length, block_length. fold n.
  transitivity (filter (fun q => (fun k => (nth k (act_mask m) 0 =? 1)%Z) (q mod n))
                       (seq 0 (L * n))).
  { apply filter_ext. intros i. reflexivity. }
  rewrite (filter_periodic (fun k => (nth k (act_mask m) 0 =? 1)%Z) n L).
  replace (filter (fun k => (nth k (act_mask m) 0 =? 1)%Z) (seq 0 n)) with [n - 1].
  - simpl map at 2. apply concat_singletons.
  - subst n. replace (m + 3) with (S (m + 2)) at 2 by lia.
    rewrite seq_S, filter_app.
    rewrite filter_none.
    + cbn [filter Nat.add app]. rewrite act_mask_nth, Nat.eqb_refl.
      simpl. f_equal. lia.
    + intros k Hk. apply in_seq in Hk. rewrite act_mask_nth.
      destruct (Nat.eqb_spec k (m + 2)); [lia | reflexivity].
Qed.

Lemma action_positions_in_range L p :
  In p (action_positions wm L) -> p < L * n.
Proof.
  unfold action_positions. rewrite block_length. fold n.
  intros Hin. apply in_map_iff in Hin as [t [<- Ht]]. apply in_seq in Ht.
  subst n. nia.
Qed.

Lemma action_positions_length L : length (action_positions wm L) = L.
Proof. unfold action_positions. now rewrite length_map, length_seq. Qed.

Lemma step_logits (h : Head Hid Logit) x L :
  head_block_mask h = act_mask m ->
  Head_forward h x (L * n) 0
  = map (head_module h) (index_select x (action_positions wm L)).
Proof.
  intros Hm. unfold Head_forward. now rewrite Hm, compute_slice_act_head.
Qed.

Lemma step_logits_length (h : Head Hid Logit) tokens L :
  length tokens = L * n ->
  length (map (head_module h)
              (index_select (hidden_states wm tokens) (action_positions wm L))) = L.
Proof.
  intros HT. rewrite length_map, index_select_length.
  - apply action_positions_length.
  - apply Forall_forall. intros p Hp. rewrite hidden_states_length, HT.
    now apply action_positions_in_range.
Qed.

Lemma kept_obs_logits_length tokens :
  length (map (head_module (head_observations wm))
              (index_select (hidden_states wm tokens)
                 (compute_slice (head_block_mask (head_observations wm))
                    (length tokens - 1) 0)))
  = length (compute_slice (head_block_mask (head_observations wm)) (length tokens - 1) 0).
Proof using Type.
  rewrite length_map, index_select_length; [reflexivity|].
  apply Forall_forall. intros p Hp. apply compute_slice_In in Hp as [Hp _].
  rewrite hidden_states_length. clear - Hp. lia.
Qed.

End OneTrajectory.

(** ** The loss: a batch *)

Lemma interleave_rows B obs task act :
  length obs = B -> length task = B -> length act = B ->
  interleave obs task act
  = map (fun b => trajectory_tokens (nth b obs []) (nth b task []) (nth b act []))
        (seq 0 B).
Proof.
  revert obs task act. induction B as [|B IH]; intros [|o obs] [|t task] [|a act] Ho Ht Ha;
    simpl in Ho, Ht, Ha; try discriminate; [reflexivity|].
  change (interleave (o :: obs) (t :: task) (a :: act))
    with (trajectory_tokens o t a :: interleave obs task act).
  rewrite (IH obs task act) by lia.
  cbn [seq map nth]. f_equal.
  rewrite <- seq_shift, map_map. reflexivity.
Qed.

Lemma shaped2_row {A} B L (x : list (list A)) b :
  shaped2 B L x -> b < B -> length (nth b x []) = L.
Proof.
  intros [HB HL] Hb. rewrite Forall_forall in HL. apply HL, nth_In. lia.
Qed.

Lemma shaped3_row {A} B L K (x : list (list (list A))) b :
  shaped3 B L K x -> b < B ->
  length (nth b x []) = L /\ Forall (fun t => length t = K) (nth b x []).
Proof.
  intros [HB HL] Hb. rewrite Forall_forall in HL. apply HL, nth_In. lia.
Qed.

Lemma concat_length_rows {A B'} (G : nat -> list A) (H : nat -> list B') l :
  (forall b, In b l -> length (G b) = length (H b)) ->
  length (concat (map G l)) = length (concat (map H l)).
Proof.
  induction l as [|b l IH]; intros E; simpl; [reflexivity|].
  rewrite !length_app, (E b) by now left.
  rewrite IH by (intros b' Hb'; apply E; now right). reflexivity.
Qed.

Section CrossEntropy.

Context {Logit Loss : Type}.
Variable nll_mean : list (Logit * Z) -> Loss.

Lemma cross_entropy_ok C (input : list Logit) target :
  length input = length target ->
  Forall (fun y => y = ignore_index \/ valid_class C y = true) target ->
  cross_entropy nll_mean C input target = Ok (nll_mean (kept_terms (combine input target))).
Proof.
  intros Hlen Hrange. unfold cross_entropy.
  rewrite Hlen, Nat.eqb_refl. simpl negb. cbv iota.
  unfold cross_entropy_terms. fold (kept_terms (combine input target)).
  replace (forallb _ _) with true; [reflexivity|].
  symmetry. apply forallb_forall. intros [g y] Hin.
  unfold kept_terms in Hin. apply filter_In in Hin as [Hin Hkeep]. simpl in *.
  apply in_combine_r in Hin. rewrite Forall_forall in Hrange.
  destruct (Hrange y Hin) as [->|Hv]; [discriminate | exact Hv].
Qed.

(** The loss of a batch given row by row. *)
Lemma cross_entropy_rows C (G : nat -> list Logit) (H : nat -> list Z) B :
  (forall b, b < B -> length (G b) = length (H b)) ->
  (forall b, b < B ->
     Forall (fun y => y = ignore_index \/ valid_class C y = true) (H b)) ->
  cross_entropy nll_mean C (concat (map G (seq 0 B))) (concat (map H (seq 0 B)))
  = Ok (nll_mean (kept_terms (concat (map (fun b => combine (G b) (H b)) (seq 0 B))))).
Proof.
  intros Hlen Hrange. rewrite cross_entropy_ok.
  - rewrite combine_concat, map2_map_same; [reflexivity|].
    apply Forall2_map_same. intros b Hb. apply in_seq in Hb. apply Hlen. lia.
  - apply concat_length_rows. intros b Hb. apply in_seq in Hb. apply Hlen. lia.
  - apply Forall_concat, Forall_map, Forall_forall. intros b Hb.
    apply in_seq in Hb. apply Hrange. lia.
Qed.

End CrossEntropy.

Section LossOfBatch.

Context {Emb Hid Logit Image Loss : Type}.
Variable tokenizer_encode : Image -> list Z.
Variable nll_mean : list (Logit * Z) -> Loss.
Variable loss_add : Loss -> Loss -> Loss.
Variable wm : WorldModel Z Emb Hid Logit.
Variable m : nat.
Hypothesis Hwm : constructed (config wm) wm m.
Variables B L : nat.
Variable batch : Batch Image.
Hypothesis Hshape : batch_shaped tokenizer_encode B L (m + 1) batch.
Hypothesis Hcap : L * (m + 3) <= max_tokens (config wm).

Let obsT := map (map tokenizer_encode) (observations_image batch).
Let tokens := interleave obsT (observations_token batch) (actions batch).
Let fill := logical_not (mask_padding batch).
Let row (b : nat) : list Z :=
  trajectory_tokens (nth b obsT []) (nth b (observations_token batch) [])
                    (nth b (actions batch) []).
Let out (r : list Z) : WorldModelOutput Hid Logit :=
  heads_output wm (hidden_states wm r) (length r) 0.

Lemma tokens_rows : tokens = map row (seq 0 B).
Proof.
  destruct Hshape as ([Ho _] & [Ht _] & [Ha _] & _).
  apply interleave_rows; assumption.
Qed.

Lemma row_length b : b < B -> length (row b) = L * (m + 3).
Proof.
  intros Hb. destruct Hshape as (Ho & Ht & Ha & _).
  destruct (shaped3_row B L (m + 1) obsT b Ho Hb) as [HoL HoK].
  apply (trajectory_tokens_length m L); try assumption.
  - now apply (shaped2_row B L).
  - now apply (shaped2_row B L).
Qed.

Lemma row_in_vocabulary b :
  b < B ->
  Forall (Forall (Forall (fun z => valid_class (Z.of_nat (obs_vocab_size wm)) z = true)))
         obsT ->
  Forall (Forall (fun z => valid_class (Z.of_nat (task_vocab_size wm)) z = true))
         (observations_token batch) ->
  Forall (Forall (fun z => valid_class (Z.of_nat (act_vocab_size wm)) z = true))
         (actions batch) ->
  in_vocabulary wm (row b) 0.
Proof.
  intros Hb Hvo Hvt Hva. destruct Hshape as (Ho & Ht & Ha & _).
  destruct (shaped3_row B L (m + 1) obsT b Ho Hb) as [_ HoK].
  rewrite Forall_forall in Hvo, Hvt, Hva.
  apply (trajectory_in_vocabulary wm m Hwm).
  - apply Nat.Div0.mod_0_l.
  - exact HoK.
  - apply Hvo, nth_In. pose proof (proj1 Ho). unfold obsT in *. lia.
  - apply Hvt, nth_In. pose proof (proj1 Ht). lia.
  - apply Hva, nth_In. pose proof (proj1 Ha). lia.
Qed.

Lemma outputs_of_batch :
  tables_sized wm ->
  Forall (Forall (Forall (fun z => valid_class (Z.of_nat (obs_vocab_size wm)) z = true)))
         obsT ->
  Forall (Forall (fun z => valid_class (Z.of_nat (task_vocab_size wm)) z = true))
         (observations_token batch) ->
  Forall (Forall (fun z => valid_class (Z.of_nat (act_vocab_size wm)) z = true))
         (actions batch) ->
  mapM (fun r => '(o, _) <- forward wm r None ;; Ok o) tokens = Ok (map out tokens).
Proof.
  intros Hsz Hvo Hvt Hva.
  apply mapM_ok. intros r Hr. rewrite tokens_rows in Hr.
  apply in_map_iff in Hr as [b [<- Hb]]. apply in_seq in Hb.
  rewrite forward_uncached_hidden; [reflexivity | rewrite row_length; lia |].
  apply (Embedder_in_range_iff _ wm m _ _ Hwm Hsz).
  apply row_in_vocabulary; assumption || lia.
Qed.

(** Without any assumption on the tokens: a token outside the table of its
    slot makes the forward pass of its trajectory raise. *)
Lemma outputs_of_batch_cases :
  mapM (fun r => '(o, _) <- forward wm r None ;; Ok o) tokens = Raise IndexError
  \/ mapM (fun r => '(o, _) <- forward wm r None ;; Ok o) tokens = Ok (map out tokens).
Proof.
  assert (Hrows : forall r, In r tokens -> length r <= max_tokens (config wm)).
  { intros r Hr. rewrite tokens_rows in Hr.
    apply in_map_iff in Hr as [b [<- Hb]]. apply in_seq in Hb.
    rewrite row_length; lia. }
  clear Hshape. induction tokens as [|r rows IH]; [now right|].
  cbn [mapM map].
  destruct (Embedder_in_range (embedder wm) r (length r) 0) eqn:Hin.
  - rewrite forward_uncached_hidden by (exact Hin || (apply Hrows; now left)).
    cbn [rbind].
    destruct IH as [E|E]; [intros r' Hr'; apply Hrows; now right | |]; rewrite E;
      [now left | now right].
  - rewrite forward_out_of_table by exact Hin. now left.
Qed.

Lemma fill_row b : nth b fill [] = map negb (nth b (mask_padding batch) []).
Proof.
  unfold fill, logical_not.
  change (@nil bool) with (map negb []) at 1. apply map_nth.
Qed.

(** The observation loss. *)
Lemma observation_loss_of_batch :
  Forall (Forall (Forall (fun z => valid_class (Z.of_nat (obs_vocab_size wm)) z = true)))
         obsT ->
  cross_entropy nll_mean (Z.of_nat (obs_vocab_size wm))
    (concat (map (fun o => removelast (logits_observations o)) (map out tokens)))
    (concat (map (fun r => tl (concat r)) (masked_fill_expand obsT fill ignore_index)))
  = Ok (nll_mean (kept_terms
          (concat (map2 (shifted_obs_pairs wm) tokens (mask_padding batch))))).
Proof.
  intros Hrange.
  destruct Hshape as (Ho & Ht & Ha & _ & _ & Hm).
  pose proof (logical_not_shaped B L _ Hm) as Hf. fold fill in Hf.
  set (P := fun b => compute_slice (head_block_mask (head_observations wm))
                       (length (row b) - 1) 0).
  set (G := fun b => map (head_module (head_observations wm))
                       (index_select (hidden_states wm (row b)) (P b))).
  set (H := fun b => map (fun p => token_label wm (row b) (nth b (mask_padding batch) [])
                                     (p + 1)) (P b)).
  set (H0 := fun b => tl (concat (map2 (fun toks (f : bool) =>
                        map (fun a => if f then ignore_index else a) toks)
                        (nth b obsT []) (nth b fill [])))).
  assert (HH : forall b, b < B -> H0 b = H b).
  { intros b Hb. unfold H0, H, P. rewrite fill_row.
    destruct (shaped3_row B L (m + 1) obsT b Ho Hb) as [HoL HoK].
    apply (kept_obs_labels wm m Hwm L); try assumption;
      now apply (shaped2_row B L). }
  (* logits, row by row *)
  replace (concat (map (fun o => removelast (logits_observations o)) (map out tokens)))
    with (concat (map G (seq 0 B))).
  2:{ f_equal. rewrite tokens_rows, !map_map. apply map_ext_in.
      intros b Hb. apply in_seq in Hb. unfold G, P, out.
      symmetry. apply (kept_obs_logits wm m Hwm L). apply row_length. lia. }
  (* labels, row by row *)
  replace (concat (map (fun r => tl (concat r)) (masked_fill_expand obsT fill ignore_index)))
    with (concat (map H (seq 0 B))).
  2:{ f_equal. unfold masked_fill_expand.
      rewrite (map2_nth_seq _ obsT fill [] [] B) by (apply Ho || apply Hf).
      rewrite map_map. apply map_ext_in. intros b Hb. apply in_seq in Hb.
      symmetry. apply HH. lia. }
  rewrite cross_entropy_rows.
  - do 3 f_equal. rewrite tokens_rows.
    rewrite (list_as_nth_seq (mask_padding batch) []) at 1.
    rewrite (proj1 Hm), map2_map_same. reflexivity.
  - intros b Hb. unfold G, H, P.
    rewrite kept_obs_logits_length, length_map. reflexivity.
  - intros b Hb. rewrite <- HH by exact Hb. unfold H0.
    assert (Hall : Forall (fun y => y = ignore_index
                            \/ valid_class (Z.of_nat (obs_vocab_size wm)) y = true)
                     (concat (map2 (fun toks (f : bool) =>
                        map (fun a => if f then ignore_index else a) toks)
                        (nth b obsT []) (nth b fill [])))).
    { apply Forall_concat, Forall_map2. intros toks f Htoks _.
      apply Forall_map.
      assert (Hrow : In (nth b obsT []) obsT) by (apply nth_In; pose proof (proj1 Ho); unfold obsT; lia).
      rewrite Forall_forall in Hrange. specialize (Hrange _ Hrow).
      rewrite Forall_forall in Hrange. specialize (Hrange _ Htoks).
      eapply Forall_impl; [|exact Hrange].
      intros a Hv. destruct f; [now left | now right]. }
    destruct (concat _) as [|z zs]; [constructor|].
    now inversion Hall.
Qed.

(** A loss taken at the action slots: rewards, termination. *)
Lemma step_loss_of_batch C (h : Head Hid Logit) (labels : list (list Z)) :
  head_block_mask h = act_mask m ->
  shaped2 B L labels ->
  Forall (Forall (fun y => y = ignore_index \/ valid_class C y = true)) labels ->
  cross_entropy nll_mean C
    (concat (map (fun r => Head_forward h (hidden_states wm r) (length r) 0) tokens))
    (concat labels)
  = Ok (nll_mean (kept_terms (concat (map2 (step_pairs wm h) tokens labels)))).
Proof.
  intros Hh Hl Hrange.
  set (G := fun b => map (head_module h)
                       (index_select (hidden_states wm (row b)) (action_positions wm L))).
  replace (concat (map (fun r => Head_forward h (hidden_states wm r) (length r) 0) tokens))
    with (concat (map G (seq 0 B))).
  2:{ f_equal. rewrite tokens_rows, map_map. apply map_ext_in.
      intros b Hb. apply in_seq in Hb. unfold G.
      rewrite row_length by lia. symmetry. now apply (step_logits wm m Hwm). }
  replace (concat labels) with (concat (map (fun b => nth b labels []) (seq 0 B)))
    by (f_equal; rewrite <- (proj1 Hl); symmetry; apply list_as_nth_seq).
  rewrite cross_entropy_rows.
  - do 3 f_equal. rewrite tokens_rows.
    rewrite (map2_map_nth _ _ labels B []) by apply Hl.
    f_equal. apply map_ext_in.
    intros b Hb. apply in_seq in Hb. unfold step_pairs, G.
    rewrite (shaped2_row B L labels b Hl) by lia. reflexivity.
  - intros b Hb. unfold G.
    rewrite (step_logits_length wm m Hwm h (row b) L) by now apply row_length.
    symmetry. now apply (shaped2_row B L).
  - intros b Hb. rewrite Forall_forall in Hrange. apply Hrange, nth_In.
    rewrite (proj1 Hl). exact Hb.
Qed.

End LossOfBatch.

Section ObservationLossShift.

Context {Emb Hid Logit Image Loss : Type}.
Variable tokenizer_encode : Image -> list Z.
Variable nll_mean : list (Logit * Z) -> Loss.
Variable loss_add : Loss -> Loss -> Loss.

(** C5.  Observation-loss shift: on a batch of B trajectories of L steps with
    K observation tokens per step (block K + 2) that fits the position table,
    whose observation tokens, task tokens and actions are rows of their
    embedding tables and whose labels are classes of their heads, the loss is
    returned; the
    observation loss is taken over the pairs of the observation logits at a
    sequence position with the label of the token one position later, for
    exactly the positions whose successor is an observation token of the same
    trajectory (so the logits of the final position are left out and the first
    observation token is no label); the reward and termination losses pair the
    logits at the action slot of step t with the label of step t; the total is
    the sum of the three. *)
Theorem observation_loss_shift ov av cfg (mods : Modules Z Emb Hid Logit) wm
    (batch : Batch Image) (B L K : nat) :
  WorldModel_init ov av cfg mods = Ok wm ->
  tokens_per_block cfg = K + 2 ->
  batch_shaped tokenizer_encode B L K batch ->
  batch_in_range tokenizer_encode wm batch ->
  Forall (fun row => terminations row <= 1) (ends batch) ->
  L * (K + 2) <= max_tokens cfg ->
  let obs_tokens := map (map tokenizer_encode) (observations_image batch) in
  let tokens := interleave obs_tokens (observations_token batch) (actions batch) in
  let mask_fill := logical_not (mask_padding batch) in
  exists res,
    compute_loss tokenizer_encode nll_mean loss_add wm batch = Ok res /\
    loss_obs res
    = nll_mean (kept_terms
        (concat (map2 (shifted_obs_pairs wm) tokens (mask_padding batch)))) /\
    loss_rewards res
    = nll_mean (kept_terms
        (concat (map2 (step_pairs wm (head_rewards wm)) tokens
                      (map2 (map2 reward_label) (rewards batch) mask_fill)))) /\
    loss_ends res
    = nll_mean (kept_terms
        (concat (map2 (step_pairs wm (head_ends wm)) tokens
                      (masked_fill (ends batch) mask_fill ignore_index)))) /\
    loss_total res = loss_add (loss_add (loss_obs res) (loss_rewards res)) (loss_ends res) /\
    (forall row, In row tokens ->
       length row = L * (K + 2) /\
       forall p,
         In p (compute_slice (head_block_mask (head_observations wm)) (length row - 1) 0)
         <-> p + 1 < length row /\ (p + 1) mod (K + 2) < K).
Proof.
  intros Hinit HK Hshape Hrange Hterm Hcap obs_tokens tokens mask_fill.
  pose proof (WorldModel_init_tables _ _ _ _ _ Hinit) as Hsz.
  apply WorldModel_init_inv in Hinit as [m Hwm].
  assert (Em : K = m + 1) by (destruct Hwm as (Hn & _); lia). subst K.
  assert (Hcfg : config wm = cfg) by apply Hwm. rewrite <- Hcfg in Hcap, Hwm.
  replace (m + 1 + 2) with (m + 3) in * by lia.
  destruct Hrange as (Hro & Hrt & Hra & Hrr & Hre).
  pose proof Hshape as (Ho & Ht & Ha & Hr & He & Hm).
  pose proof (logical_not_shaped B L _ Hm) as Hf.
  assert (Hlr : Forall (Forall (fun y => y = ignore_index
                                   \/ valid_class num_reward_classes y = true))
                  (map2 (map2 reward_label) (rewards batch) mask_fill)).
  { apply Forall_map2. intros rs fs Hrs _. apply Forall_map2. intros r f Hin _.
    destruct f; [now left | right].
    rewrite Forall_forall in Hrr. specialize (Hrr rs Hrs).
    rewrite Forall_forall in Hrr. now apply Hrr. }
  assert (Hle : Forall (Forall (fun y => y = ignore_index
                                   \/ valid_class num_end_classes y = true))
                  (masked_fill (ends batch) mask_fill ignore_index)).
  { apply Forall_map2. intros es fs Hes _. apply Forall_map2. intros e f Hin _.
    destruct f; [now left | right].
    unfold binary in Hre. rewrite Forall_forall in Hre. specialize (Hre es Hes).
    rewrite Forall_forall in Hre. destruct (Hre e Hin) as [-> | ->]; reflexivity. }
  unfold compute_loss.
  rewrite (outputs_of_batch tokenizer_encode wm m Hwm B L batch Hshape Hcap Hsz Hro Hrt Hra).
  cbn [rbind].
  rewrite compute_labels_world_model_returns by (apply ends_check; assumption).
  cbn [rbind].
  rewrite (observation_loss_of_batch tokenizer_encode nll_mean wm m Hwm B L batch Hshape Hcap)
    by exact Hro.
  cbn [rbind].
  rewrite !map_map.
  change (fun x : list Z =>
            logits_rewards (heads_output wm (hidden_states wm x) (length x) 0))
    with (fun r : list Z =>
            Head_forward (head_rewards wm) (hidden_states wm r) (length r) 0).
  change (fun x : list Z =>
            logits_ends (heads_output wm (hidden_states wm x) (length x) 0))
    with (fun r : list Z =>
            Head_forward (head_ends wm) (hidden_states wm r) (length r) 0).
  rewrite (step_loss_of_batch tokenizer_encode nll_mean wm m Hwm B L batch Hshape Hcap
             num_reward_classes (head_rewards wm) _ (proj1 (proj2 (proj2 (proj2 (proj2 Hwm)))))
             (map2_rows_shaped reward_label B L _ _ Hr Hf) Hlr).
  cbn [rbind].
  rewrite (step_loss_of_batch tokenizer_encode nll_mean wm m Hwm B L batch Hshape Hcap
             num_end_classes (head_ends wm)
             (masked_fill (ends batch) (logical_not (mask_padding batch)) ignore_index)
             (proj2 (proj2 (proj2 (proj2 (proj2 Hwm)))))
             (map2_rows_shaped _ B L _ _ He Hf) Hle).
  cbn [rbind].
  eexists. split; [reflexivity|]. cbn [loss_obs loss_rewards loss_ends loss_total
                                        LossWithIntermediateLosses_init].
  do 4 (split; [reflexivity|]).
  intros row Hrow. split.
  - subst tokens obs_tokens.
    rewrite (tokens_rows tokenizer_encode m B L batch Hshape) in Hrow.
    apply in_map_iff in Hrow as [b [<- Hb]]. apply in_seq in Hb.
    apply (row_length tokenizer_encode m B L batch Hshape). lia.
  - intros p.
    rewrite (compute_slice_obs_head wm m Hwm), filter_In, in_seq, Nat.ltb_lt.
    replace (m + 1 + 2) with (m + 3) by lia. intuition lia.
Qed.

End ObservationLossShift.

Lemma observation_loss_shift_witness :
  exists res,
    compute_loss (fun x => x) (fun terms => terms) (@app (nat * Z))
      (stub_world_model Z 4 340) (stub_batch 0 1 true true) = Ok res /\
    loss_obs res = [(1, 6%Z); (4, 7%Z); (5, 8%Z)] /\
    loss_rewards res = [(4, 2%Z); (8, 1%Z)] /\
    loss_ends res = [(4, 0%Z); (8, 1%Z)] /\
    loss_total res = (loss_obs res ++ loss_rewards res) ++ loss_ends res.
Proof.
  destruct (observation_loss_shift (fun x => x) (fun terms => terms) (@app (nat * Z))
              512 6 (stub_config 4 340) (stub_modules Z) (stub_world_model Z 4 340)
              (stub_batch 0 1 true true) 1 2 2)
    as (res & E & Hobs & Hrew & Hend & Htot & _).
  - reflexivity.
  - reflexivity.
  - repeat split; repeat (apply Forall_cons || apply Forall_nil || split); reflexivity.
  - repeat split; repeat (apply Forall_cons || apply Forall_nil); auto.
  - repeat (apply Forall_cons || apply Forall_nil). unfold terminations. simpl. lia.
  - simpl. lia.
  - exists res. split; [exact E|]. rewrite Htot, Hobs, Hrew, Hend.
    repeat split; reflexivity.
Defined.

(** ** Decoding the stored block *)

Lemma chunks_shape {A} (w h : nat) (l : list A) :
  length l = h * w ->
  length (chunks w h l) = h /\
  Forall (fun r => length r = w) (chunks w h l) /\
  concat (chunks w h l) = l.
Proof.
  revert l. induction h as [|h IH]; intros l Hl; simpl in *.
  - apply length_zero_iff_nil in Hl. subst. repeat split. constructor.
  - destruct (IH (skipn w l)) as (H1 & H2 & H3).
    { rewrite length_skipn. lia. }
    repeat split.
    + now rewrite H1.
    + constructor; [|exact H2]. rewrite length_firstn. lia.
    + rewrite H3. apply firstn_skipn.
Qed.

Lemma rearrange_hw_Ok {A} (x : list A) h :
  h <> 0 -> length x mod h = 0 ->
  rearrange_hw x h = Ok (chunks (length x / h) h x).
Proof.
  intros Hh Hm. unfold rearrange_hw.
  destruct (Nat.eqb_spec h 0); [contradiction|].
  now rewrite Hm.
Qed.

Lemma rearrange_hw_Raise {A} (x : list A) h :
  length x mod h <> 0 -> rearrange_hw x h = Raise EinopsError.
Proof.
  intros Hm. unfold rearrange_hw.
  destruct (Nat.eqb_spec h 0); [reflexivity|].
  destruct (Nat.eqb_spec (length x mod h) 0); [contradiction | reflexivity].
Qed.

Lemma removelast_length {A} (l : list A) : length (removelast l) = length l - 1.
Proof.
  induction l as [|a [|b l] IH]; try reflexivity.
  change (removelast (a :: b :: l)) with (a :: removelast (b :: l)).
  simpl length in *. rewrite IH. lia.
Qed.

Section Decode.

Context {Emb Image CodeVec Rng : Type}.
Variable clamp01 : Image -> Image.
Variable tokenizer : Tokenizer Image CodeVec.

(** C3, amended.  decode_obs_tokens reads the stored block and the token count
    N and changes nothing; it drops the trailing task-slot token, looks up the
    codec embeddings of the N - 1 remaining tokens and cuts them into a grid
    of h = floor(sqrt N) rows by (N - 1) / h columns, failing fatally exactly
    when h does not divide N - 1; the result pairs the decoded grid with the
    task-slot token.  When N - 1 is a positive square s * s the grid is the
    s by s square. *)
Theorem decode_obs_tokens_grid (w : World Emb Rng) (N : nat) (t : list Col) :
  _num_observations_tokens (self w) = Some N ->
  obs_tokens (self w) = Some t ->
  length t = N -> 1 <= N ->
  let h := Nat.sqrt N in
  let cols := (N - 1) / h in
  let grid := chunks cols h (map (tokenizer_embedding tokenizer) (removelast t)) in
  snd (decode_obs_tokens clamp01 tokenizer w) = w /\
  (forall w2 : World Emb Rng,
     _num_observations_tokens (self w2) = Some N -> obs_tokens (self w2) = Some t ->
     fst (decode_obs_tokens clamp01 tokenizer w2)
     = fst (decode_obs_tokens clamp01 tokenizer w)) /\
  ((N - 1) mod h = 0 ->
     fst (decode_obs_tokens clamp01 tokenizer w)
     = Ok {| image := clamp01 (tokenizer_decode tokenizer grid);
             token := [last t []] |} /\
     length grid = h /\ Forall (fun r => length r = cols) grid /\
     concat grid = map (tokenizer_embedding tokenizer) (removelast t)) /\
  ((N - 1) mod h <> 0 ->
     fst (decode_obs_tokens clamp01 tokenizer w) = Raise EinopsError) /\
  (forall s, 1 <= s -> N = s * s + 1 -> h = s /\ cols = s /\ (N - 1) mod h = 0).
Proof.
  intros HN Ht Hlen Hpos h cols grid.
  assert (Hh : h <> 0).
  { subst h. pose proof (Nat.sqrt_spec N (Nat.le_0_l N)) as Hs.
    intros E. rewrite E in Hs. simpl in Hs. lia. }
  assert (Hq : length (map (tokenizer_embedding tokenizer) (removelast t)) = N - 1).
  { rewrite length_map, removelast_length. lia. }
  assert (Hdec : forall w2 : World Emb Rng,
            _num_observations_tokens (self w2) = Some N -> obs_tokens (self w2) = Some t ->
            decode_obs_tokens clamp01 tokenizer w2
            = (match rearrange_hw (map (tokenizer_embedding tokenizer) (removelast t)) h with
               | Ok z => Ok {| image := clamp01 (tokenizer_decode tokenizer z);
                               token := [last t []] |}
               | Raise e => Raise e
               end, w2)).
  { intros w2 HN2 Ht2. unfold decode_obs_tokens, bind, get_self.
    rewrite Ht2, HN2. fold h.
    destruct (rearrange_hw _ h); [|reflexivity].
    destruct t; [simpl in Hlen; lia | reflexivity]. }
  split; [now rewrite Hdec|].
  split; [intros w2 HN2 Ht2; now rewrite !Hdec|].
  split; [|split].
  - intros Hm. rewrite Hdec by assumption.
    rewrite rearrange_hw_Ok by (rewrite ?Hq; assumption). rewrite Hq.
    split; [reflexivity|]. apply chunks_shape. rewrite Hq.
    subst cols. pose proof (Nat.div_mod_eq (N - 1) h). lia.
  - intros Hm. rewrite Hdec by assumption.
    now rewrite rearrange_hw_Raise by (rewrite Hq; exact Hm).
  - intros s Hs HNs.
    assert (Es : h = s).
    { subst h. apply Nat.sqrt_unique. nia. }
    subst cols. rewrite Es. replace (N - 1) with (s * s) by lia.
    repeat split.
    + apply Nat.div_mul. lia.
    + apply Nat.Div0.mod_mul.
Qed.

End Decode.

(** C3, as stated: decoding would fail whenever the token count is not a
    perfect square.  With the count 17 of the engine (16 observation tokens
    and the task slot) it returns a 4 by 4 grid. *)
Lemma decode_obs_tokens_not_square :
  ~ (forall (w : World unit nat) (N : nat),
       _num_observations_tokens (self w) = Some N ->
       (exists t, obs_tokens (self w) = Some t /\ length t = N) ->
       (forall s, s * s <> N) ->
       exists e, fst (decode_obs_tokens (fun x => x) stub_tokenizer w) = Raise e).
Proof.
  intros H.
  destruct (H (stub_world (stub_block 17) 17 340) 17) as [e He].
  - reflexivity.
  - eexists. split; reflexivity.
  - intros s Hs.
    assert (s < 5) by nia.
    do 5 (destruct s as [|s]; [discriminate|]). lia.
  - vm_compute in He. discriminate.
Qed.

Lemma decode_obs_tokens_grid_witness :
  fst (decode_obs_tokens (fun x => x) stub_tokenizer (stub_world (stub_block 17) 17 340))
  = Ok {| image := [[[1]; [2]; [3]; [4]]; [[5]; [6]; [7]; [8]];
                    [[9]; [10]; [11]; [12]]; [[13]; [14]; [15]; [16]]]%Z;
          token := [[30%Z]] |}.
Proof.
  destruct (decode_obs_tokens_grid (fun x => x) stub_tokenizer
              (stub_world (stub_block 17) 17 340) 17 (stub_block 17)
              eq_refl eq_refl eq_refl ltac:(lia)) as (_ & _ & Hok & _ & _).
  destruct (Hok eq_refl) as (E & _). rewrite E. reflexivity.
Defined.

(** ** The rollout engine: calls of the world model and the cache *)

Section Engine.

Context {Emb Hid Logit Image CodeVec Rng : Type}.
Variable categorical_sample : Logit -> Rng -> Col * Rng.
Variable clamp01 : Image -> Image.
Variable world_model : WorldModel Col Emb Hid Logit.
Variable tokenizer : Tokenizer Image CodeVec.

Local Abbreviation cap := (max_tokens (config world_model)).
Local Abbreviation W := (World Emb Rng).

Lemma call_world_model_ok tokens (w : W) kv :
  keys_values_wm (self w) = Some kv ->
  kv_max_tokens kv = cap ->
  kv_size kv + length tokens <= cap ->
  Embedder_in_range (embedder world_model) tokens (length tokens) (kv_size kv) = true ->
  exists x kv',
    length x = length tokens /\
    kv_size kv' = kv_size kv + length tokens /\
    kv_max_tokens kv' = cap /\
    forward world_model tokens (Some kv)
    = Ok (heads_output world_model x (length tokens) (kv_size kv), Some kv') /\
    call_world_model world_model tokens w
    = (Ok (heads_output world_model x (length tokens) (kv_size kv)),
       with_cache w kv' [(tokens, kv_size kv)]) /\
    kv' = {| kv_cache := kv_cache kv ++ embedded world_model tokens (kv_size kv);
             kv_max_tokens := cap |}.
Proof.
  intros Hkv Hmax Hcap Hin.
  destruct (forward_cached world_model tokens kv Hmax Hcap Hin) as [x [Hx E]].
  rewrite Hmax in E.
  eexists x, _. split; [exact Hx|]. split; [|split; [|split; [exact E|split]]].
  - unfold kv_size. simpl. rewrite length_app, embedded_length. reflexivity.
  - reflexivity.
  - unfold call_world_model. rewrite Hkv, E. reflexivity.
  - reflexivity.
Qed.

(** A call feeding a token outside the table of its slot raises and leaves
    the engine as it was. *)
Lemma call_world_model_out_of_table tokens (w : W) kv :
  keys_values_wm (self w) = Some kv ->
  Embedder_in_range (embedder world_model) tokens (length tokens) (kv_size kv) = false ->
  call_world_model world_model tokens w = (Raise IndexError, w).
Proof.
  intros Hkv Hin. unfold call_world_model.
  rewrite Hkv, forward_out_of_table by exact Hin. reflexivity.
Qed.

Lemma call_world_model_overflow tokens (w : W) kv :
  keys_values_wm (self w) = Some kv ->
  tokens <> [] ->
  cap < kv_size kv + length tokens ->
  call_world_model world_model tokens w = (Raise IndexError, w).
Proof.
  intros Hkv Hne Hcap. unfold call_world_model.
  now rewrite Hkv, forward_cached_overflow.
Qed.

(** *** What every computation of the engine keeps *)

Lemma preserves_ret {A} (P : W -> Prop) (a : A) : preserves P (ret a).
Proof. intros w Hw. exact Hw. Qed.

Lemma preserves_raise {A} (P : W -> Prop) e : preserves P (@raise Emb Rng A e).
Proof. intros w Hw. exact Hw. Qed.

Lemma preserves_bind {A B} (P : W -> Prop) (c : M A) (k : A -> M B) :
  preserves P c -> (forall a, preserves P (k a)) -> preserves P (bind c k).
Proof.
  intros Hc Hk w Hw. unfold bind. specialize (Hc w Hw).
  destruct (c w) as [[a|e] w1]; simpl in *.
  - now apply Hk.
  - exact Hc.
Qed.

Lemma preserves_get_self (P : W -> Prop) : preserves P get_self.
Proof. intros w Hw. exact Hw. Qed.

Lemma preserves_massert (P : W -> Prop) b : preserves P (massert b).
Proof. intros w Hw. now destruct b. Qed.

Lemma preserves_for_each {Hid'} (P : W -> Prop) ks
    (body : nat -> StepLocals Hid' -> M (StepLocals Hid')) l :
  (forall k l', preserves P (body k l')) -> preserves P (for_each ks body l).
Proof.
  intros Hb. revert l. induction ks as [|k ks IH]; intros l; simpl.
  - apply preserves_ret.
  - apply preserves_bind; [apply Hb | exact IH].
Qed.

Lemma stable_cache_ok : stable categorical_sample world_model (cache_ok world_model).
Proof.
  split.
  - intros tokens w (kv & Hkv & Hmax & Hsz). unfold call_world_model. rewrite Hkv.
    destruct (forward world_model tokens (Some kv)) as [[out past']|e] eqn:E; simpl.
    + destruct (forward_cached_size world_model tokens kv out past' Hmax Hsz E)
        as (kv' & -> & _ & Hmax' & Hsz').
      exists kv'. now repeat split.
    + exists kv. now repeat split.
  - intros logits w Hw. unfold Categorical_sample.
    destruct (sample_all categorical_sample logits (rng w)). exact Hw.
  - intros t w Hw. exact Hw.
  - intros w _. eexists. split; [reflexivity|]. split; [reflexivity|].
    unfold kv_size. simpl. lia.
Qed.

Lemma stable_has_prefix calls :
  stable categorical_sample world_model (has_prefix calls : W -> Prop).
Proof.
  split.
  - intros tokens w [rest Hw]. unfold call_world_model.
    destruct (forward world_model tokens (keys_values_wm (self w))) as [[out past']|e]; simpl.
    + eexists. rewrite Hw, <- app_assoc. reflexivity.
    + now exists rest.
  - intros logits w Hw. unfold Categorical_sample.
    destruct (sample_all categorical_sample logits (rng w)). exact Hw.
  - intros t w Hw. exact Hw.
  - intros w Hw. exact Hw.
Qed.

(** Every call that completes has found its tokens in the tables. *)
Lemma stable_logged_in_range (w0 : W) :
  stable categorical_sample world_model (logged_in_range world_model w0).
Proof.
  split.
  - intros tokens w (added & Hw & Hin). unfold call_world_model.
    destruct (forward world_model tokens (keys_values_wm (self w))) as [[out past']|e] eqn:E;
      simpl.
    + exists (added ++ [(tokens, match keys_values_wm (self w) with
                                 | Some kv => kv_size kv
                                 | None => 0
                                 end)]).
      split; [now rewrite Hw, app_assoc|].
      apply Forall_app. split; [exact Hin|]. constructor; [|constructor].
      exact (forward_Ok_in_range _ _ _ _ E).
    + now exists added.
  - intros logits w Hw. unfold Categorical_sample.
    destruct (sample_all categorical_sample logits (rng w)). exact Hw.
  - intros t w Hw. exact Hw.
  - intros w Hw. exact Hw.
Qed.

Lemma decode_obs_tokens_state (w : W) :
  snd (decode_obs_tokens clamp01 tokenizer w) = w.
Proof.
  unfold decode_obs_tokens, bind, get_self. simpl.
  destruct (obs_tokens (self w)) as [t|]; [|reflexivity].
  destruct (_num_observations_tokens (self w)); [|reflexivity].
  destruct (rearrange_hw _ _); [|reflexivity].
  now destruct t.
Qed.

Lemma preserves_decode (P : W -> Prop) :
  preserves P (decode_obs_tokens clamp01 tokenizer).
Proof. intros w Hw. now rewrite decode_obs_tokens_state. Qed.

Section Stable.

Variable P : W -> Prop.
Hypothesis HP : stable categorical_sample world_model P.

Lemma stable_refresh t :
  preserves P (refresh_keys_values_with_initial_obs_tokens world_model t).
Proof.
  intros w Hw. unfold refresh_keys_values_with_initial_obs_tokens.
  unfold bind at 1. unfold get_self at 1. cbv beta iota.
  unfold bind at 1.
  destruct (massert _ w) as [[[]|e] w1] eqn:E1.
  - assert (w1 = w) by (unfold massert in E1; destruct (match _ with Some _ => _ | None => _ end);
                        inversion E1; reflexivity).
    subst w1. unfold bind at 1.
    pose proof (stable_allocate _ _ _ HP w Hw) as Hset.
    destruct (set_keys_values_wm _ w) as [[[]|e] w2] eqn:E2; simpl in Hset.
    + apply (preserves_bind P _ _ (stable_call _ _ _ HP t)
               (fun o => preserves_ret _ _) w2 Hset).
    + exact Hset.
  - unfold massert in E1. destruct (match _ with Some _ => _ | None => _ end);
      inversion E1; subst; exact Hw.
Qed.

Lemma stable_step_pass N k l :
  preserves P (step_pass categorical_sample world_model N k l).
Proof.
  unfold step_pass.
  apply preserves_bind; [apply (stable_call _ _ _ HP) | intros out].
  apply preserves_bind.
  - destruct (k =? 0); [|apply preserves_ret].
    apply preserves_bind; [apply (stable_sample _ _ _ HP) | intros r].
    apply preserves_bind; [apply (stable_sample _ _ _ HP) | intros d].
    apply preserves_ret.
  - intros rd. destruct (k <? N); [|apply preserves_ret].
    destruct (k =? N - 1); [apply preserves_ret|].
    apply preserves_bind; [apply (stable_sample _ _ _ HP) | intros tk]. apply preserves_ret.
Qed.

Lemma stable_step_return flag (l : StepLocals Hid) :
  preserves P (step_return clamp01 tokenizer flag l).
Proof.
  unfold step_return.
  destruct (torch_cat_dim1 (l_output_sequence l)); [|apply preserves_raise].
  destruct (torch_cat_dim1 (l_obs_tokens l)); [|apply preserves_raise].
  apply preserves_bind; [apply (stable_set_obs_tokens _ _ _ HP) | intros _].
  apply preserves_bind.
  - destruct flag; [|apply preserves_ret].
    apply preserves_bind; [apply preserves_decode | intros; apply preserves_ret].
  - intros obs. destruct (l_reward l); [|apply preserves_raise].
    destruct (l_done l); [apply preserves_ret | apply preserves_raise].
Qed.

(** Any run of passes followed by the return. *)
Lemma stable_passes N flag ks l :
  preserves P (bind (for_each ks (step_pass categorical_sample world_model N) l)
                    (step_return clamp01 tokenizer flag)).
Proof.
  apply preserves_bind.
  - apply preserves_for_each. intros k l'. apply stable_step_pass.
  - intros l'. apply stable_step_return.
Qed.

Lemma stable_step_body N action flag :
  preserves P (step_body categorical_sample clamp01 world_model tokenizer N action flag).
Proof. unfold step_body. apply stable_passes. Qed.

Lemma stable_step action flag :
  preserves P (step categorical_sample clamp01 world_model tokenizer action flag).
Proof.
  unfold step. apply preserves_bind; [apply preserves_get_self | intros e].
  destruct (keys_values_wm e) as [kv|]; [|apply preserves_raise].
  destruct (_num_observations_tokens e) as [N|]; [|apply preserves_raise].
  apply preserves_bind.
  - destruct (_ <? _); [|apply preserves_ret].
    destruct (obs_tokens e); [|apply preserves_raise].
    apply preserves_bind; [apply stable_refresh | intros; apply preserves_ret].
  - intros _. apply (stable_step_body N action flag).
Qed.

End Stable.

End Engine.

(** ** The rollout engine: the passes of a step *)

Lemma zeros_like_all_zero t : all_zero (zeros_like t).
Proof.
  unfold all_zero, zeros_like. apply Forall_map, Forall_forall. intros c _.
  apply Forall_map, Forall_forall. reflexivity.
Qed.

Lemma zeros_like_length t : length (zeros_like t) = length t.
Proof. unfold zeros_like. apply length_map. Qed.

Lemma last_snoc {A} (l : list A) a d : last (l ++ [a]) d = a.
Proof. apply last_last. Qed.

Lemma last_cons_default {A} (a0 : A) l d : last (a0 :: l) d = last l a0.
Proof.
  revert a0 d. induction l as [|a l IH]; intros a0 d; [reflexivity|].
  change (last (a0 :: a :: l) d) with (last (a :: l) d).
  now rewrite (IH a d), (IH a a0).
Qed.

Lemma firstn_succ_last {A} (l : list A) k d :
  length l = S k -> firstn (S k) l = firstn k l ++ [last l d].
Proof.
  revert k. induction l as [|a l IH]; intros k Hk; [discriminate|].
  destruct l as [|b l].
  - simpl in Hk. injection Hk as <-. reflexivity.
  - destruct k as [|k]; [discriminate|].
    change (firstn (S (S k)) (a :: b :: l)) with (a :: firstn (S k) (b :: l)).
    rewrite (IH k) by (simpl in *; lia). reflexivity.
Qed.

Lemma firstn_snoc_len {A} (l : list A) x k :
  length l = S k -> firstn (S k) (l ++ [x]) = firstn (S k) l.
Proof.
  intros Hk. rewrite firstn_app, Hk, Nat.sub_diag. apply app_nil_r.
Qed.

(** The log of the passes grows by the token just fed. *)
Lemma calls_step {A} (l : list A) k s d :
  length l = S k ->
  map2 pair (firstn (S k) l) (seq s (S k))
  = map2 pair (firstn k l) (seq s k) ++ [(last l d, s + k)].
Proof.
  intros Hk. rewrite (firstn_succ_last l k d Hk), seq_S.
  rewrite map2_app by (rewrite length_firstn, length_seq; lia). reflexivity.
Qed.

Section Passes.

Context {Emb Hid Logit Rng : Type}.
Variable categorical_sample : Logit -> Rng -> Col * Rng.
Variable world_model : WorldModel Col Emb Hid Logit.

Local Abbreviation cap := (max_tokens (config world_model)).
Local Abbreviation W := (World Emb Rng).

Lemma sample_all_length logits g :
  length (fst (sample_all categorical_sample logits g)) = length logits.
Proof.
  revert g. induction logits as [|l ls IH]; intros g; simpl; [reflexivity|].
  destruct (categorical_sample l g) as [c g1].
  specialize (IH g1). destruct (sample_all categorical_sample ls g1). simpl in *.
  now rewrite IH.
Qed.

(** The rebuild up to the call of the world model. *)
Lemma refresh_unfold (w : W) N t :
  _num_observations_tokens (self w) = Some N ->
  length t = N ->
  refresh_keys_values_with_initial_obs_tokens world_model t w
  = bind (call_world_model world_model t) (fun o => ret (output_sequence o))
      (snd (set_keys_values_wm (Some (generate_empty_keys_values cap)) w)).
Proof.
  intros HN Ht. unfold refresh_keys_values_with_initial_obs_tokens.
  unfold bind at 1. unfold get_self at 1. cbv beta iota.
  rewrite HN, Ht, Nat.eqb_refl. unfold bind at 1. unfold massert, ret at 1. cbv beta iota.
  unfold bind at 1. reflexivity.
Qed.

(** A stored block with a token outside the table of its slot cannot be fed
    again: the rebuild raises. *)
Lemma refresh_out_of_table (w : W) N t :
  _num_observations_tokens (self w) = Some N ->
  length t = N ->
  Embedder_in_range (embedder world_model) t (length t) 0 = false ->
  fst (refresh_keys_values_with_initial_obs_tokens world_model t w) = Raise IndexError.
Proof.
  intros HN Ht Hin. rewrite (refresh_unfold w N t HN Ht). unfold bind.
  rewrite (call_world_model_out_of_table world_model t _ (generate_empty_keys_values cap));
    [reflexivity | reflexivity | exact Hin].
Qed.

Lemma refresh_ok (w : W) N t :
  _num_observations_tokens (self w) = Some N ->
  length t = N -> N <= cap ->
  Embedder_in_range (embedder world_model) t (length t) 0 = true ->
  exists x kv',
    kv_size kv' = N /\ kv_max_tokens kv' = cap /\
    refresh_keys_values_with_initial_obs_tokens world_model t w
    = (Ok x, with_cache w kv' [(t, 0)]) /\
    kv' = {| kv_cache := embedded world_model t 0; kv_max_tokens := cap |}.
Proof.
  intros HN Ht Hcap Hin. unfold refresh_keys_values_with_initial_obs_tokens.
  unfold bind at 1. unfold get_self at 1. cbv beta iota.
  rewrite HN, Ht, Nat.eqb_refl. unfold bind at 1. unfold massert, ret at 1. cbv beta iota.
  unfold bind at 1.
  set (w1 := snd (set_keys_values_wm (Some (generate_empty_keys_values cap)) w)).
  change (set_keys_values_wm (Some (generate_empty_keys_values cap)) w) with (Ok tt, w1).
  cbv beta iota.
  destruct (call_world_model_ok world_model t w1 (generate_empty_keys_values cap))
    as (x & kv' & Hx & Hsz & Hmax & _ & E & Ekv).
  - reflexivity.
  - reflexivity.
  - unfold kv_size. simpl. lia.
  - exact Hin.
  - unfold bind. rewrite E. unfold ret. eexists _, kv'.
    split; [|split; [exact Hmax | split; [reflexivity | exact Ekv]]].
    rewrite Hsz. unfold kv_size. simpl. exact Ht.
Qed.

(** One pass of the loop of [step] on a cache with room for one more token. *)
Lemma step_pass_run N k l (w : W) kv :
  keys_values_wm (self w) = Some kv ->
  kv_max_tokens kv = cap ->
  kv_size kv + 1 <= cap ->
  length (l_token l) = 1 ->
  Embedder_in_range (embedder world_model) (l_token l) (length (l_token l)) (kv_size kv)
  = true ->
  exists out kv' l' w',
    forward world_model (l_token l) (Some kv) = Ok (out, Some kv') /\
    (exists x, length x = 1 /\ out = heads_output world_model x 1 (kv_size kv)) /\
    kv_size kv' = kv_size kv + 1 /\ kv_max_tokens kv' = cap /\
    step_pass categorical_sample world_model N k l w = (Ok l', w') /\
    keys_values_wm (self w') = Some kv' /\
    obs_tokens (self w') = obs_tokens (self w) /\
    _num_observations_tokens (self w') = _num_observations_tokens (self w) /\
    forward_calls w' = forward_calls w ++ [(l_token l, kv_size kv)] /\
    length (l_output_sequence l') = S (length (l_output_sequence l)) /\
    (k = 0 -> l_reward l' = Some (pass0_reward categorical_sample out (rng w)) /\
              l_done l' = Some (pass0_done categorical_sample out (rng w))) /\
    (k <> 0 -> l_reward l' = l_reward l /\ l_done l' = l_done l) /\
    (k < N -> k = N - 1 ->
       l_token l' = zeros_like (l_token l) /\
       l_obs_tokens l' = l_obs_tokens l ++ [zeros_like (l_token l)]) /\
    (k < N -> k <> N - 1 ->
       length (l_token l') = length (logits_observations out) /\
       l_obs_tokens l' = l_obs_tokens l ++ [l_token l']) /\
    (N <= k -> l_token l' = l_token l /\ l_obs_tokens l' = l_obs_tokens l) /\
    (k = 0 -> 2 <= N -> l_token l' = pass0_token categorical_sample out (rng w)) /\
    (k < N -> k <> N - 1 ->
       exists g, l_token l'
                 = fst (sample_all categorical_sample (logits_observations out) g)).
Proof.
  intros Hkv Hmax Hcap Htok Hin.
  destruct (call_world_model_ok world_model (l_token l) w kv Hkv Hmax)
    as (x & kv' & Hx & Hsz & Hmax' & Hf & Hcall & _); [lia | exact Hin |].
  clear Hin. rewrite Htok in *.
  set (out := heads_output world_model x 1 (kv_size kv)) in *.
  exists out, kv'.
  unfold step_pass. unfold bind at 1. rewrite Hcall. cbv beta iota.
  unfold bind at 1.
  destruct (Nat.eqb_spec k 0) as [Ek|Ek];
    destruct (Nat.ltb_spec k N) as [HkN|HkN];
    try destruct (Nat.eqb_spec k (N - 1)) as [Ek1|Ek1];
    unfold bind, Categorical_sample, ret, pass0_reward, pass0_done, pass0_token; simpl;
    repeat match goal with
           | |- context [sample_all categorical_sample ?ls ?g] =>
               let c := fresh "c" in let g' := fresh "g" in let E := fresh "E" in
               destruct (sample_all categorical_sample ls g) as [c g'] eqn:E; simpl
           end;
    eexists _, _;
    (split; [exact Hf|]);
    (split; [exists x; split; [exact Hx | reflexivity]|]);
    (split; [exact Hsz|]); (split; [exact Hmax'|]);
    (split; [reflexivity|]); simpl;
    repeat split; intros; try reflexivity; try lia; try contradiction;
    try (rewrite length_app; simpl; lia);
    try (match goal with
         | E : sample_all _ ?ls ?g = (?c, _) |- length ?c = _ =>
             let H := fresh in
             pose proof (sample_all_length ls g) as H; rewrite E in H; exact H
         end);
    try (match goal with
         | E : sample_all _ ?ls ?g = (?c, _) |- exists g', ?c = _ =>
             exists g; rewrite E; reflexivity
         end).
Qed.

Lemma Forall_last {A} (P : A -> Prop) (a0 : A) l :
  Forall P (a0 :: l) -> P (last l a0).
Proof.
  revert a0. induction l as [|a l IH]; intros a0 H.
  - now inversion H.
  - rewrite (last_cons_default a l a0). apply IH. now inversion H.
Qed.

(** One pass of a step, from the state before pass [k] to the state before
    pass [k + 1], when the token fed is a row of the table of its slot. *)
Lemma pass_step N s0 token0 calls0 e0 kv0 g0 out0 kv1 k l (w : W) :
  forward world_model token0 (Some kv0) = Ok (out0, kv1) ->
  s0 + k + 1 <= cap -> k <= N ->
  (k + 1 < N -> forall x : list Hid, length x = 1 ->
     length (logits_observations (heads_output world_model x 1 (s0 + k))) = 1) ->
  pass_invariant world_model N s0 token0 calls0 e0 kv0 g0
    (pass0_reward categorical_sample out0 g0) (pass0_done categorical_sample out0 g0)
    (pass0_token categorical_sample out0 g0) k l w ->
  Embedder_in_range (embedder world_model) (l_token l) (length (l_token l)) (s0 + k) = true ->
  exists l' w',
    step_pass categorical_sample world_model N k l w = (Ok l', w') /\
    pass_invariant world_model N s0 token0 calls0 e0 kv0 g0
      (pass0_reward categorical_sample out0 g0) (pass0_done categorical_sample out0 g0)
      (pass0_token categorical_sample out0 g0) (S k) l' w' /\
    (k + 1 < N ->
       exists (x : list Hid) g,
         length x = 1 /\
         l_token l' = fst (sample_all categorical_sample
                             (logits_observations (heads_output world_model x 1 (s0 + k))) g)) /\
    (k + 1 = N -> l_token l' = zeros_like (l_token l)).
Proof.
  intros Hout0 Hcap HkN' Hemit Hinv Hin.
  destruct Hinv as ((kv & Hkv & Hmax & Hsz) & Hobs & Hnum & Hcalls & Hos & Hacc & Hw1
                    & Htok & Hzero & Hfirst & Hrd & Ht0).
  assert (Htok1 : length (l_token l) = 1) by (rewrite Htok; now apply Forall_last).
  rewrite <- Hsz in Hin.
  destruct (step_pass_run N k l w kv Hkv Hmax ltac:(lia) Htok1 Hin)
    as (out & kv' & l' & w' & Hf & (x & Hx & Eout) & Hsz' & Hmax' & Hrun & Hkv' & Hobs'
        & Hnum' & Hcalls' & Hos' & Hr0 & Hrk & Hlast & Hsample & Hdone & Hp0 & Hdrawn).
  exists l', w'. split; [exact Hrun|].
  split; [|split].
  2:{ intros Hk1. destruct (Hdrawn ltac:(lia) ltac:(lia)) as [g Eg].
      exists x, g. split; [exact Hx|]. rewrite Eg, Eout, Hsz. reflexivity. }
  2:{ intros Hk1. apply (Hlast ltac:(lia) ltac:(lia)). }
  assert (Hemit' : forall (k' : nat) (x : list Hid), k' = k -> k' + 1 < N -> length x = 1 ->
            length (logits_observations (heads_output world_model x 1 (s0 + k'))) = 1)
    by (intros k' x' -> Hk1 Hx'; now apply Hemit).
  clear Hemit. rename Hemit' into Hemit.
  assert (Hlen : length (token0 :: l_obs_tokens l) = S k -> 
               forward_calls w'
               = calls0 ++ map2 pair (firstn (S k) (token0 :: l_obs_tokens l))
                                     (seq s0 (S k))).
{ intros HL. rewrite Hcalls', Hcalls, (calls_step _ k s0 token0 HL), app_assoc.
  rewrite last_cons_default, <- Htok, Hsz. reflexivity. }
destruct (Nat.lt_ge_cases k N) as [HkN|HkN].
+ (* a token is appended *)
  assert (Hacc_k : length (l_obs_tokens l) = k) by lia.
  assert (Hnew : l_obs_tokens l' = l_obs_tokens l ++ [l_token l']
                 /\ length (l_token l') = 1
                 /\ (k = N - 1 -> all_zero (l_token l'))).
  { destruct (Nat.eq_dec k (N - 1)) as [E|E].
    - destruct (Hlast HkN E) as [E1 E2]. rewrite E1, E2, zeros_like_length.
      repeat split; [exact Htok1 | intros _; apply zeros_like_all_zero].
    - destruct (Hsample HkN E) as [E1 E2]. repeat split; [exact E2 | | lia].
      rewrite E1, Eout, Hsz. apply Hemit; [reflexivity | lia | exact Hx]. }
  destruct Hnew as (Eacc & Hnew1 & Hnewz).
  split; [exists kv'; repeat split; [exact Hkv' | exact Hmax' | lia]|].
  split; [congruence|]. split; [congruence|].
  split.
  { rewrite Eacc. change (token0 :: l_obs_tokens l ++ [l_token l'])
      with ((token0 :: l_obs_tokens l) ++ [l_token l']).
    rewrite firstn_snoc_len by (simpl; lia). apply Hlen. simpl. lia. }
  split; [lia|].
  split; [rewrite Eacc, length_app; cbn [length]; lia|].
  split.
  { rewrite Eacc. change (token0 :: l_obs_tokens l ++ [l_token l'])
      with ((token0 :: l_obs_tokens l) ++ [l_token l']).
    apply Forall_app. split; [exact Hw1 | now constructor]. }
  split; [rewrite Eacc; symmetry; apply last_last|].
  split; [intros HN; rewrite Eacc, last_last; apply Hnewz; lia|].
  split; [intros; lia|].
  destruct (Nat.eq_dec k 0) as [E0|E0].
  * destruct (Hfirst E0) as [Eg Ekv0]. destruct (Hr0 E0) as [Er Ed].
    assert (Et : l_token l = token0).
    { rewrite Htok. destruct (l_obs_tokens l); [reflexivity | simpl in Hacc_k; lia]. }
    rewrite Ekv0 in Hkv. injection Hkv as <-.
    rewrite Et, Hout0 in Hf. injection Hf as <- _.
    split; [intros _; rewrite Er, Ed, Eg; split; reflexivity|].
    intros _ HN2. rewrite Eacc, (Hp0 E0 HN2), Eg.
    destruct (l_obs_tokens l); [reflexivity | simpl in Hacc_k; lia].
  * split.
    -- intros _. destruct (Hrk E0) as [Er Ed]. rewrite Er, Ed. apply Hrd. lia.
    -- intros _ HN2. rewrite Eacc, <- (Ht0 ltac:(lia) HN2).
       destruct (l_obs_tokens l); [simpl in Hacc_k; lia | reflexivity].
+ (* the final pass: nothing is appended *)
  destruct (Hdone HkN) as [Et Eacc].
  assert (EkN : k = N) by lia.
  split; [exists kv'; repeat split; [exact Hkv' | exact Hmax' | lia]|].
  split; [congruence|]. split; [congruence|].
  split; [rewrite Eacc; apply Hlen; simpl; lia|].
  split; [lia|].
  split; [rewrite Eacc; lia|].
  split; [rewrite Eacc; exact Hw1|].
  split; [rewrite Et, Eacc; exact Htok|].
  split; [intros HN; rewrite Eacc; apply Hzero; lia|].
  split; [intros; lia|].
  destruct (Nat.eq_dec k 0) as [E0|E0].
  * destruct (Hfirst E0) as [Eg Ekv0]. destruct (Hr0 E0) as [Er Ed].
    assert (Et0 : l_token l = token0).
    { rewrite Htok. destruct (l_obs_tokens l); [reflexivity | simpl in Hacc; lia]. }
    rewrite Ekv0 in Hkv. injection Hkv as <-.
    rewrite Et0, Hout0 in Hf. injection Hf as <- _.
    split; [intros _; rewrite Er, Ed, Eg; split; reflexivity | intros; lia].
  * split.
    -- intros _. destruct (Hrk E0) as [Er Ed]. rewrite Er, Ed. apply Hrd. lia.
    -- intros _ HN2. rewrite Eacc. apply Ht0; [lia | exact HN2].
Qed.

(** A pass feeding a token outside the table of its slot raises and leaves
    the engine as it was. *)
Lemma step_pass_out_of_table N k l (w : W) kv :
  keys_values_wm (self w) = Some kv ->
  Embedder_in_range (embedder world_model) (l_token l) (length (l_token l)) (kv_size kv)
  = false ->
  step_pass categorical_sample world_model N k l w = (Raise IndexError, w).
Proof.
  intros Hkv Hin. unfold step_pass. unfold bind at 1.
  now rewrite (call_world_model_out_of_table world_model (l_token l) w kv Hkv Hin).
Qed.

(** The passes [k, k + j) of a step whose [P] passes fit the cache, when the
    observation head emits one row of logits wherever a token is sampled, and
    the tokens fed are rows of the tables of their slots: the tokens drawn
    from the observation logits, and the placeholder of the final pass. *)
Lemma passes_run N s0 token0 calls0 e0 kv0 g0 out0 kv1 P :
  forward world_model token0 (Some kv0) = Ok (out0, kv1) ->
  s0 + P <= cap -> P <= 1 + N ->
  (forall k (x : list Hid), k < P -> k + 1 < N -> length x = 1 ->
     length (logits_observations (heads_output world_model x 1 (s0 + k))) = 1) ->
  (forall k (x : list Hid) g, k + 1 < P -> k + 1 < N -> length x = 1 ->
     Embedder_in_range (embedder world_model)
       (fst (sample_all categorical_sample
               (logits_observations (heads_output world_model x 1 (s0 + k))) g))
       1 (s0 + k + 1) = true) ->
  (forall tok, N < P -> length tok = 1 ->
     Embedder_in_range (embedder world_model) (zeros_like tok) 1 (s0 + N) = true) ->
  forall j k l (w : W),
    k + j = P ->
    pass_invariant world_model N s0 token0 calls0 e0 kv0 g0
      (pass0_reward categorical_sample out0 g0) (pass0_done categorical_sample out0 g0)
      (pass0_token categorical_sample out0 g0) k l w ->
    (1 <= j ->
     Embedder_in_range (embedder world_model) (l_token l) (length (l_token l)) (s0 + k)
     = true) ->
    exists l' w',
      for_each (seq k j) (step_pass categorical_sample world_model N) l w = (Ok l', w') /\
      pass_invariant world_model N s0 token0 calls0 e0 kv0 g0
        (pass0_reward categorical_sample out0 g0) (pass0_done categorical_sample out0 g0)
        (pass0_token categorical_sample out0 g0) (k + j) l' w'.
Proof.
  intros Hout0 Hcap HP Hemit Hdrawn Hzero. induction j as [|j IH]; intros k l w Hk Hinv Hin.
  - exists l, w. rewrite Nat.add_0_r. split; [reflexivity | exact Hinv].
  - assert (Htok1 : length (l_token l) = 1).
    { destruct Hinv as (_ & _ & _ & _ & _ & _ & Hw1 & Htok & _).
      rewrite Htok. now apply Forall_last. }
    destruct (pass_step N s0 token0 calls0 e0 kv0 g0 out0 kv1 k l w Hout0
                ltac:(lia) ltac:(lia)
                (fun Hk1 x Hx => Hemit k x ltac:(lia) Hk1 Hx) Hinv (Hin ltac:(lia)))
      as (l' & w' & Hrun & Hinv' & Hsampled & Hplace).
    cbn [seq for_each]. unfold bind at 1. rewrite Hrun. cbv beta iota.
    replace (k + S j) with (S k + j) by lia.
    apply IH; [lia | exact Hinv' |].
    intros Hj.
    assert (Hlen' : length (l_token l') = 1).
    { destruct Hinv' as (_ & _ & _ & _ & _ & _ & Hw1 & Htok & _).
      rewrite Htok. now apply Forall_last. }
    rewrite Hlen'. replace (s0 + S k) with (s0 + k + 1) by lia.
    destruct (Nat.eq_dec (k + 1) N) as [E|E].
    + rewrite (Hplace E). replace (s0 + k + 1) with (s0 + N) by lia.
      apply Hzero; [lia | exact Htok1].
    + destruct (Hsampled ltac:(lia)) as (x & g & Hx & ->).
      apply Hdrawn; [lia | lia | exact Hx].
Qed.

(** The same passes without any assumption on the tokens fed: a pass that
    looks up a token outside its table raises an IndexError. *)
Lemma passes_run_or_raise N s0 token0 calls0 e0 kv0 g0 out0 kv1 P :
  forward world_model token0 (Some kv0) = Ok (out0, kv1) ->
  s0 + P <= cap -> P <= 1 + N ->
  (forall k (x : list Hid), k < P -> k + 1 < N -> length x = 1 ->
     length (logits_observations (heads_output world_model x 1 (s0 + k))) = 1) ->
  forall j k l (w : W),
    k + j = P ->
    pass_invariant world_model N s0 token0 calls0 e0 kv0 g0
      (pass0_reward categorical_sample out0 g0) (pass0_done categorical_sample out0 g0)
      (pass0_token categorical_sample out0 g0) k l w ->
    fst (for_each (seq k j) (step_pass categorical_sample world_model N) l w)
    = Raise IndexError \/
    exists l' w',
      for_each (seq k j) (step_pass categorical_sample world_model N) l w = (Ok l', w') /\
      pass_invariant world_model N s0 token0 calls0 e0 kv0 g0
        (pass0_reward categorical_sample out0 g0) (pass0_done categorical_sample out0 g0)
        (pass0_token categorical_sample out0 g0) (k + j) l' w'.
Proof.
  intros Hout0 Hcap HP Hemit. induction j as [|j IH]; intros k l w Hk Hinv.
  - right. exists l, w. rewrite Nat.add_0_r. split; [reflexivity | exact Hinv].
  - destruct (Embedder_in_range (embedder world_model) (l_token l) (length (l_token l))
                (s0 + k)) eqn:Hin.
    + destruct (pass_step N s0 token0 calls0 e0 kv0 g0 out0 kv1 k l w Hout0
                  ltac:(lia) ltac:(lia)
                  (fun Hk1 x Hx => Hemit k x ltac:(lia) Hk1 Hx) Hinv Hin)
        as (l' & w' & Hrun & Hinv' & _).
      assert (E : for_each (seq k (S j)) (step_pass categorical_sample world_model N) l w
                  = for_each (seq (S k) j) (step_pass categorical_sample world_model N) l' w')
        by (cbn [seq for_each]; unfold bind; now rewrite Hrun).
      rewrite E. replace (k + S j) with (S k + j) by lia.
      apply IH; [lia | exact Hinv'].
    + left. destruct Hinv as ((kv & Hkv & _ & Hsz) & _).
      rewrite <- Hsz in Hin.
      cbn [seq for_each]. unfold bind.
      now rewrite (step_pass_out_of_table N k l w kv Hkv Hin).
Qed.

End Passes.

(** ** The rollout engine: reset *)

Section Reset.

Context {Emb Hid Logit Image CodeVec Rng : Type}.
Variable clamp01 : Image -> Image.
Variable world_model : WorldModel Col Emb Hid Logit.
Variable tokenizer : Tokenizer Image CodeVec.

Local Abbreviation cap := (max_tokens (config world_model)).
Local Abbreviation W := (World Emb Rng).

(** The state a reset leaves behind on an engine whose block length is unset
    or equal to that of the encoded block, when the block fits the cache: the
    block is stored, and was fed in one call to an empty cache.  The final
    decoding changes nothing of it, whether it returns or raises. *)
Lemma reset_from_initial_observations_state (w : W) obs_img obs_tok :
  let t := tokenizer_encode_tokens tokenizer obs_img ++ obs_tok in
  (_num_observations_tokens (self w) = None \/
   _num_observations_tokens (self w) = Some (length t)) ->
  length t <= cap ->
  Embedder_in_range (embedder world_model) t (length t) 0 = true ->
  let w' := snd (reset_from_initial_observations clamp01 world_model tokenizer
                   obs_img obs_tok w) in
  initialized world_model w' (length t) /\
  cache_size w' = length t /\
  obs_tokens (self w') = Some t /\
  forward_calls w' = forward_calls w ++ [(t, 0)].
Proof.
  intros t Hnum Hcap Hin w'.
  assert (Hw : exists w0 kv',
             _num_observations_tokens (self w0) = Some (length t) /\
             forward_calls w0 = forward_calls w /\
             kv_size kv' = length t /\ kv_max_tokens kv' = cap /\
             w' = snd (set_obs_tokens (Some t) (with_cache w0 kv' [(t, 0)]))).
  { subst w'. unfold reset_from_initial_observations.
    fold t. unfold bind at 1. unfold get_self at 1. cbv beta iota.
    unfold bind at 1.
    set (pre := match _num_observations_tokens (self w) with
                | Some _ => ret tt
                | None => set_num_observations_tokens (Some (length t))
                end).
    assert (Hpre : exists w0, pre w = (Ok tt, w0) /\
                     _num_observations_tokens (self w0) = Some (length t) /\
                     forward_calls w0 = forward_calls w).
    { subst pre. destruct Hnum as [E | E]; rewrite E.
      - eexists. split; [reflexivity|]. split; reflexivity.
      - exists w. split; [reflexivity|]. split; [exact E | reflexivity]. }
    destruct Hpre as (w0 & -> & HN0 & Hc0). cbv beta iota.
    destruct (refresh_ok world_model w0 (length t) t HN0 eq_refl Hcap Hin)
      as (x & kv' & Hsz & Hmax & E & _).
    unfold bind at 1. rewrite E. cbv beta iota.
    unfold bind at 1.
    set (w2 := snd (set_obs_tokens (Some t) (with_cache w0 kv' [(t, 0)]))).
    change (set_obs_tokens (Some t) (with_cache w0 kv' [(t, 0)])) with (Ok tt, w2).
    cbv beta iota. rewrite decode_obs_tokens_state.
    exists w0, kv'. split; [exact HN0|]. split; [exact Hc0|].
    split; [exact Hsz|]. split; [exact Hmax | reflexivity]. }
  destruct Hw as (w0 & kv' & HN0 & Hc0 & Hsz & Hmax & Ew).
  clearbody w'. subst w'.
  split; [split; [|split; [|split]]|split; [|split]].
  - exists kv'. split; [reflexivity|]. split; [exact Hmax | lia].
  - exact Hcap.
  - exact HN0.
  - exists t. split; reflexivity.
  - unfold cache_size. simpl. exact Hsz.
  - reflexivity.
  - simpl. now rewrite Hc0.
Qed.

(** After a reset the engine is ready for a step as soon as the block of the
    world model is the stored block plus one action token. *)
Lemma reset_from_initial_observations_ready (w : W) obs_img obs_tok :
  let t := tokenizer_encode_tokens tokenizer obs_img ++ obs_tok in
  (_num_observations_tokens (self w) = None \/
   _num_observations_tokens (self w) = Some (length t)) ->
  length t <= cap ->
  Embedder_in_range (embedder world_model) t (length t) 0 = true ->
  tokens_per_block (config world_model) = length t + 1 ->
  ready world_model
    (snd (reset_from_initial_observations clamp01 world_model tokenizer obs_img obs_tok w))
    (length t).
Proof.
  intros t Hnum Hcap Hin Hblock.
  destruct (reset_from_initial_observations_state w obs_img obs_tok Hnum Hcap Hin)
    as (Hi & Hsz & _ & _).
  split; [exact Hi|]. split; [exact Hblock|].
  fold t in Hsz. rewrite Hsz. apply Nat.mod_small. lia.
Qed.

(** A block longer than the cache cannot be fed: the reset raises. *)
Lemma reset_from_initial_observations_overflow (w : W) obs_img obs_tok :
  let t := tokenizer_encode_tokens tokenizer obs_img ++ obs_tok in
  _num_observations_tokens (self w) = None ->
  cap < length t ->
  fst (reset_from_initial_observations clamp01 world_model tokenizer obs_img obs_tok w)
  = Raise IndexError.
Proof.
  intros t Hnum Hcap. unfold reset_from_initial_observations.
  fold t. unfold bind at 1. unfold get_self at 1. cbv beta iota.
  rewrite Hnum. unfold bind at 1.
  set (w0 := snd (set_num_observations_tokens (Some (length t)) w)).
  change (set_num_observations_tokens (Some (length t)) w) with (Ok tt, w0).
  cbv beta iota. unfold bind at 1.
  unfold refresh_keys_values_with_initial_obs_tokens.
  unfold bind at 1. unfold get_self at 1. cbv beta iota.
  change (_num_observations_tokens (self w0)) with (Some (length t)).
  cbv beta iota. rewrite Nat.eqb_refl. unfold bind at 1. unfold massert, ret at 1. cbv beta iota.
  unfold bind at 1.
  set (w1 := snd (set_keys_values_wm (Some (generate_empty_keys_values cap)) w0)).
  change (set_keys_values_wm (Some (generate_empty_keys_values cap)) w0) with (Ok tt, w1).
  cbv beta iota.
  unfold bind at 1.
  rewrite (call_world_model_overflow world_model t w1 (generate_empty_keys_values cap)).
  - reflexivity.
  - reflexivity.
  - intros E. rewrite E in Hcap. simpl in Hcap. lia.
  - unfold kv_size. simpl. lia.
Qed.

End Reset.

(** ** The rollout engine: a step *)

Section Step.

Context {Emb Hid Logit Image CodeVec Rng : Type}.
Variable categorical_sample : Logit -> Rng -> Col * Rng.
Variable clamp01 : Image -> Image.
Variable world_model : WorldModel Col Emb Hid Logit.
Variable tokenizer : Tokenizer Image CodeVec.

Local Abbreviation cap := (max_tokens (config world_model)).
Local Abbreviation W := (World Emb Rng).

Lemma step_unfold action flag (w : W) kv N :
  keys_values_wm (self w) = Some kv ->
  _num_observations_tokens (self w) = Some N ->
  step categorical_sample clamp01 world_model tokenizer action flag w
  = bind (if cap <? kv_size kv + (if flag then 1 + N else 1)
          then match obs_tokens (self w) with
               | Some t =>
                   bind (refresh_keys_values_with_initial_obs_tokens world_model t)
                        (fun _ => @ret Emb Rng unit tt)
               | None => @raise Emb Rng unit AttributeError
               end
          else @ret Emb Rng unit tt)
         (fun _ => step_body categorical_sample clamp01 world_model tokenizer
                     N action flag) w.
Proof.
  intros Hkv HN. unfold step. unfold bind at 1. unfold get_self at 1.
  cbv beta iota. rewrite Hkv, HN. reflexivity.
Qed.

Lemma step_body_run N action (flag : bool) (w1 : W) kv0 out0 kv1 :
  let P := if flag then 1 + N else 1 in
  keys_values_wm (self w1) = Some kv0 ->
  kv_max_tokens kv0 = cap ->
  forward world_model [action] (Some kv0) = Ok (out0, kv1) ->
  kv_size kv0 + P <= cap -> 1 <= N ->
  (forall k (x : list Hid), k < P -> k + 1 < N -> length x = 1 ->
     length (logits_observations (heads_output world_model x 1 (kv_size kv0 + k))) = 1) ->
  (forall k (x : list Hid) g, k + 1 < P -> k + 1 < N -> length x = 1 ->
     Embedder_in_range (embedder world_model)
       (fst (sample_all categorical_sample
               (logits_observations (heads_output world_model x 1 (kv_size kv0 + k))) g))
       1 (kv_size kv0 + k + 1) = true) ->
  (forall tok, N < P -> length tok = 1 ->
     Embedder_in_range (embedder world_model) (zeros_like tok) 1 (kv_size kv0 + N) = true) ->
  exists acc kvP gP,
    let w' := after_step w1 kvP (concat acc) gP
                (map2 pair (firstn P ([action] :: acc)) (seq (kv_size kv0) P)) in
    kv_size kvP = kv_size kv0 + P /\ kv_max_tokens kvP = cap /\
    length acc = Nat.min P N /\
    Forall (fun t => length t = 1) acc /\
    (N <= P -> all_zero (last acc [action])) /\
    (2 <= N -> hd [] acc = pass0_token categorical_sample out0 (rng w1)) /\
    step_body categorical_sample clamp01 world_model tokenizer N action flag w1
    = (if flag
       then match fst (decode_obs_tokens clamp01 tokenizer w') with
            | Ok o => Ok {| r_obs := Some o;
                            r_reward := pass0_reward categorical_sample out0 (rng w1);
                            r_done := pass0_done categorical_sample out0 (rng w1) |}
            | Raise e => Raise e
            end
       else Ok {| r_obs := None;
                  r_reward := pass0_reward categorical_sample out0 (rng w1);
                  r_done := pass0_done categorical_sample out0 (rng w1) |},
       w').
Proof.
  intros P Hkv Hmax Hout0 Hcap HN Hemit Hdrawn Hplace.
  assert (HP1 : 1 <= P) by (subst P; destruct flag; lia).
  assert (HPN : P <= 1 + N) by (subst P; destruct flag; lia).
  destruct (passes_run categorical_sample world_model N (kv_size kv0) [action]
              (forward_calls w1) (self w1) kv0 (rng w1) out0 kv1 P Hout0 Hcap HPN Hemit
              Hdrawn Hplace
              P 0 {| l_token := [action]; l_output_sequence := []; l_obs_tokens := [];
                     l_reward := None; l_done := None |} w1 eq_refl)
    as (l' & wP & Hrun & Hinv).
  { split; [exists kv0; repeat split; [exact Hkv | exact Hmax | lia]|].
    simpl. rewrite app_nil_r.
    repeat split; try reflexivity; try lia; try (intros; lia).
    - repeat constructor.
    - exact Hkv. }
  { intros _. cbn [l_token]. rewrite Nat.add_0_r.
    exact (forward_Ok_in_range _ _ _ _ Hout0). }
  simpl Nat.add in Hinv.
  destruct Hinv as ((kvP & HkvP & HmaxP & HszP) & Hobs & Hnum & Hcalls & Hos & Hacc & Hw1
                    & Htok & Hzero & _ & Hrd & Ht0).
  destruct (Hrd HP1) as [Hr Hd].
  exists (l_obs_tokens l'), kvP, (rng wP). cbv zeta.
  split; [exact HszP|]. split; [exact HmaxP|]. split; [exact Hacc|].
  split; [now inversion Hw1|].
  split; [intros HNP; apply Hzero; lia|].
  split; [intros HN2; apply Ht0; lia|].
  unfold step_body. fold P. unfold bind at 1. rewrite Hrun. cbv beta iota.
  unfold step_return.
  destruct (l_output_sequence l') as [|o os] eqn:Eos; [simpl in Hos; lia|].
  destruct (l_obs_tokens l') as [|a acc] eqn:Eacc; [simpl in Hacc; lia|].
  cbn [torch_cat_dim1].
  assert (Ew : snd (set_obs_tokens (Some (concat (a :: acc))) wP)
               = after_step w1 kvP (concat (a :: acc)) (rng wP)
                   (map2 pair (firstn P ([action] :: a :: acc)) (seq (kv_size kv0) P))).
  { unfold set_obs_tokens, bind, get_self, set_self, after_step. simpl.
    now rewrite HkvP, Hnum, Hcalls. }
  set (w' := after_step w1 kvP (concat (a :: acc)) (rng wP) _) in *.
  unfold bind at 1.
  replace (set_obs_tokens (Some (concat (a :: acc))) wP) with (Ok tt, w')
    by (rewrite <- Ew; reflexivity).
  cbv beta iota. rewrite Hr, Hd.
  destruct flag.
  - unfold bind.
    pose proof (decode_obs_tokens_state clamp01 tokenizer w') as Hst.
    destruct (decode_obs_tokens clamp01 tokenizer w') as [[ob|e] w2]; simpl in Hst; subst w2;
      reflexivity.
  - reflexivity.
Qed.

(** On an aligned cache the observation head emits one row of logits in every
    pass that samples a token. *)
Lemma emits_when_aligned m N s0 :
  constructed (config world_model) world_model m ->
  tokens_per_block (config world_model) = N + 1 ->
  s0 mod (N + 1) = N ->
  forall k (x : list Hid), k + 1 < N -> length x = 1 ->
    length (logits_observations (heads_output world_model x 1 (s0 + k))) = 1.
Proof.
  intros (Hn & _ & _ & Hh & _) HN Hs0 k x Hk Hx.
  assert (EN : N = m + 2) by lia. subst N.
  replace (m + 2 + 1) with (m + 3) in * by lia.
  destruct x as [|a [|b x]]; try discriminate.
  simpl logits_observations. rewrite Head_forward_single, Hh, all_but_last_obs_mask_length.
  rewrite all_but_last_obs_mask_nth.
  assert (Eslot : (s0 + k) mod (m + 3) = if k =? 0 then m + 2 else k - 1).
  { rewrite <- Nat.Div0.add_mod_idemp_l, Hs0.
    destruct (Nat.eqb_spec k 0) as [->|Hk0].
    - rewrite Nat.add_0_r. apply Nat.mod_small. lia.
    - replace (m + 2 + k) with ((k - 1) + 1 * (m + 3)) by lia.
      rewrite Nat.Div0.mod_add. apply Nat.mod_small. lia. }
  rewrite Eslot.
  destruct (Nat.eqb_spec k 0) as [->|Hk0].
  - rewrite Nat.eqb_refl, orb_true_r. reflexivity.
  - destruct (Nat.ltb_spec (k - 1) m); [reflexivity | lia].
Qed.

(** Equal slots look tokens up in the same table. *)
Lemma slot_vocab_size_mod p q :
  p mod tokens_per_block (config world_model) = q mod tokens_per_block (config world_model) ->
  slot_vocab_size world_model p = slot_vocab_size world_model q.
Proof. intros E. unfold slot_vocab_size. now rewrite E. Qed.

Lemma single_in_range m (tok : Col) p :
  constructed (config world_model) world_model m -> tables_sized world_model ->
  Embedder_in_range (embedder world_model) [tok] 1 p
  = in_table (slot_vocab_size world_model p) tok.
Proof.
  intros Hwm Hsz.
  pose proof (Embedder_in_range_iff _ world_model m [tok] p Hwm Hsz) as H.
  rewrite in_vocabulary_single in H. cbn [length] in H.
  destruct (Embedder_in_range _ _ _ _); destruct (in_table _ _); try reflexivity.
  - symmetry. now apply H.
  - now apply H.
Qed.

Lemma in_table_zeros n (c : Col) :
  0 < n -> in_table n (map (fun _ => 0%Z) c) = true.
Proof.
  intros Hn. unfold in_table, token_indices, TokenIndices_Col.
  apply forallb_forall. intros z Hz. apply in_map_iff in Hz as [_ [<- _]].
  apply andb_true_iff. split; [reflexivity | apply Z.ltb_lt; lia].
Qed.

(** On an aligned cache the tokens a step feeds are looked up in the action
    table (pass 0), the observation table (the tokens drawn) and the task
    table (the placeholder of the final pass). *)
Lemma fed_when_aligned m N s0 :
  constructed (config world_model) world_model m ->
  tables_sized world_model ->
  0 < task_vocab_size world_model ->
  tokens_per_block (config world_model) = N + 1 ->
  s0 mod (N + 1) = N ->
  samples_in_vocabulary categorical_sample world_model ->
  (forall a, in_table (act_vocab_size world_model) a = true ->
     Embedder_in_range (embedder world_model) [a] 1 s0 = true) /\
  (forall k (x : list Hid) g, k + 1 < N -> length x = 1 ->
     Embedder_in_range (embedder world_model)
       (fst (sample_all categorical_sample
               (logits_observations (heads_output world_model x 1 (s0 + k))) g))
       1 (s0 + k + 1) = true) /\
  (forall tok : list Col, length tok = 1 ->
     Embedder_in_range (embedder world_model) (zeros_like tok) 1 (s0 + N) = true).
Proof.
  intros Hwm Hsz Htask HN Hs0 Hsample.
  pose proof Hwm as (Hn & _ & _ & Hh & _).
  assert (EN : N = m + 2) by lia. subst N.
  replace (m + 2 + 1) with (m + 3) in * by lia.
  assert (Eslot : forall j, j < m + 3 -> (s0 + 1 + j) mod (m + 3) = j).
  { intros j Hj. rewrite <- Nat.add_assoc, <- Nat.Div0.add_mod_idemp_l, Hs0.
    replace (m + 2 + (1 + j)) with (j + 1 * (m + 3)) by lia.
    rewrite Nat.Div0.mod_add. apply Nat.mod_small. lia. }
  split; [|split].
  - intros a Ha. rewrite (single_in_range m) by assumption.
    rewrite (slot_vocab_size_cases _ world_model m _ Hwm), Hs0, Nat.eqb_refl. exact Ha.
  - intros k x g Hk Hx.
    destruct x as [|a [|b x]]; try discriminate.
    simpl logits_observations.
    rewrite Head_forward_single, Hh, all_but_last_obs_mask_length.
    rewrite all_but_last_obs_mask_nth.
    assert (Ek : (s0 + k) mod (m + 3) = if k =? 0 then m + 2 else k - 1).
    { destruct (Nat.eqb_spec k 0) as [->|Hk0].
      - now rewrite Nat.add_0_r.
      - replace (s0 + k) with (s0 + 1 + (k - 1)) by lia. apply Eslot. lia. }
    rewrite Ek.
    replace (((if k =? 0 then m + 2 else k - 1) <? m)
             || ((if k =? 0 then m + 2 else k - 1) =? m + 2)) with true.
    2:{ destruct (Nat.eqb_spec k 0) as [->|Hk0].
        - now rewrite Nat.eqb_refl, orb_true_r.
        - destruct (Nat.ltb_spec (k - 1) m); [reflexivity | lia]. }
    change (1 =? 1)%Z with true. cbn [sample_all map index_select flat_map nth_error app].
    destruct (categorical_sample (head_module (head_observations world_model) a) g)
      as [c g1] eqn:Ec.
    cbn [fst]. rewrite (single_in_range m) by assumption.
    replace (s0 + k + 1) with (s0 + 1 + k) by lia.
    rewrite (slot_vocab_size_cases _ world_model m _ Hwm), Eslot by lia.
    destruct (Nat.eqb_spec k (m + 2)); [lia|].
    destruct (Nat.eqb_spec k (m + 1)); [lia|].
    specialize (Hsample a g). now rewrite Ec in Hsample.
  - intros tok Htok.
    destruct tok as [|c [|d tok]]; try discriminate.
    change (zeros_like [c]) with [map (fun _ : Z => 0%Z) c].
    rewrite (single_in_range m) by assumption.
    replace (s0 + (m + 2)) with (s0 + 1 + (m + 1)) by lia.
    rewrite (slot_vocab_size_cases _ world_model m _ Hwm), Eslot by lia.
    destruct (Nat.eqb_spec (m + 1) (m + 2)); [lia|].
    rewrite Nat.eqb_refl. now apply in_table_zeros.
Qed.

(** A step of an initialized engine whose cache has room for a rebuilt block
    and the passes, and whose tokens are rows of the tables of their slots.
    Pass 0 runs on the cache at hand or, after a rebuild, on the cache the
    stored block was fed to. *)
Lemma step_run (w : W) N t action (flag : bool) :
  let P := if flag then 1 + N else 1 in
  let rebuilt := cap <? cache_size w + P in
  let s0 := if rebuilt then N else cache_size w in
  initialized world_model w N ->
  obs_tokens (self w) = Some t ->
  1 <= N -> N + P <= cap ->
  (forall k (x : list Hid), k < P -> k + 1 < N -> length x = 1 ->
     length (logits_observations (heads_output world_model x 1 (s0 + k))) = 1) ->
  (rebuilt = true -> Embedder_in_range (embedder world_model) t (length t) 0 = true) ->
  Embedder_in_range (embedder world_model) [action] 1 s0 = true ->
  (forall k (x : list Hid) g, k + 1 < P -> k + 1 < N -> length x = 1 ->
     Embedder_in_range (embedder world_model)
       (fst (sample_all categorical_sample
               (logits_observations (heads_output world_model x 1 (s0 + k))) g))
       1 (s0 + k + 1) = true) ->
  (forall tok, N < P -> length tok = 1 ->
     Embedder_in_range (embedder world_model) (zeros_like tok) 1 (s0 + N) = true) ->
  exists kv0 out0 kv1 acc kvP gP,
    let w' := after_step w kvP (concat acc) gP
                ((if rebuilt then [(t, 0)] else [])
                 ++ map2 pair (firstn P ([action] :: acc)) (seq s0 P)) in
    Some kv0 = (if rebuilt
                then Some {| kv_cache := embedded world_model t 0; kv_max_tokens := cap |}
                else keys_values_wm (self w)) /\
    kv_size kv0 = s0 /\
    forward world_model [action] (Some kv0) = Ok (out0, kv1) /\
    kv_size kvP = s0 + P /\ kv_max_tokens kvP = cap /\ s0 + P <= cap /\
    length acc = Nat.min P N /\
    Forall (fun tok => length tok = 1) acc /\
    (N <= P -> all_zero (last acc [action])) /\
    (2 <= N -> hd [] acc = pass0_token categorical_sample out0 (rng w)) /\
    step categorical_sample clamp01 world_model tokenizer action flag w
    = (if flag
       then match fst (decode_obs_tokens clamp01 tokenizer w') with
            | Ok o => Ok {| r_obs := Some o;
                            r_reward := pass0_reward categorical_sample out0 (rng w);
                            r_done := pass0_done categorical_sample out0 (rng w) |}
            | Raise e => Raise e
            end
       else Ok {| r_obs := None;
                  r_reward := pass0_reward categorical_sample out0 (rng w);
                  r_done := pass0_done categorical_sample out0 (rng w) |},
       w').
Proof.
  intros P rebuilt s0 ((kv & Hkv & Hmax & Hsz) & _ & HN & (t' & Ht' & Hlen)) Ht HN1 Hcap Hemit
         Hblock Haction Hdrawn Hplace.
  rewrite Ht in Ht'. injection Ht' as <-.
  assert (Ecs : cache_size w = kv_size kv) by (unfold cache_size; now rewrite Hkv).
  rewrite (step_unfold action flag w kv N Hkv HN). fold P.
  unfold bind at 1. rewrite <- Ecs. fold rebuilt.
  destruct rebuilt eqn:Er; subst s0.
  - (* the cache is rebuilt from the stored block *)
    rewrite Ht.
    destruct (refresh_ok world_model w N t HN Hlen ltac:(lia) (Hblock eq_refl))
      as (x & kv' & Hsz' & Hmax' & Eref & Ekv').
    unfold bind at 1. rewrite Eref. unfold ret at 1. cbv beta iota.
    destruct (forward_cached world_model [action] kv' Hmax') as (x0 & _ & Ef).
    { rewrite Hsz'. simpl. subst P. destruct flag; lia. }
    { rewrite Hsz'. exact Haction. }
    set (out0 := heads_output world_model x0 _ _) in Ef. clearbody out0.
    set (kv1 := Some {| kv_cache := _; kv_max_tokens := _ |}) in Ef. clearbody kv1.
    destruct (step_body_run N action flag (with_cache w kv' [(t, 0)]) kv' _ _
                eq_refl Hmax' Ef) as (acc & kvP & gP & H).
    + rewrite Hsz'. exact Hcap.
    + exact HN1.
    + rewrite Hsz'. exact Hemit.
    + rewrite Hsz'. exact Hdrawn.
    + rewrite Hsz'. exact Hplace.
    + cbv zeta in H. rewrite Hsz' in H.
      destruct H as (H1 & H2 & H3 & H4 & H5 & H6 & H7).
      eexists kv', _, _, acc, kvP, gP. cbv zeta.
      split; [now rewrite Ekv'|].
      do 9 (split; [eassumption || (exact Ef) || lia|]).
      rewrite H7. unfold after_step, with_cache. simpl. rewrite <- app_assoc. reflexivity.
  - (* the passes extend the cache at hand *)
    unfold ret at 1. cbv beta iota.
    apply Nat.ltb_ge in Er.
    destruct (forward_cached world_model [action] kv Hmax) as (x0 & _ & Ef).
    { simpl. subst P. destruct flag; lia. }
    { rewrite <- Ecs. exact Haction. }
    set (out0 := heads_output world_model x0 _ _) in Ef. clearbody out0.
    set (kv1 := Some {| kv_cache := _; kv_max_tokens := _ |}) in Ef. clearbody kv1.
    destruct (step_body_run N action flag w kv _ _ Hkv Hmax Ef) as (acc & kvP & gP & H).
    + lia.
    + exact HN1.
    + rewrite <- Ecs. exact Hemit.
    + rewrite <- Ecs. exact Hdrawn.
    + rewrite <- Ecs. exact Hplace.
    + cbv zeta in H. rewrite <- Ecs in H.
      destruct H as (H1 & H2 & H3 & H4 & H5 & H6 & H7).
      eexists kv, _, _, acc, kvP, gP. cbv zeta.
      split; [now rewrite Hkv|].
      do 9 (split; [eassumption || (exact Ef) || lia|]).
      rewrite H7. reflexivity.
Qed.

Lemma bind_assoc {A B C} (c : @M Emb Rng A) (k : A -> M B) (k' : B -> M C) (w : W) :
  bind (bind c k) k' w = bind c (fun a => bind (k a) k') w.
Proof. unfold bind. destruct (c w) as [[a|e] w1]; reflexivity. Qed.

(** Pass 0 of a step on a cache with room for one token is logged at the
    size of that cache, whatever happens afterwards. *)
Lemma first_pass_logged N action (flag : bool) (w1 : W) kv :
  keys_values_wm (self w1) = Some kv ->
  kv_max_tokens kv = cap ->
  kv_size kv + 1 <= cap ->
  Embedder_in_range (embedder world_model) [action] 1 (kv_size kv) = true ->
  has_prefix (forward_calls w1 ++ [([action], kv_size kv)])
    (snd (step_body categorical_sample clamp01 world_model tokenizer N action flag w1)).
Proof.
  intros Hkv Hmax Hcap Hin. unfold step_body.
  set (P := if flag then 1 + N else 1).
  replace P with (S (P - 1)) by (subst P; destruct flag; lia).
  cbn [seq for_each]. rewrite bind_assoc.
  destruct (step_pass_run categorical_sample world_model N 0
              {| l_token := [action]; l_output_sequence := []; l_obs_tokens := [];
                 l_reward := None; l_done := None |} w1 kv Hkv Hmax Hcap eq_refl Hin)
    as (out & kv' & l' & w2 & _ & _ & _ & _ & Hrun & _ & _ & _ & Hcalls & _).
  unfold bind at 1. rewrite Hrun. cbv beta iota.
  apply (stable_passes categorical_sample clamp01 world_model tokenizer _
           (stable_has_prefix categorical_sample world_model _)).
  exists []. rewrite app_nil_r. exact Hcalls.
Qed.

Lemma step_when_overflow (w : W) kv N t action (flag : bool) :
  keys_values_wm (self w) = Some kv ->
  _num_observations_tokens (self w) = Some N ->
  obs_tokens (self w) = Some t -> length t = N ->
  (cap <? kv_size kv + (if flag then 1 + N else 1)) = true ->
  N <= cap ->
  Embedder_in_range (embedder world_model) t (length t) 0 = true ->
  exists kv',
    kv_size kv' = N /\ kv_max_tokens kv' = cap /\
    step categorical_sample clamp01 world_model tokenizer action flag w
    = step_body categorical_sample clamp01 world_model tokenizer N action flag
        (with_cache w kv' [(t, 0)]).
Proof.
  intros Hkv HN Ht Hlen Eo HNcap Hin.
  destruct (refresh_ok world_model w N t HN Hlen HNcap Hin)
    as (x & kv' & Hsz' & Hmax' & Eref & _).
  exists kv'. split; [exact Hsz'|]. split; [exact Hmax'|].
  rewrite (step_unfold action flag w kv N Hkv HN).
  unfold bind at 1. rewrite Eo, Ht. unfold bind at 1. rewrite Eref. reflexivity.
Qed.

(** A rebuild from a stored block with a token outside its table raises, and
    the step with it. *)
Lemma step_when_overflow_raises (w : W) kv N t action (flag : bool) :
  keys_values_wm (self w) = Some kv ->
  _num_observations_tokens (self w) = Some N ->
  obs_tokens (self w) = Some t -> length t = N ->
  (cap <? kv_size kv + (if flag then 1 + N else 1)) = true ->
  Embedder_in_range (embedder world_model) t (length t) 0 = false ->
  fst (step categorical_sample clamp01 world_model tokenizer action flag w)
  = Raise IndexError.
Proof.
  intros Hkv HN Ht Hlen Eo Hin.
  pose proof (refresh_out_of_table world_model w N t HN Hlen Hin) as Hr.
  rewrite (step_unfold action flag w kv N Hkv HN).
  unfold bind at 1. rewrite Eo, Ht. unfold bind at 1.
  destruct (refresh_keys_values_with_initial_obs_tokens world_model t w) as [[x|e] w1];
    simpl in Hr; [discriminate|].
  injection Hr as ->. reflexivity.
Qed.

Lemma step_when_room (w : W) kv N action (flag : bool) :
  keys_values_wm (self w) = Some kv ->
  _num_observations_tokens (self w) = Some N ->
  (cap <? kv_size kv + (if flag then 1 + N else 1)) = false ->
  step categorical_sample clamp01 world_model tokenizer action flag w
  = step_body categorical_sample clamp01 world_model tokenizer N action flag w.
Proof.
  intros Hkv HN Eo. rewrite (step_unfold action flag w kv N Hkv HN).
  unfold bind at 1. rewrite Eo. reflexivity.
Qed.

Lemma for_each_app {Hid'} ks1 ks2 (body : nat -> StepLocals Hid' -> @M Emb Rng (StepLocals Hid'))
    l (w : W) :
  for_each (ks1 ++ ks2) body l w
  = bind (for_each ks1 body l) (fun l' => for_each ks2 body l') w.
Proof.
  revert l w. induction ks1 as [|k ks1 IH]; intros l w.
  - reflexivity.
  - cbn [app for_each]. unfold bind.
    destruct (body k l w) as [[l1|e] w1]; [|reflexivity].
    rewrite IH. reflexivity.
Qed.

(** The passes of a step on a cache without room for all of them: the pass
    that would feed position max_tokens raises. *)
Lemma step_body_overflow N action (w1 : W) kv0 :
  keys_values_wm (self w1) = Some kv0 ->
  kv_max_tokens kv0 = cap ->
  kv_size kv0 <= cap -> cap < kv_size kv0 + (1 + N) ->
  (forall k (x : list Hid), k < cap - kv_size kv0 -> k + 1 < N -> length x = 1 ->
     length (logits_observations (heads_output world_model x 1 (kv_size kv0 + k))) = 1) ->
  fst (step_body categorical_sample clamp01 world_model tokenizer N action true w1)
  = Raise IndexError.
Proof.
  intros Hkv Hmax Hle Hlt Hemit. unfold step_body.
  set (P := cap - kv_size kv0).
  set (l0 := {| l_token := [action]; l_output_sequence := []; l_obs_tokens := [];
                l_reward := None; l_done := None |} : StepLocals Hid).
  assert (Hrun : fst (for_each (seq 0 P) (step_pass categorical_sample world_model N) l0 w1)
                 = Raise IndexError \/
                 exists l' w' kv,
                   for_each (seq 0 P) (step_pass categorical_sample world_model N) l0 w1
                   = (Ok l', w') /\
                   keys_values_wm (self w') = Some kv /\ kv_size kv = cap /\
                   length (l_token l') = 1).
  { destruct (Nat.eq_dec P 0) as [E|E].
    - right. rewrite E. exists l0, w1, kv0. split; [reflexivity|]. split; [exact Hkv|].
      split; [lia | reflexivity].
    - destruct (Embedder_in_range (embedder world_model) [action] 1 (kv_size kv0)) eqn:Hin.
      + destruct (call_world_model_ok world_model [action] w1 kv0 Hkv Hmax)
          as (x & kv1 & _ & _ & _ & Hf & _); [simpl; lia | exact Hin |].
        destruct (passes_run_or_raise categorical_sample world_model N (kv_size kv0) [action]
                    (forward_calls w1) (self w1) kv0 (rng w1) _ _ P Hf
                    ltac:(lia) ltac:(lia) Hemit P 0 l0 w1 eq_refl)
          as [Hr | (l' & wP & Hfor & Hinv)].
        { split; [exists kv0; repeat split; [exact Hkv | exact Hmax | lia]|].
          simpl. rewrite app_nil_r.
          repeat split; try reflexivity; try lia; try (intros; lia).
          - repeat constructor.
          - exact Hkv. }
        * left. exact Hr.
        * right. simpl Nat.add in Hinv.
          destruct Hinv as ((kvP & HkvP & _ & HszP) & _ & _ & _ & _ & _ & Hw1 & Htok & _).
          exists l', wP, kvP. split; [exact Hfor|]. split; [exact HkvP|].
          split; [lia|]. rewrite Htok. now apply Forall_last.
      + left. replace P with (S (P - 1)) by lia.
        cbn [seq for_each]. unfold bind.
        now rewrite (step_pass_out_of_table categorical_sample world_model N 0 l0 w1 kv0
                       Hkv Hin). }
  replace (1 + N) with (P + S (N - P)) by lia.
  rewrite seq_app. unfold bind at 1. rewrite for_each_app.
  unfold bind at 1.
  destruct Hrun as [Hr | (l' & w' & kv & Hfor & Hkv' & Hsz & Htok)].
  - destruct (for_each (seq 0 P) (step_pass categorical_sample world_model N) l0 w1)
      as [[l'|e] w']; simpl in Hr; [discriminate|].
    injection Hr as ->. reflexivity.
  - rewrite Hfor. cbv beta iota.
    cbn [seq for_each]. unfold bind at 1. unfold step_pass at 1.
    unfold bind at 1.
    rewrite (call_world_model_overflow world_model (l_token l') w' kv Hkv').
    + reflexivity.
    + intros E. rewrite E in Htok. discriminate.
    + lia.
Qed.

(** An action outside the table of its slot makes pass 0 raise. *)
Lemma step_body_out_of_table N action (flag : bool) (w1 : W) kv :
  keys_values_wm (self w1) = Some kv ->
  Embedder_in_range (embedder world_model) [action] 1 (kv_size kv) = false ->
  fst (step_body categorical_sample clamp01 world_model tokenizer N action flag w1)
  = Raise IndexError.
Proof.
  intros Hkv Hin. unfold step_body.
  replace (if flag then 1 + N else 1) with (S ((if flag then 1 + N else 1) - 1))
    by (destruct flag; lia).
  cbn [seq for_each]. unfold bind.
  now rewrite (step_pass_out_of_table categorical_sample world_model N 0
                 {| l_token := [action]; l_output_sequence := []; l_obs_tokens := [];
                    l_reward := None; l_done := None |} w1 kv Hkv Hin).
Qed.

(** X13.  Without room for a stored block and the passes that follow it
    (max_tokens below 2N + 1), a step with next-observation prediction of a
    ready engine raises an IndexError: the cache is rebuilt from the stored
    block and is full before the final pass, whose position is beyond the
    position table. *)
Lemma step_raises_without_room ov av cfg (mods : Modules Col Emb Hid Logit)
    (w : W) (N : nat) (action : Col) :
  WorldModel_init ov av cfg mods = Ok world_model ->
  ready world_model w N ->
  cap < 2 * N + 1 ->
  fst (step categorical_sample clamp01 world_model tokenizer action true w)
  = Raise IndexError.
Proof.
  intros Hinit [Hi [Hblock Hal]] Hcap.
  apply WorldModel_init_inv in Hinit as [m Hwm].
  assert (Hcfg : config world_model = cfg) by apply Hwm. rewrite <- Hcfg in Hwm.
  pose proof Hi as ((kv & Hkv & Hmax & Hsz) & HNcap & HN & (t & Ht & Hlen)).
  assert (Ecs : cache_size w = kv_size kv) by (unfold cache_size; now rewrite Hkv).
  assert (Hge : N <= kv_size kv).
  { rewrite <- Ecs, <- Hal. apply Nat.Div0.mod_le. }
  assert (Eo : (cap <? kv_size kv + (1 + N)) = true) by (apply Nat.ltb_lt; lia).
  destruct (Embedder_in_range (embedder world_model) t (length t) 0) eqn:Hin.
  - destruct (step_when_overflow w kv N t action true Hkv HN Ht Hlen Eo HNcap Hin)
      as (kv' & Hsz' & Hmax' & ->).
    apply (step_body_overflow N action _ kv'); [reflexivity | exact Hmax' | lia | lia |].
    intros k x _. rewrite Hsz'. apply (emits_when_aligned m N); try assumption.
    apply Nat.mod_small. lia.
  - exact (step_when_overflow_raises w kv N t action true Hkv HN Ht Hlen Eo Hin).
Qed.

(** C2.  Cache capacity and overflow rebuild: whatever a step of an
    initialized engine does, returning or raising, it leaves the cache filled
    within max_tokens; when the cache size plus the number of passes exceeds
    max_tokens, the stored block, if the embedder finds each of its tokens in
    the table of its slot, is first fed to an empty cache, and pass 0 then runs
    at a cache size equal to the length of that block (when the cache has room
    for one token more than the block and the action is a row of the table of
    that slot); otherwise pass 0 runs at the cache size at hand (when the
    action is a row of the table of that slot).  A token outside its table makes
    the lookup of the embedder raise instead. *)
Theorem step_cache_capacity (w : W) (N : nat) (t : list Col) (action : Col) (flag : bool) :
  initialized world_model w N ->
  obs_tokens (self w) = Some t ->
  let P := if flag then 1 + N else 1 in
  let overflow := cap <? cache_size w + P in
  let w' := snd (step categorical_sample clamp01 world_model tokenizer action flag w) in
  cache_ok world_model w' /\
  length t = N /\
  (overflow = true ->
     (Embedder_in_range (embedder world_model) t (length t) 0 = true ->
        has_prefix (forward_calls w ++ [(t, 0)]) w' /\
        (N + 1 <= cap ->
         Embedder_in_range (embedder world_model) [action] 1 (length t) = true ->
           has_prefix (forward_calls w ++ [(t, 0); ([action], length t)]) w')) /\
     (Embedder_in_range (embedder world_model) t (length t) 0 = false ->
        fst (step categorical_sample clamp01 world_model tokenizer action flag w)
        = Raise IndexError)) /\
  (overflow = false ->
     (Embedder_in_range (embedder world_model) [action] 1 (cache_size w) = true ->
        has_prefix (forward_calls w ++ [([action], cache_size w)]) w') /\
     (Embedder_in_range (embedder world_model) [action] 1 (cache_size w) = false ->
        fst (step categorical_sample clamp01 world_model tokenizer action flag w)
        = Raise IndexError)).
Proof.
  intros Hinit Ht P overflow w'.
  pose proof Hinit as ((kv & Hkv & Hmax & Hsz) & HNcap & HN & (t' & Ht' & Hlen)).
  rewrite Ht in Ht'. injection Ht' as <-.
  assert (Ecs : cache_size w = kv_size kv) by (unfold cache_size; now rewrite Hkv).
  split.
  { apply (stable_step categorical_sample clamp01 world_model tokenizer _
             (stable_cache_ok categorical_sample world_model)).
    apply Hinit. }
  split; [exact Hlen|].
  subst w' overflow. rewrite Ecs. split.
  - intros Eo. split.
    + intros Hin.
      destruct (step_when_overflow w kv N t action flag Hkv HN Ht Hlen Eo HNcap Hin)
        as (kv' & Hsz' & Hmax' & ->).
      split.
      * apply (stable_step_body categorical_sample clamp01 world_model tokenizer _
                 (stable_has_prefix categorical_sample world_model _)).
        exists []. simpl. now rewrite app_nil_r.
      * intros Hcap1 Hact.
        pose proof (first_pass_logged N action flag (with_cache w kv' [(t, 0)]) kv'
                      eq_refl Hmax' ltac:(lia)) as Hlog.
        simpl forward_calls in Hlog. rewrite <- app_assoc, Hsz' in Hlog.
        rewrite Hlen. apply Hlog. rewrite <- Hlen. exact Hact.
    + intros Hin.
      exact (step_when_overflow_raises w kv N t action flag Hkv HN Ht Hlen Eo Hin).
  - intros Eo. rewrite (step_when_room w kv N action flag Hkv HN Eo).
    apply Nat.ltb_ge in Eo. split.
    + intros Hact.
      apply (first_pass_logged N action flag w kv Hkv Hmax); [|exact Hact].
      subst P. destruct flag; lia.
    + intros Hact. exact (step_body_out_of_table N action flag w kv Hkv Hact).
Qed.

(** The tokens a step appended to the log after pass 0 are rows of the tables
    of their slots, so the block they form can be fed again at the start of a
    cache. *)
Lemma fed_block_in_vocabulary m N s0 (acc : list (list Col)) j :
  constructed (config world_model) world_model m ->
  tables_sized world_model ->
  tokens_per_block (config world_model) = N + 1 ->
  s0 mod (N + 1) = N ->
  Forall (fun tok => length tok = 1) acc ->
  calls_in_range world_model (map2 pair acc (seq (s0 + 1 + j) (length acc))) ->
  in_vocabulary world_model (concat acc) j.
Proof.
  intros Hwm Hsz Hblock Hs0 Hlen. revert j.
  induction Hlen as [|tok acc Htok _ IH]; intros j Hin.
  - intros [|i] c Hnth; discriminate.
  - destruct tok as [|c [|d tok]]; try discriminate.
    cbn [length seq map2] in Hin. inversion Hin as [|? ? Hc Hrest]; subst.
    cbn [fst snd length] in Hc.
    change (concat ([c] :: acc)) with ([c] ++ concat acc).
    apply in_vocabulary_app. split.
    + apply in_vocabulary_single.
      rewrite (single_in_range m) in Hc by assumption.
      rewrite (slot_vocab_size_mod j (s0 + 1 + j)); [exact Hc|].
      rewrite Hblock.
      rewrite (Nat.Div0.add_mod (s0 + 1) j).
      replace ((s0 + 1) mod (N + 1)) with 0.
      * now rewrite Nat.add_0_l, Nat.Div0.mod_mod.
      * symmetry. rewrite <- Nat.Div0.add_mod_idemp_l, Hs0.
        apply Nat.Div0.mod_same.
    + cbn [length]. apply IH.
      replace (s0 + 1 + (j + 1)) with (S (s0 + 1 + j)) by lia. exact Hrest.
Qed.

(** A step with next-observation prediction of a ready engine with room for a
    rebuilt block and the passes, whose tokens are in the vocabulary. *)
Lemma step_predict_run ov av cfg (mods : Modules Col Emb Hid Logit)
    (w : W) (N : nat) (t : list Col) (action : Col) :
  WorldModel_init ov av cfg mods = Ok world_model ->
  ready world_model w N ->
  obs_tokens (self w) = Some t ->
  2 * N + 1 <= cap ->
  in_table (act_vocab_size world_model) action = true ->
  samples_in_vocabulary categorical_sample world_model ->
  let rebuilt := cap <? cache_size w + (1 + N) in
  (rebuilt = true -> in_vocabulary world_model t 0) ->
  let s0 := if rebuilt then N else cache_size w in
  let kv0 := if rebuilt
             then Some {| kv_cache := embedded world_model t 0; kv_max_tokens := cap |}
             else keys_values_wm (self w) in
  exists acc kvP gP out0 kv1,
    let w' := after_step w kvP (concat acc) gP
                ((if rebuilt then [(t, 0)] else [])
                 ++ map2 pair ([action] :: acc) (seq s0 (1 + N))) in
    forward world_model [action] kv0 = Ok (out0, kv1) /\
    kv_size kvP = s0 + (1 + N) /\ kv_max_tokens kvP = cap /\ s0 + (1 + N) <= cap /\
    length acc = N /\ Forall (fun tok => length tok = 1) acc /\
    all_zero (last acc [action]) /\ 2 <= N /\
    step categorical_sample clamp01 world_model tokenizer action true w
    = (match fst (decode_obs_tokens clamp01 tokenizer w') with
       | Ok o => Ok {| r_obs := Some o;
                       r_reward := pass0_reward categorical_sample out0 (rng w);
                       r_done := pass0_done categorical_sample out0 (rng w) |}
       | Raise e => Raise e
       end, w') /\
    ready world_model w' N /\
    in_vocabulary world_model (concat acc) 0.
Proof.
  intros Hinit [Hi [Hblock Hal]] Ht Hcap Hact Hsample rebuilt Hblk s0 kv0.
  pose proof (WorldModel_init_tables _ _ _ _ _ Hinit) as Hsz.
  pose proof (WorldModel_init_vocab _ _ _ _ _ Hinit) as (Htask & _).
  apply WorldModel_init_inv in Hinit as [m Hwm].
  assert (Hcfg : config world_model = cfg) by apply Hwm. rewrite <- Hcfg in Hwm.
  assert (HN2 : N = m + 2) by (destruct Hwm as (Hn & _); lia).
  pose proof Hi as (_ & _ & HN & (t' & Ht' & Hlen)).
  rewrite Ht in Ht'. injection Ht' as <-.
  assert (Hs0 : s0 mod (N + 1) = N).
  { subst s0. destruct rebuilt; [apply Nat.mod_small; lia | exact Hal]. }
  destruct (fed_when_aligned m N s0 Hwm Hsz ltac:(lia) Hblock Hs0 Hsample)
    as (Hfa & Hfd & Hfz).
  destruct (step_run w N t action true Hi Ht ltac:(lia) ltac:(simpl; lia))
    as (kv0' & out0 & kv1 & acc & kvP & gP & H).
  { intros k x _. apply (emits_when_aligned m N); assumption. }
  { intros Er. apply (Embedder_in_range_iff _ world_model m t 0 Hwm Hsz).
    apply Hblk. exact Er. }
  { apply Hfa. exact Hact. }
  { intros k x g _. apply Hfd. }
  { intros tok _. apply Hfz. }
  cbv zeta in H. fold rebuilt in H. fold s0 in H. fold kv0 in H.
  destruct H as (Hpin & Hkv0 & Hf & HszP & HmaxP & HcapP & Hacc & Hw1 & Hzero & _ & Estep).
  assert (HaccN : length acc = N) by lia.
  assert (Efirst : firstn (1 + N) ([action] :: acc) = [action] :: acc)
    by (apply firstn_all2; simpl; lia).
  rewrite Efirst in Estep.
  assert (Hvoc : in_vocabulary world_model (concat acc) 0).
  { pose proof (stable_step categorical_sample clamp01 world_model tokenizer _
                  (stable_logged_in_range categorical_sample world_model w) action true w)
      as Hlog.
    destruct Hlog as (added & Eadded & Hadded).
    { exists []. split; [now rewrite app_nil_r | constructor]. }
    rewrite Estep in Eadded. cbn [snd after_step forward_calls] in Eadded.
    apply app_inv_head in Eadded.
    rewrite <- Eadded in Hadded. apply Forall_app in Hadded as [_ Hadded].
    cbn [seq map2] in Hadded. apply Forall_inv_tail in Hadded.
    apply (fed_block_in_vocabulary m N s0 acc 0); try assumption.
    rewrite HaccN. replace (s0 + 1 + 0) with (S s0) by lia. exact Hadded. }
  exists acc, kvP, gP, out0, kv1. cbv zeta.
  split; [rewrite <- Hpin; exact Hf|].
  split; [exact HszP|]. split; [exact HmaxP|]. split; [exact HcapP|].
  split; [exact HaccN|]. split; [exact Hw1|]. split; [apply Hzero; lia|].
  split; [lia|]. split; [exact Estep|].
  assert (Hcat : length (concat acc) = N)
    by (rewrite (concat_length_uniform acc 1 Hw1); lia).
  split; [|exact Hvoc].
  split; [split; [|split; [|split]]|split].
  - exists kvP. repeat split; [exact HmaxP | lia].
  - lia.
  - exact HN.
  - exists (concat acc). split; [reflexivity | exact Hcat].
  - exact Hblock.
  - unfold cache_size. cbn. rewrite HszP.
    replace (s0 + (1 + N)) with (s0 + 1 * (N + 1)) by lia.
    rewrite Nat.Div0.mod_add. exact Hs0.
Qed.

(** C4, amended.  Multi-pass step structure: a step with next-observation
    prediction of a ready engine (constructed world model, block = stored
    block + action, cache ending on a stored block) whose cache has room for a
    rebuilt block and the passes (max_tokens >= 2N + 1), whose action is a row
    of the action table, whose sampler draws classes of the observation head
    and whose stored block, if it has to be fed again, is in the vocabulary,
    runs, after the rebuild if any, exactly 1 + N passes; each feeds one
    token, at cache sizes s0, s0 + 1, ..., s0 + N; the first token is the
    action, fed to the cache at hand or to the rebuilt one; the reward and
    done flag returned are those drawn from the outputs of pass 0; the token
    of the final pass is all zeros; the new stored block is the N tokens fed
    after the action, ending with that placeholder; the engine is ready again
    and its stored block in the vocabulary.  The step returns unless the
    decoding of the new block raises. *)
Theorem step_multi_pass ov av cfg (mods : Modules Col Emb Hid Logit)
    (w : W) (N : nat) (t : list Col) (action : Col) :
  WorldModel_init ov av cfg mods = Ok world_model ->
  ready world_model w N ->
  obs_tokens (self w) = Some t ->
  2 * N + 1 <= cap ->
  in_table (act_vocab_size world_model) action = true ->
  samples_in_vocabulary categorical_sample world_model ->
  let rebuilt := cap <? cache_size w + (1 + N) in
  (rebuilt = true -> in_vocabulary world_model t 0) ->
  let s0 := if rebuilt then N else cache_size w in
  let kv0 := if rebuilt
             then Some {| kv_cache := embedded world_model t 0; kv_max_tokens := cap |}
             else keys_values_wm (self w) in
  let res := fst (step categorical_sample clamp01 world_model tokenizer action true w) in
  let w' := snd (step categorical_sample clamp01 world_model tokenizer action true w) in
  exists toks out0 kv1,
    forward_calls w'
    = forward_calls w ++ (if rebuilt then [(t, 0)] else [])
                      ++ map2 pair toks (seq s0 (1 + N)) /\
    length toks = 1 + N /\
    Forall (fun tok => length tok = 1) toks /\
    hd [] toks = [action] /\
    cache_size w' = s0 + (1 + N) /\
    forward world_model [action] kv0 = Ok (out0, kv1) /\
    res = match fst (decode_obs_tokens clamp01 tokenizer w') with
          | Ok o => Ok {| r_obs := Some o;
                          r_reward := pass0_reward categorical_sample out0 (rng w);
                          r_done := pass0_done categorical_sample out0 (rng w) |}
          | Raise e => Raise e
          end /\
    all_zero (last toks []) /\
    obs_tokens (self w') = Some (concat (tl toks)) /\
    length (concat (tl toks)) = N /\
    ready world_model w' N /\
    in_vocabulary world_model (concat (tl toks)) 0.
Proof.
  intros Hinit Hready Ht Hcap Hact Hsample rebuilt Hblk s0 kv0 res w'.
  destruct (step_predict_run ov av cfg mods w N t action Hinit Hready Ht Hcap Hact Hsample
              Hblk) as (acc & kvP & gP & out0 & kv1 & H).
  cbv zeta in H. fold rebuilt in H. fold s0 in H. fold kv0 in H.
  destruct H as (Hf & HszP & HmaxP & HcapP & Hacc & Hw1 & Hzero & HN2 & Estep & Hr & Hvoc).
  subst res w'. rewrite Estep. cbn [fst snd].
  exists ([action] :: acc), out0, kv1.
  split; [reflexivity|].
  split; [simpl; lia|]. split; [now constructor|]. split; [reflexivity|].
  split; [unfold cache_size; simpl; exact HszP|].
  split; [exact Hf|]. split; [reflexivity|].
  split; [rewrite last_cons_default; exact Hzero|].
  split; [reflexivity|].
  split; [cbn [tl]; rewrite (concat_length_uniform acc 1 Hw1); lia|].
  split; [exact Hr | exact Hvoc].
Qed.

(** C9.  A step without next-observation prediction of an initialized engine
    whose cache has room for a rebuilt block and one pass, and whose tokens
    fed (the stored block, if the cache is rebuilt, and the action) are rows
    of the tables of their slots, runs exactly one pass (after the rebuild, if
    any, and then on the cache the stored block was fed to) and returns no
    observation, yet replaces the stored block by a single token: the all-zero
    placeholder when N = 1, and otherwise (constructed world model, aligned
    cache) the observation token drawn in that pass; for N >= 2 the stored
    block then has length 1, not N, and the engine is no longer initialized. *)
Theorem step_without_next_obs ov av cfg (mods : Modules Col Emb Hid Logit)
    (w : W) (N : nat) (t : list Col) (action : Col) :
  initialized world_model w N ->
  obs_tokens (self w) = Some t ->
  1 <= N -> N + 1 <= cap ->
  (N = 1 \/ (WorldModel_init ov av cfg mods = Ok world_model /\ aligned world_model w N)) ->
  let rebuilt := cap <? cache_size w + 1 in
  let s0 := if rebuilt then N else cache_size w in
  let kv0 := if rebuilt
             then Some {| kv_cache := embedded world_model t 0; kv_max_tokens := cap |}
             else keys_values_wm (self w) in
  (rebuilt = true -> Embedder_in_range (embedder world_model) t (length t) 0 = true) ->
  Embedder_in_range (embedder world_model) [action] 1 s0 = true ->
  exists tok out0 kv1 r w',
    step categorical_sample clamp01 world_model tokenizer action false w = (Ok r, w') /\
    r_obs r = None /\
    forward_calls w'
    = forward_calls w ++ (if rebuilt then [(t, 0)] else []) ++ [([action], s0)] /\
    cache_size w' = s0 + 1 /\
    obs_tokens (self w') = Some [tok] /\
    _num_observations_tokens (self w') = Some N /\
    forward world_model [action] kv0 = Ok (out0, kv1) /\
    (N = 1 -> Forall (fun z => z = 0%Z) tok) /\
    (2 <= N -> [tok] = pass0_token categorical_sample out0 (rng w)) /\
    (2 <= N -> ~ initialized world_model w' N).
Proof.
  intros Hi Ht HN1 Hcap Hcase rebuilt s0 kv0 Hblk Hact.
  pose proof Hi as (_ & _ & HN & _).
  destruct (step_run w N t action false Hi Ht HN1 Hcap)
    as (kv0' & out0 & kv1 & acc & kvP & gP & H).
  { intros k x Hk Hk1. destruct Hcase as [->|[Hinit [Hblock Hal]]]; [lia|].
    apply WorldModel_init_inv in Hinit as [m Hwm].
    assert (Hcfg : config world_model = cfg) by apply Hwm. rewrite <- Hcfg in Hwm.
    replace k with 0 in * by lia.
    apply (emits_when_aligned m N); try assumption.
    fold rebuilt. destruct rebuilt; [apply Nat.mod_small; lia | exact Hal]. }
  { exact Hblk. }
  { exact Hact. }
  { intros k x g Hk. lia. }
  { intros tok Hk. lia. }
  cbv zeta in H. fold rebuilt in H. fold s0 in H. fold kv0 in H.
  destruct H as (Hpin & Hkv0 & Hf & HszP & HmaxP & HcapP & Hacc & Hw1 & Hzero & Hp0 & Estep).
  replace (Nat.min 1 N) with 1 in Hacc by lia.
  destruct acc as [|a [|b acc]]; try discriminate.
  inversion Hw1 as [|? ? Ha _]; subst.
  destruct a as [|tok [|c a]]; try discriminate.
  simpl in Estep.
  eexists tok, out0, kv1, _, _.
  split; [exact Estep|]. split; [reflexivity|].
  split; [reflexivity|].
  split; [unfold cache_size; simpl; exact HszP|].
  split; [reflexivity|]. split; [exact HN|].
  split; [rewrite <- Hpin; exact Hf|].
  split; [|split].
  - intros E1. specialize (Hzero ltac:(lia)). simpl in Hzero.
    now inversion Hzero.
  - intros E2. exact (Hp0 E2).
  - intros E2 (_ & _ & _ & (t2 & Ht2 & Hlen2)). simpl in Ht2.
    injection Ht2 as <-. simpl in Hlen2. lia.
Qed.

End Step.

(** ** The step on a stub engine: block of 4, stored block of 3 *)

Lemma stub_world_initialized cached cap' :
  cached <= cap' -> 3 <= cap' ->
  initialized (stub_world_model Col 4 cap') (stub_world (stub_block 3) cached cap') 3.
Proof.
  intros H H3. split; [|split; [|split]].
  - eexists. split; [reflexivity|]. split; [reflexivity|].
    unfold kv_size. simpl. rewrite repeat_length. exact H.
  - exact H3.
  - reflexivity.
  - eexists. split; reflexivity.
Qed.

Lemma step_cache_capacity_witness :
  let w := stub_world (stub_block 3) 11 11 in
  let w' := snd (step stub_sample (fun x => x) (stub_world_model Col 4 11) stub_tokenizer
                   [0%Z] true w) in
  cache_ok (stub_world_model Col 4 11) w' /\
  has_prefix [(stub_block 3, 0); ([[0%Z]], 3)] w'.
Proof.
  intros w w'.
  destruct (step_cache_capacity stub_sample (fun x => x) (stub_world_model Col 4 11)
              stub_tokenizer w 3 (stub_block 3) [0%Z] true
              (stub_world_initialized 11 11 (le_n 11) ltac:(lia)) eq_refl)
    as (Hok & _ & Hover & _).
  split; [exact Hok|].
  destruct (Hover eq_refl) as [Hlog _].
  destruct (Hlog ltac:(vm_compute; reflexivity)) as [_ Hlog2].
  apply Hlog2; [simpl; lia | vm_compute; reflexivity].
Defined.

Lemma stub_sample_in_vocabulary cap' :
  samples_in_vocabulary stub_sample (stub_world_model Col 4 cap').
Proof.
  intros h g.
  change (obs_vocab_size (stub_world_model Col 4 cap')) with 512.
  unfold stub_sample, in_table, token_indices, TokenIndices_Col. cbn [fst forallb].
  rewrite andb_true_r. apply andb_true_iff. split.
  - apply Z.leb_le. lia.
  - apply Z.ltb_lt.
    pose proof (Nat.mod_upper_bound
                  (head_module (head_observations (stub_world_model Col 4 cap')) h + g) 512
                  ltac:(lia)).
    lia.
Qed.

Lemma stub_block_in_vocabulary cap' :
  in_vocabulary (stub_world_model Col 4 cap') (stub_block 3) 0.
Proof.
  intros i tok Hnth.
  destruct i as [|[|[|i]]]; simpl in Hnth;
    try (injection Hnth as <-; reflexivity).
  destruct i; discriminate.
Qed.

(** C4, as stated: every step with next-observation prediction of an
    initialized engine would run 1 + N passes, each advancing the cache by one
    position.  On an engine whose cache holds fewer than 2N + 1 positions the
    cache is rebuilt from the stored block and the pass that would feed
    position max_tokens raises: with N = 3 and max_tokens = 6 the cache ends at
    size 6, not 3 + 4, although the engine is ready and every token is in the
    vocabulary. *)
Lemma step_multi_pass_without_room :
  ~ (forall (w : World unit nat) (N : nat) (t : list Col) (action : Col),
       let world_model := stub_world_model Col 4 6 in
       ready world_model w N ->
       obs_tokens (self w) = Some t ->
       in_table (act_vocab_size world_model) action = true ->
       in_vocabulary world_model t 0 ->
       let rebuilt := max_tokens (config world_model) <? cache_size w + (1 + N) in
       let s0 := if rebuilt then N else cache_size w in
       let w' := snd (step stub_sample (fun x => x) world_model stub_tokenizer
                        action true w) in
       exists toks,
         length toks = 1 + N /\
         forward_calls w'
         = forward_calls w ++ (if rebuilt then [(t, 0)] else [])
                           ++ map2 pair toks (seq s0 (1 + N)) /\
         cache_size w' = s0 + (1 + N)).
Proof.
  intros H.
  destruct (H (stub_world (stub_block 3) 3 6) 3 (stub_block 3) [0%Z])
    as (toks & _ & _ & Hsize).
  - split; [apply stub_world_initialized; lia | split; reflexivity].
  - reflexivity.
  - reflexivity.
  - apply stub_block_in_vocabulary.
  - vm_compute in Hsize. discriminate.
Qed.

Lemma step_multi_pass_witness :
  let w := stub_world (stub_block 3) 3 11 in
  let w' := snd (step stub_sample (fun x => x) (stub_world_model Col 4 11) stub_tokenizer
                   [0%Z] true w) in
  exists toks,
    forward_calls w' = map2 pair toks (seq 3 4) /\
    length toks = 4 /\ hd [] toks = [[0%Z]] /\ all_zero (last toks []) /\
    obs_tokens (self w') = Some (concat (tl toks)) /\
    ready (stub_world_model Col 4 11) w' 3.
Proof.
  intros w w'.
  destruct (step_multi_pass stub_sample (fun x => x) (stub_world_model Col 4 11)
              stub_tokenizer 512 6 (stub_config 4 11) (stub_modules Col) w 3
              (stub_block 3) [0%Z] eq_refl)
    as (toks & out0 & kv1 & Hcalls & Hlen & _ & Hhd & _ & _ & _
        & Hzero & Hobs & _ & Hready & _).
  - split; [apply stub_world_initialized; lia|]. split; reflexivity.
  - reflexivity.
  - simpl. lia.
  - reflexivity.
  - apply stub_sample_in_vocabulary.
  - intros _. apply stub_block_in_vocabulary.
  - exists toks.
    split; [exact Hcalls|]. split; [exact Hlen|]. split; [exact Hhd|].
    split; [exact Hzero|]. split; [exact Hobs | exact Hready].
Defined.

Lemma step_without_next_obs_witness :
  let w := stub_world (stub_block 3) 3 11 in
  exists tok r w',
    step stub_sample (fun x => x) (stub_world_model Col 4 11) stub_tokenizer
      [0%Z] false w = (Ok r, w') /\
    r_obs r = None /\
    forward_calls w' = [([[0%Z]], 3)] /\
    obs_tokens (self w') = Some [tok] /\
    ~ initialized (stub_world_model Col 4 11) w' 3.
Proof.
  intros w.
  destruct (step_without_next_obs stub_sample (fun x => x) (stub_world_model Col 4 11)
              stub_tokenizer 512 6 (stub_config 4 11) (stub_modules Col) w 3
              (stub_block 3) [0%Z])
    as (tok & out0 & kv1 & r & w' & Estep & Hobs & Hcalls & _ & Hstored
        & _ & _ & _ & _ & Hnot).
  - apply stub_world_initialized; lia.
  - reflexivity.
  - lia.
  - simpl. lia.
  - right. split; [reflexivity|]. split; reflexivity.
  - intros _. vm_compute. reflexivity.
  - vm_compute. reflexivity.
  - exists tok, r, w'.
    split; [exact Estep|]. split; [exact Hobs|]. split; [exact Hcalls|].
    split; [exact Hstored|]. apply Hnot. lia.
Defined.

(** * Further properties of the code *)

(** ** The constructor *)

Lemma WorldModel_init_eq {Tok Emb Hid Logit} ov av cfg (mods : Modules Tok Emb Hid Logit) m :
  tokens_per_block cfg = m + 3 ->
  WorldModel_init ov av cfg mods
  = Ok {| obs_vocab_size := ov;
          act_vocab_size := av;
          task_vocab_size := 39;
          config := cfg;
          transformer := m_attend mods;
          pos_emb := m_pos_emb mods;
          emb_add := m_emb_add mods;
          emb_zero := m_emb_zero mods;
          embedder :=
            {| embedder_block_masks := [act_mask m; task_mask m; obs_mask m];
               embedding_tables := [m_act_table mods; m_task_table mods; m_obs_table mods];
               embedding_sizes := [av; 39; ov] |};
          head_observations :=
            {| head_block_mask := all_but_last_obs_mask m;
               head_module := m_head_observations mods |};
          head_rewards :=
            {| head_block_mask := act_mask m; head_module := m_head_rewards mods |};
          head_ends :=
            {| head_block_mask := act_mask m; head_module := m_head_ends mods |} |}.
Proof.
  intros H. unfold WorldModel_init. rewrite H.
  pose proof (build_all_but_last m) as Hab.
  destruct (setitem_neg (ones (m + 3)) 2 0%Z) as [t|e] eqn:E1; [|discriminate].
  simpl rbind in Hab |- *. rewrite Hab. simpl rbind.
  rewrite build_act. simpl rbind. rewrite build_task. simpl rbind.
  rewrite build_obs. rewrite Embedder_init_masks by reflexivity. reflexivity.
Qed.

(** X1.  WorldModel.__init__ writes the block patterns at the indices -1, -2
    and -3: for a block of fewer than three tokens the constructor raises an
    IndexError; for every longer block it returns, whatever the vocabulary
    sizes and the cache capacity are, a model that keeps the configuration and
    the two vocabulary sizes given, has the task vocabulary size 39, and whose
    embedding tables are those of the action, the task and the observation
    tokens, in the order of the three role masks. *)
Theorem WorldModel_init_block_length {Tok Emb Hid Logit} ov av cfg
    (mods : Modules Tok Emb Hid Logit) :
  (tokens_per_block cfg < 3 -> WorldModel_init ov av cfg mods = Raise IndexError) /\
  (3 <= tokens_per_block cfg ->
     exists wm,
       WorldModel_init ov av cfg mods = Ok wm /\
       config wm = cfg /\ obs_vocab_size wm = ov /\ act_vocab_size wm = av /\
       task_vocab_size wm = 39 /\
       length (embedder_block_masks (embedder wm)) = 3 /\
       embedding_tables (embedder wm)
       = [m_act_table mods; m_task_table mods; m_obs_table mods]).
Proof.
  split.
  - apply WorldModel_init_small.
  - intros H.
    rewrite (WorldModel_init_eq ov av cfg mods (tokens_per_block cfg - 3)) by lia.
    eexists. split; [reflexivity|]. repeat split.
Qed.

Lemma WorldModel_init_block_length_witness :
  WorldModel_init 512 6 (stub_config 2 340) (stub_modules Z) = Raise IndexError /\
  exists wm, WorldModel_init 512 6 (stub_config 3 0) (stub_modules Z) = Ok wm /\
             task_vocab_size wm = 39.
Proof.
  destruct (WorldModel_init_block_length 512 6 (stub_config 2 340) (stub_modules Z))
    as [Hsmall _].
  destruct (WorldModel_init_block_length 512 6 (stub_config 3 0) (stub_modules Z))
    as [_ Hlarge].
  split; [apply Hsmall; simpl; lia|].
  destruct (Hlarge ltac:(simpl; lia)) as (wm & E & _ & _ & _ & Ht & _).
  exists wm. split; [exact E | exact Ht].
Defined.

(** ** The forward pass: bounds *)

Section ForwardBounds.

Context {Tok Emb Hid Logit : Type} {HTok : TokenIndices Tok}.
Variable wm : WorldModel Tok Emb Hid Logit.

Local Abbreviation cap := (max_tokens (config wm)).

Lemma forward_returns (tokens : list Tok) (past : option (KeysValues Emb)) :
  let prev := match past with Some kv => kv_size kv | None => 0 end in
  match past with
  | Some kv => kv_max_tokens kv = cap /\ kv_size kv <= cap
  | None => True
  end ->
  tokens = [] \/ prev + length tokens <= cap ->
  Embedder_in_range (embedder wm) tokens (length tokens) prev = true ->
  exists x,
    length x = length tokens /\
    forward wm tokens past
    = Ok (heads_output wm x (length tokens) prev,
          match past with
          | Some kv => Some {| kv_cache := kv_cache kv ++ embedded wm tokens (kv_size kv);
                               kv_max_tokens := kv_max_tokens kv |}
          | None => None
          end).
Proof.
  intros prev Hpast Hfit Hin. subst prev. destruct past as [kv|].
  - destruct Hpast as [Hmax Hsz]. apply forward_cached; [exact Hmax| |exact Hin].
    destruct Hfit as [-> | H]; [simpl; lia | exact H].
  - apply forward_uncached; [|exact Hin].
    destruct Hfit as [-> | H]; [simpl; lia | exact H].
Qed.

(** X2.  WorldModel.forward looks the tokens up in the embedding tables of
    their slots and the positions prev_steps .. prev_steps + num_steps - 1 in
    a table of max_tokens rows (the assert on the sequence length is commented
    out): a call that feeds at least one token, on a cache allocated with the
    configured capacity or without a cache, raises an IndexError exactly when
    its last position lies beyond the position table or one of its tokens is
    no row of the table of its slot; otherwise it returns one hidden state per
    token, and a cache handed in has grown by exactly the tokens fed, stays
    within max_tokens and keeps what it held. *)
Theorem forward_position_table (tokens : list Tok) (past : option (KeysValues Emb)) :
  let prev := match past with Some kv => kv_size kv | None => 0 end in
  tokens <> [] ->
  match past with
  | Some kv => kv_max_tokens kv = cap
  | None => True
  end ->
  (forward wm tokens past = Raise IndexError
   <-> cap < prev + length tokens
       \/ Embedder_in_range (embedder wm) tokens (length tokens) prev = false) /\
  (prev + length tokens <= cap ->
   Embedder_in_range (embedder wm) tokens (length tokens) prev = true ->
   exists out past',
     forward wm tokens past = Ok (out, past') /\
     length (output_sequence out) = length tokens /\
     match past, past' with
     | None, None => True
     | Some kv, Some kv' =>
         kv_size kv' = kv_size kv + length tokens /\
         kv_size kv' <= cap /\
         kv_max_tokens kv' = cap /\
         firstn (kv_size kv) (kv_cache kv') = kv_cache kv
     | _, _ => False
     end).
Proof.
  intros prev Hne Hpast.
  assert (Hret : prev + length tokens <= cap ->
            Embedder_in_range (embedder wm) tokens (length tokens) prev = true ->
            exists out past',
              forward wm tokens past = Ok (out, past') /\
              length (output_sequence out) = length tokens /\
              match past, past' with
              | None, None => True
              | Some kv, Some kv' =>
                  kv_size kv' = kv_size kv + length tokens /\
                  kv_size kv' <= cap /\
                  kv_max_tokens kv' = cap /\
                  firstn (kv_size kv) (kv_cache kv') = kv_cache kv
              | _, _ => False
              end).
  { intros Hfit Hin.
    destruct (forward_returns tokens past) as (x & Hx & E).
    - destruct past as [kv|]; [|exact I]. split; [exact Hpast | subst prev; lia].
    - right. exact Hfit.
    - exact Hin.
    - do 2 eexists. split; [exact E|]. split; [exact Hx|].
      destruct past as [kv|]; [|exact I].
      unfold kv_size in *. cbn [kv_cache kv_max_tokens].
      rewrite length_app, embedded_length.
      split; [reflexivity|]. split; [subst prev; lia|].
      split; [exact Hpast|]. rewrite firstn_app, Nat.sub_diag, firstn_all. simpl.
      apply app_nil_r. }
  split; [|exact Hret]. split.
  - intros E.
    destruct (Nat.le_gt_cases (prev + length tokens) cap) as [Hle|Hgt]; [|now left].
    destruct (Embedder_in_range (embedder wm) tokens (length tokens) prev) eqn:Hin;
      [|now right].
    destruct (Hret Hle eq_refl) as (out & past' & E' & _). congruence.
  - intros [Hgt|Hin].
    + rewrite forward_eq. cbv zeta. fold prev.
      destruct (Embedder_in_range _ _ _ _); [|reflexivity].
      destruct (forallb _ _) eqn:E; [|reflexivity].
      apply positions_in_table in E as [E|E]; [|lia].
      apply length_zero_iff_nil in E. contradiction.
    + now apply forward_out_of_table.
Qed.

End ForwardBounds.

Lemma forward_position_table_witness :
  forward (stub_world_model Z 4 3) [1; 2]%Z
    (Some {| kv_cache := [tt; tt]; kv_max_tokens := 3 |}) = Raise IndexError /\
  exists out past',
    forward (stub_world_model Z 4 3) [1; 2; 3]%Z None = Ok (out, past') /\
    length (output_sequence out) = 3.
Proof.
  split.
  - apply (forward_position_table (stub_world_model Z 4 3) [1; 2]%Z
             (Some {| kv_cache := [tt; tt]; kv_max_tokens := 3 |})).
    + discriminate.
    + reflexivity.
    + left. vm_compute. lia.
  - destruct (forward_position_table (stub_world_model Z 4 3) [1; 2; 3]%Z None
                ltac:(discriminate) I) as [_ H].
    destruct (H ltac:(vm_compute; lia) ltac:(vm_compute; reflexivity))
      as (out & past' & E & Hlen & _).
    exists out, past'. split; [exact E | exact Hlen].
Defined.

(** ** The forward pass: incremental calls *)

Lemma map2_ext {A B C} (g h : A -> B -> C) l1 l2 :
  (forall a b, g a b = h a b) -> map2 g l1 l2 = map2 h l1 l2.
Proof.
  intros Hgh. revert l2. induction l1 as [|x l1 IH]; intros [|y l2]; simpl;
    try reflexivity. now rewrite Hgh, IH.
Qed.

Lemma seq_shift_add (n s len : nat) :
  map (fun i => n + i) (seq s len) = seq (n + s) len.
Proof.
  revert s. induction len as [|len IH]; intros s; simpl; [reflexivity|].
  f_equal. rewrite IH. f_equal. lia.
Qed.

Lemma map2_seq_shift {A B} (f : nat -> A -> B) (s n : nat) (l : list A) :
  map2 f (seq s n) l = map2 (fun i => f (s + i)) (seq 0 n) l.
Proof.
  revert f s l. induction n as [|n IH]; intros f s [|a l]; simpl; try reflexivity.
  rewrite Nat.add_0_r. f_equal.
  rewrite (IH f (S s)), (IH (fun i => f (s + i)) 1).
  apply map2_ext. intros i b. f_equal. lia.
Qed.

Lemma forallb_andb {A} (g h : A -> bool) l :
  forallb (fun x => g x && h x) l = forallb g l && forallb h l.
Proof.
  induction l as [|a l IH]; simpl; [reflexivity|]. rewrite IH.
  destruct (g a), (h a), (forallb g l); reflexivity.
Qed.

Lemma forallb_pointwise {A} (g h : A -> bool) l :
  (forall a, g a = h a) -> forallb g l = forallb h l.
Proof. intros E. induction l as [|a l IH]; simpl; [reflexivity | now rewrite E, IH]. Qed.

Section ForwardIncremental.

Context {Tok Emb Hid Logit : Type} {HTok : TokenIndices Tok}.
Variable wm : WorldModel Tok Emb Hid Logit.

Local Abbreviation cap := (max_tokens (config wm)).

Lemma Embedder_output_app z (e : Embedder Tok Emb) t1 t2 prev :
  Embedder_output z e (t1 ++ t2) (length (t1 ++ t2)) prev
  = Embedder_output z e t1 (length t1) prev
    ++ Embedder_output z e t2 (length t2) (prev + length t1).
Proof.
  unfold Embedder_output. rewrite length_app, seq_app.
  rewrite map2_app by apply length_seq. f_equal.
  cbn [Nat.add]. rewrite map2_seq_shift.
  apply map2_ext. intros i a. f_equal. lia.
Qed.

Lemma embedded_app t1 t2 prev :
  embedded wm (t1 ++ t2) prev
  = embedded wm t1 prev ++ embedded wm t2 (prev + length t1).
Proof.
  unfold embedded. rewrite Embedder_output_app, length_app, seq_app, !map_app.
  rewrite map2_app
    by (rewrite Embedder_output_length, !length_map, length_seq; reflexivity).
  f_equal. f_equal. cbn [Nat.add].
  rewrite <- (Nat.add_0_r (length t1)) at 1.
  rewrite <- (seq_shift_add (length t1) 0), !map_map.
  apply map_ext. intros i. f_equal. lia.
Qed.

Lemma hidden_app (attend : list Emb -> Hid) (c e1 e2 : list Emb) :
  map (fun i => attend (c ++ firstn (S i) (e1 ++ e2))) (seq 0 (length e1 + length e2))
  = map (fun i => attend (c ++ firstn (S i) e1)) (seq 0 (length e1))
    ++ map (fun i => attend ((c ++ e1) ++ firstn (S i) e2)) (seq 0 (length e2)).
Proof.
  rewrite seq_app, map_app. f_equal.
  - apply map_ext_in. intros i Hi. apply in_seq in Hi.
    rewrite firstn_app. replace (S i - length e1) with 0 by lia.
    simpl firstn at 2. now rewrite app_nil_r.
  - cbn [Nat.add]. rewrite <- (Nat.add_0_r (length e1)) at 1.
    rewrite <- (seq_shift_add (length e1) 0), map_map.
    apply map_ext. intros i. f_equal.
    rewrite firstn_app. replace (S (length e1 + i) - length e1) with (S i) by lia.
    rewrite firstn_all2 by lia. now rewrite app_assoc.
Qed.

Lemma compute_slice_app (mask : list Z) n1 n2 prev :
  compute_slice mask (n1 + n2) prev
  = compute_slice mask n1 prev
    ++ map (fun i => n1 + i) (compute_slice mask n2 (prev + n1)).
Proof.
  unfold compute_slice. rewrite seq_app, filter_app. f_equal.
  cbn [Nat.add]. rewrite <- (Nat.add_0_r n1) at 1.
  rewrite <- (seq_shift_add n1 0).
  induction (seq 0 n2) as [|i l IH]; [reflexivity|].
  cbn [map filter]. replace (prev + n1 + i) with (prev + (n1 + i)) by lia.
  destruct (_ =? _)%Z; cbn [map]; now rewrite IH.
Qed.

Lemma index_select_left {A} (x1 x2 : list A) idx :
  Forall (fun i => i < length x1) idx ->
  index_select (x1 ++ x2) idx = index_select x1 idx.
Proof.
  unfold index_select. induction 1 as [|i idx Hi _ IH]; [reflexivity|].
  cbn [flat_map]. rewrite IH, nth_error_app1 by exact Hi. reflexivity.
Qed.

Lemma index_select_right {A} (x1 x2 : list A) idx :
  index_select (x1 ++ x2) (map (fun i => length x1 + i) idx) = index_select x2 idx.
Proof.
  unfold index_select. induction idx as [|i idx IH]; [reflexivity|].
  cbn [map flat_map]. rewrite IH, nth_error_app2 by lia.
  replace (length x1 + i - length x1) with i by lia. reflexivity.
Qed.

Lemma Head_forward_app (h : Head Hid Logit) (x1 x2 : list Hid) n2 prev :
  Head_forward h (x1 ++ x2) (length x1 + n2) prev
  = Head_forward h x1 (length x1) prev ++ Head_forward h x2 n2 (prev + length x1).
Proof.
  unfold Head_forward. rewrite compute_slice_app, index_select_app, map_app.
  f_equal; f_equal.
  - apply index_select_left. apply Forall_forall. intros i Hi.
    now apply compute_slice_In in Hi.
  - apply index_select_right.
Qed.

Lemma heads_output_app (x1 x2 : list Hid) n2 prev :
  heads_output wm (x1 ++ x2) (length x1 + n2) prev
  = cat_outputs (heads_output wm x1 (length x1) prev)
                (heads_output wm x2 n2 (prev + length x1)).
Proof.
  unfold heads_output, cat_outputs. cbn. now rewrite !Head_forward_app.
Qed.

(** The lookups of a sequence succeed when those of its two parts do. *)
Lemma Embedder_in_range_app (e : Embedder Tok Emb) t1 t2 prev :
  Embedder_in_range e (t1 ++ t2) (length (t1 ++ t2)) prev
  = Embedder_in_range e t1 (length t1) prev
    && Embedder_in_range e t2 (length t2) (prev + length t1).
Proof.
  unfold Embedder_in_range. rewrite <- forallb_andb.
  apply forallb_pointwise. intros [m n]. cbn [fst snd].
  rewrite length_app, compute_slice_app, index_select_app, forallb_app.
  f_equal; f_equal.
  - apply index_select_left. apply Forall_forall. intros i Hi.
    now apply compute_slice_In in Hi.
  - apply index_select_right.
Qed.

(** A cached call within capacity, with its hidden states written out. *)
Lemma forward_cached_eq tokens (kv : KeysValues Emb) :
  kv_max_tokens kv = cap ->
  kv_size kv + length tokens <= cap ->
  Embedder_in_range (embedder wm) tokens (length tokens) (kv_size kv) = true ->
  forward wm tokens (Some kv)
  = Ok (heads_output wm
          (map (fun i => transformer wm
                           (kv_cache kv ++ firstn (S i) (embedded wm tokens (kv_size kv))))
               (seq 0 (length tokens)))
          (length tokens) (kv_size kv),
        Some {| kv_cache := kv_cache kv ++ embedded wm tokens (kv_size kv);
                kv_max_tokens := kv_max_tokens kv |}).
Proof.
  intros Hmax Hcap Hin. rewrite forward_eq. cbv zeta. rewrite Hin.
  replace (forallb _ _) with true
    by (symmetry; apply positions_in_table; now right).
  unfold Transformer_forward. rewrite embedded_length.
  replace (kv_size kv + length tokens <=? kv_max_tokens kv) with true
    by (symmetry; apply Nat.leb_le; lia).
  reflexivity.
Qed.

Lemma forward_uncached_eq tokens :
  length tokens <= cap ->
  Embedder_in_range (embedder wm) tokens (length tokens) 0 = true ->
  forward wm tokens None
  = Ok (heads_output wm
          (map (fun i => transformer wm (firstn (S i) (embedded wm tokens 0)))
               (seq 0 (length tokens)))
          (length tokens) 0,
        None).
Proof.
  intros Hcap Hin. rewrite forward_eq. cbv zeta. rewrite Hin.
  replace (forallb _ _) with true
    by (symmetry; apply positions_in_table; now right).
  unfold Transformer_forward. rewrite embedded_length. reflexivity.
Qed.

(** X3.  WorldModel.forward hands the absolute offset prev_steps to the
    embedder, the position table and the three heads: on a cache with room
    for both, feeding a sequence whose tokens are rows of the tables of their
    slots in one call returns the outputs of feeding its first part and then,
    on the cache this leaves, its second part, the hidden states and the
    logits of the two calls concatenated, and leaves the same cache; and a
    call without a cache (offset 0) returns the outputs of the same call on an
    empty cache. *)
Theorem forward_incremental (t1 t2 : list Tok) (kv : KeysValues Emb) :
  t1 <> [] -> t2 <> [] ->
  kv_max_tokens kv = cap ->
  kv_size kv + (length t1 + length t2) <= cap ->
  Embedder_in_range (embedder wm) (t1 ++ t2) (length (t1 ++ t2)) (kv_size kv) = true ->
  (exists o1 kv1 o2 kv2,
     forward wm t1 (Some kv) = Ok (o1, Some kv1) /\
     forward wm t2 (Some kv1) = Ok (o2, Some kv2) /\
     forward wm (t1 ++ t2) (Some kv) = Ok (cat_outputs o1 o2, Some kv2)) /\
  (kv_size kv = 0 ->
   exists o kv',
     forward wm (t1 ++ t2) None = Ok (o, None) /\
     forward wm (t1 ++ t2) (Some kv) = Ok (o, Some kv')).
Proof.
  intros _ _ Hmax Hcap Hin.
  pose proof Hin as Hin12. rewrite Embedder_in_range_app in Hin12.
  apply andb_true_iff in Hin12 as [Hin1 Hin2]. split.
  - set (kv1 := {| kv_cache := kv_cache kv ++ embedded wm t1 (kv_size kv);
                   kv_max_tokens := kv_max_tokens kv |}).
    assert (Hsz1 : kv_size kv1 = kv_size kv + length t1).
    { unfold kv1, kv_size. cbn. now rewrite length_app, embedded_length. }
    pose proof (forward_cached_eq t1 kv Hmax ltac:(lia) Hin1) as E1. fold kv1 in E1.
    pose proof (forward_cached_eq t2 kv1 Hmax ltac:(lia)
                  ltac:(rewrite Hsz1; exact Hin2)) as E2.
    do 4 eexists. split; [exact E1|]. split; [exact E2|].
    rewrite (forward_cached_eq (t1 ++ t2) kv Hmax)
      by (exact Hin || (rewrite length_app; lia)).
    f_equal. f_equal.
    + rewrite embedded_app, length_app.
      rewrite <- (embedded_length wm t1 (kv_size kv)) at 1.
      rewrite <- (embedded_length wm t2 (kv_size kv + length t1)) at 1.
      rewrite hidden_app, !embedded_length.
      set (x1 := map _ (seq 0 (length t1))).
      assert (Hx1 : length x1 = length t1) by (unfold x1; now rewrite length_map, length_seq).
      rewrite <- Hx1 at 1. rewrite heads_output_app, Hx1, Hsz1. reflexivity.
    + rewrite Hsz1. unfold kv1. cbn [kv_cache kv_max_tokens].
      rewrite embedded_app, app_assoc. reflexivity.
  - intros H0.
    assert (Hnil : kv_cache kv = [])
      by (apply length_zero_iff_nil; exact H0).
    rewrite (forward_uncached_eq (t1 ++ t2))
      by ((rewrite <- H0; exact Hin) || (rewrite length_app; lia)).
    rewrite (forward_cached_eq (t1 ++ t2) kv Hmax)
      by (exact Hin || (rewrite length_app; lia)).
    rewrite H0, Hnil. do 2 eexists. split; reflexivity.
Qed.

End ForwardIncremental.

Lemma forward_incremental_witness :
  exists o1 kv1 o2 kv2,
    forward (stub_world_model Z 4 8) [1; 2; 30]%Z (Some (generate_empty_keys_values 8))
    = Ok (o1, Some kv1) /\
    forward (stub_world_model Z 4 8) [0; 5]%Z (Some kv1) = Ok (o2, Some kv2) /\
    forward (stub_world_model Z 4 8) [1; 2; 30; 0; 5]%Z (Some (generate_empty_keys_values 8))
    = Ok (cat_outputs o1 o2, Some kv2).
Proof.
  apply (forward_incremental (stub_world_model Z 4 8) [1; 2; 30]%Z [0; 5]%Z
           (generate_empty_keys_values 8)).
  - discriminate.
  - discriminate.
  - reflexivity.
  - vm_compute. lia.
  - vm_compute. reflexivity.
Defined.

(** ** The forward pass: where the heads emit and how tokens are embedded *)

Lemma nth_error_map2 {A B C} (f : A -> B -> C) l1 l2 i :
  nth_error (map2 f l1 l2) i
  = match nth_error l1 i, nth_error l2 i with
    | Some a, Some b => Some (f a b)
    | _, _ => None
    end.
Proof.
  revert l2 i. induction l1 as [|a l1 IH]; intros [|b l2] [|i]; simpl; try reflexivity.
  - now destruct (nth_error l1 i).
  - apply IH.
Qed.

Lemma nth_error_seq0 n i : i < n -> nth_error (seq 0 n) i = Some i.
Proof.
  intros H. rewrite (nth_error_nth' _ 0) by (rewrite length_seq; exact H).
  now rewrite seq_nth.
Qed.

Section HeadPlacement.

Context {Tok Emb Hid Logit : Type} {HTok : TokenIndices Tok}.

(** What a call that returns has computed: one hidden state per token, and
    the three heads applied at the offset of the call. *)
Lemma forward_Ok_inv (wm : WorldModel Tok Emb Hid Logit) tokens past out past' :
  forward wm tokens past = Ok (out, past') ->
  exists x, length x = length tokens /\
    out = heads_output wm x (length tokens)
            (match past with Some kv => kv_size kv | None => 0 end).
Proof.
  rewrite forward_eq. cbv zeta.
  destruct (Embedder_in_range _ _ _ _); [|discriminate].
  destruct (forallb _ _); [|discriminate].
  set (prev := match past with Some kv => kv_size kv | None => 0 end).
  unfold Transformer_forward. destruct past as [kv|].
  - destruct (assert _); [|discriminate]. simpl rbind.
    intros H. injection H as <- _. eexists. split; [|reflexivity].
    now rewrite length_map, length_seq, embedded_length.
  - simpl rbind. intros H. injection H as <- _. eexists. split; [|reflexivity].
    now rewrite length_map, length_seq, embedded_length.
Qed.

Lemma compute_slice_act_mask m num prev :
  compute_slice (act_mask m) num prev
  = filter (fun i => (prev + i) mod (m + 3) =? m + 2) (seq 0 num).
Proof.
  unfold compute_slice. apply filter_ext. intros i.
  rewrite act_mask_length, act_mask_nth. now destruct (_ =? _).
Qed.

Lemma count_last_slot m L :
  length (filter (fun i => (0 + i) mod (m + 3) =? m + 2) (seq 0 (L * (m + 3)))) = L.
Proof.
  transitivity (length (filter (fun q => (fun k => k =? m + 2) (q mod (m + 3)))
                               (seq 0 (L * (m + 3))))).
  { reflexivity. }
  rewrite (filter_periodic (fun k => k =? m + 2) (m + 3) L).
  replace (filter (fun k => k =? m + 2) (seq 0 (m + 3))) with [m + 2].
  - transitivity (length (seq 0 L)); [|apply length_seq].
    induction (seq 0 L) as [|t l IH]; [reflexivity|].
    cbn [map concat length app]. f_equal. exact IH.
  - replace (m + 3) with (S (m + 2)) by lia.
    rewrite seq_S, filter_app, filter_none.
    + cbn [filter Nat.add app]. now rewrite Nat.eqb_refl.
    + intros k Hk. apply in_seq in Hk. apply Nat.eqb_neq. lia.
Qed.

(** X4.  The reward head and the termination head are built on the action
    pattern (1 at index -1 only): whenever a forward pass returns, its reward
    logits and its termination logits are the two head modules applied to the
    hidden states at exactly the positions of the call whose absolute position
    is the action slot of its block, one row each per such position; a
    single-token pass yields one row of each at an action slot and none
    anywhere else, and a pass without cache over L whole blocks yields L
    rows of each. *)
Theorem reward_and_end_heads_placement ov av cfg (mods : Modules Tok Emb Hid Logit) wm
    (tokens : list Tok) past out past' :
  WorldModel_init ov av cfg mods = Ok wm ->
  forward wm tokens past = Ok (out, past') ->
  let n := tokens_per_block cfg in
  let prev := match past with Some kv => kv_size kv | None => 0 end in
  let slots := filter (fun i => (prev + i) mod n =? n - 1) (seq 0 (length tokens)) in
  logits_rewards out
  = map (m_head_rewards mods) (index_select (output_sequence out) slots) /\
  logits_ends out
  = map (m_head_ends mods) (index_select (output_sequence out) slots) /\
  length (logits_rewards out) = length slots /\
  length (logits_ends out) = length slots /\
  (length tokens = 1 ->
   length (logits_rewards out) = if prev mod n =? n - 1 then 1 else 0) /\
  (forall L, prev = 0 -> length tokens = L * n -> length (logits_rewards out) = L).
Proof.
  intros Hinit Hf n prev slots.
  destruct (WorldModel_init_inv _ _ _ _ _ Hinit) as [m Hwm].
  pose proof Hwm as (Hn & Hcfg & _ & _ & Hr & He).
  rewrite (WorldModel_init_eq ov av cfg mods m Hn) in Hinit. injection Hinit as Ewm.
  destruct (forward_Ok_inv wm tokens past out past' Hf) as (x & Hx & ->).
  fold prev. cbn [logits_rewards logits_ends output_sequence heads_output].
  unfold Head_forward. rewrite Hr, He, !compute_slice_act_mask.
  assert (Eslots : filter (fun i => (prev + i) mod (m + 3) =? m + 2) (seq 0 (length tokens))
                   = slots).
  { unfold slots, n. rewrite Hn. apply filter_ext. intros i.
    replace (m + 3 - 1) with (m + 2) by lia. reflexivity. }
  rewrite Eslots.
  assert (Hmods : head_module (head_rewards wm) = m_head_rewards mods
                  /\ head_module (head_ends wm) = m_head_ends mods)
    by (rewrite <- Ewm; split; reflexivity).
  destruct Hmods as [-> ->].
  assert (Hlen : length (index_select x slots) = length slots).
  { apply index_select_length, Forall_forall. intros i Hi.
    unfold slots in Hi. apply filter_In in Hi as [Hi _]. apply in_seq in Hi. lia. }
  split; [reflexivity|]. split; [reflexivity|].
  rewrite !length_map, Hlen. split; [reflexivity|]. split; [reflexivity|]. split.
  - intros H1. unfold slots. rewrite H1. cbn [seq filter]. rewrite Nat.add_0_r.
    now destruct (_ =? _).
  - intros L H0 HL. rewrite <- Eslots, H0, HL.
    unfold n. rewrite Hn. apply count_last_slot.
Qed.

(** X5.  The embedder is handed the three role masks and the three embedding
    tables in the same order (action, task, observation), and forward adds the
    embedding of the absolute position: after a forward pass on a cache, the
    entry the cache holds for the i-th token fed is the sum of the position
    embedding of its absolute position and of the token's embedding in the
    table of the role of that position in its block: the action table at the
    last slot, the task table at the second-to-last, the observation table at
    every other. *)
Theorem embedder_role_dispatch ov av cfg (mods : Modules Tok Emb Hid Logit) wm
    (tokens : list Tok) (kv : KeysValues Emb) out kv' i tok :
  WorldModel_init ov av cfg mods = Ok wm ->
  forward wm tokens (Some kv) = Ok (out, Some kv') ->
  nth_error tokens i = Some tok ->
  let n := tokens_per_block cfg in
  let p := kv_size kv + i in
  nth_error (kv_cache kv') p
  = Some (m_emb_add mods
            ((if p mod n =? n - 1 then m_act_table mods
              else if p mod n =? n - 2 then m_task_table mods
              else m_obs_table mods) tok)
            (m_pos_emb mods p)).
Proof.
  intros Hinit Hf Htok n p.
  destruct (WorldModel_init_inv _ _ _ _ _ Hinit) as [m Hwm].
  pose proof Hwm as (Hn & _).
  rewrite (WorldModel_init_eq ov av cfg mods m Hn) in Hinit. injection Hinit as Ewm.
  assert (Hi : i < length tokens) by (apply nth_error_Some; congruence).
  (* the cache after the call *)
  assert (Ekv : kv_cache kv' = kv_cache kv ++ embedded wm tokens (kv_size kv)).
  { rewrite forward_eq in Hf. cbv zeta in Hf.
    destruct (Embedder_in_range _ _ _ _); [|discriminate].
    destruct (forallb _ _); [|discriminate].
    unfold Transformer_forward in Hf. destruct (assert _); [|discriminate].
    simpl rbind in Hf. injection Hf as _ <-. reflexivity. }
  rewrite Ekv. unfold p, kv_size.
  rewrite nth_error_app2 by lia.
  replace (length (kv_cache kv) + i - length (kv_cache kv)) with i by lia.
  fold (kv_size kv). unfold embedded, Embedder_output.
  rewrite !nth_error_map2, !nth_error_map, nth_error_seq0, Htok by exact Hi.
  cbn [option_map]. f_equal.
  rewrite <- Ewm. cbn [emb_add pos_emb emb_zero embedder embedder_block_masks
                         embedding_tables embed_role].
  rewrite act_mask_length, task_mask_length, obs_mask_length.
  rewrite act_mask_nth, task_mask_nth, obs_mask_nth.
  unfold n. rewrite Hn.
  replace (m + 3 - 1) with (m + 2) by lia. replace (m + 3 - 2) with (m + 1) by lia.
  assert (Hslot : (kv_size kv + i) mod (m + 3) < m + 3)
    by (apply Nat.mod_upper_bound; lia).
  destruct (Nat.eqb_spec ((kv_size kv + i) mod (m + 3)) (m + 2)); [reflexivity|].
  destruct (Nat.eqb_spec ((kv_size kv + i) mod (m + 3)) (m + 1)); [reflexivity|].
  destruct (Nat.ltb_spec ((kv_size kv + i) mod (m + 3)) (m + 1)); [reflexivity | lia].
Qed.

End HeadPlacement.

Lemma reward_and_end_heads_placement_witness :
  exists out,
    forward (stub_world_model Z 4 8) [1; 2; 30; 0]%Z None = Ok (out, None) /\
    length (logits_rewards out) = 1.
Proof.
  assert (E : exists out,
            forward (stub_world_model Z 4 8) [1; 2; 30; 0]%Z None = Ok (out, None))
    by (eexists; vm_compute; reflexivity).
  destruct E as [out E]. exists out. split; [exact E|].
  destruct (reward_and_end_heads_placement 512 6 (stub_config 4 8) (stub_modules Z)
              (stub_world_model Z 4 8) [1; 2; 30; 0]%Z None out None eq_refl E)
    as (_ & _ & _ & _ & _ & H).
  apply (H 1); reflexivity.
Defined.

Lemma embedder_role_dispatch_witness :
  exists out kv',
    forward (stub_world_model Z 4 8) [1; 2; 30; 0]%Z (Some (generate_empty_keys_values 8))
    = Ok (out, Some kv') /\
    nth_error (kv_cache kv') 3 = Some tt.
Proof.
  assert (E : exists out kv',
            forward (stub_world_model Z 4 8) [1; 2; 30; 0]%Z
              (Some (generate_empty_keys_values 8)) = Ok (out, Some kv'))
    by (do 2 eexists; vm_compute; reflexivity).
  destruct E as (out & kv' & E). exists out, kv'. split; [exact E|].
  exact (embedder_role_dispatch 512 6 (stub_config 4 8) (stub_modules Z)
           (stub_world_model Z 4 8) [1; 2; 30; 0]%Z (generate_empty_keys_values 8)
           out kv' 3 0%Z eq_refl E eq_refl).
Defined.

(** ** The reward classes *)

Lemma Zquot_eq_iff a b c :
  (0 < b)%Z ->
  Z.quot a b = c
  <-> ((0 < c /\ c * b <= a < (c + 1) * b)
       \/ (c = 0 /\ - b < a < b)
       \/ (c < 0 /\ (c - 1) * b < a <= c * b))%Z.
Proof.
  intros Hb. pose proof (Z.quot_rem' a b) as E.
  assert (Hr : (0 <= a -> 0 <= Z.rem a b < b)%Z)
    by (intros Ha; now apply Z.rem_bound_pos).
  assert (Hr' : (a <= 0 -> - b < Z.rem a b <= 0)%Z)
    by (intros Ha; now apply Z.rem_bound_pos_neg).
  split.
  - intros <-. destruct (Z.le_ge_cases 0 a) as [Ha|Ha].
    + specialize (Hr Ha). nia.
    + specialize (Hr' Ha). nia.
  - intros H. destruct (Z.le_ge_cases 0 a) as [Ha|Ha].
    + specialize (Hr Ha). nia.
    + specialize (Hr' Ha). nia.
Qed.

Lemma reward_label_eq_iff r c :
  reward_label r false = c
  <-> ((0 < c /\ c * Zpos (Qden r) <= Qnum r * 2 < (c + 1) * Zpos (Qden r))
       \/ (c = 0 /\ - Zpos (Qden r) < Qnum r * 2 < Zpos (Qden r))
       \/ (c < 0 /\ (c - 1) * Zpos (Qden r) < Qnum r * 2 <= c * Zpos (Qden r)))%Z.
Proof.
  unfold reward_label, Qtrunc. destruct r as [a b]. cbn [Qmult Qnum Qden].
  rewrite Pos.mul_1_r. apply Zquot_eq_iff. reflexivity.
Qed.

(** X6.  The reward label of an unpadded step is (rewards * 2).long(), a
    truncation toward zero, and the reward head has three classes: the label
    is a class of the head exactly for the rewards strictly between -1/2 and
    3/2; these are binned into class 0 below 1/2, class 1 from 1/2 up to but
    excluding 1, and class 2 from 1 on; and the label coincides with the
    ignore label -100 of the padded steps exactly for the rewards above
    -101/2 and up to -50. *)
Theorem reward_label_bins (r : Q) :
  let c := reward_label r false in
  (valid_class num_reward_classes c = true <-> - (1 # 2) < r /\ r < 3 # 2)%Q /\
  (c = 0%Z <-> - (1 # 2) < r /\ r < 1 # 2)%Q /\
  (c = 1%Z <-> 1 # 2 <= r /\ r < 1)%Q /\
  (c = 2%Z <-> 1 <= r /\ r < 3 # 2)%Q /\
  (c = ignore_index <-> - (101 # 2) < r /\ r <= - (50))%Q.
Proof.
  intros c. subst c.
  assert (H0 : reward_label r false = 0%Z <-> (- (1 # 2) < r /\ r < 1 # 2)%Q).
  { rewrite reward_label_eq_iff. unfold Qlt. cbn [Qnum Qden Qopp]. lia. }
  assert (H1 : reward_label r false = 1%Z <-> (1 # 2 <= r /\ r < 1)%Q).
  { rewrite reward_label_eq_iff. unfold Qlt, Qle. cbn [Qnum Qden]. lia. }
  assert (H2 : reward_label r false = 2%Z <-> (1 <= r /\ r < 3 # 2)%Q).
  { rewrite reward_label_eq_iff. unfold Qlt, Qle. cbn [Qnum Qden]. lia. }
  split; [|split; [exact H0|split; [exact H1|split; [exact H2|]]]].
  - rewrite valid_class_3, H0, H1, H2. unfold Qlt, Qle. cbn [Qnum Qden Qopp]. lia.
  - rewrite reward_label_eq_iff. unfold ignore_index, Qlt, Qle. cbn [Qnum Qden Qopp]. lia.
Qed.

(** ** The training loss: errors *)

Lemma trajectory_tokens_length_any K L (obs : list (list Z)) task act :
  length obs = L -> Forall (fun t => length t = K) obs ->
  length task = L -> length act = L ->
  length (trajectory_tokens obs task act) = L * (K + 2).
Proof.
  unfold trajectory_tokens. revert L task act.
  induction obs as [|o obs IH]; intros L [|t task] [|a act] Ho HK Ht Ha;
    simpl in Ho, Ht, Ha; subst L; try discriminate; [reflexivity|].
  inversion HK as [|? ? Hk HK']; subst.
  cbn [map map2 concat]. rewrite !length_app.
  rewrite (IH (length obs) task act) by (auto; lia).
  cbn [length]. lia.
Qed.

Lemma forward_uncached_overflow {Tok Emb Hid Logit} {HTok : TokenIndices Tok}
    (wm : WorldModel Tok Emb Hid Logit) tokens :
  max_tokens (config wm) < length tokens ->
  forward wm tokens None = Raise IndexError.
Proof.
  intros H. rewrite forward_eq. cbv zeta.
  destruct (Embedder_in_range _ _ _ _); [|reflexivity].
  destruct (forallb _ _) eqn:E; [|reflexivity].
  apply positions_in_table in E as [E|E]; lia.
Qed.

Section LossErrors.

Context {Emb Hid Logit Image Loss : Type}.
Variable tokenizer_encode : Image -> list Z.
Variable nll_mean : list (Logit * Z) -> Loss.
Variable loss_add : Loss -> Loss -> Loss.

(** X7.  compute_loss runs the world model on the interleaved sequence of
    each trajectory, L * (K + 2) tokens for L steps of K observation tokens,
    without a cache, and the position table has max_tokens rows: on a batch of
    at least one trajectory whose sequences are longer than max_tokens the
    loss computation raises an IndexError, whatever the rewards, the
    terminations and the padding are (the termination check is only reached
    afterwards). *)
Theorem compute_loss_sequence_too_long (wm : WorldModel Z Emb Hid Logit)
    (batch : Batch Image) (B L K : nat) :
  batch_shaped tokenizer_encode B L K batch ->
  1 <= B ->
  max_tokens (config wm) < L * (K + 2) ->
  compute_loss tokenizer_encode nll_mean loss_add wm batch = Raise IndexError.
Proof.
  intros Hshape HB Hcap. unfold compute_loss.
  pose proof Hshape as (Ho & Ht & Ha & _).
  rewrite (interleave_rows B) by (apply Ho || apply Ht || apply Ha).
  destruct B as [|B]; [lia|]. cbn [seq map mapM].
  rewrite forward_uncached_overflow; [reflexivity|].
  destruct (shaped3_row _ _ _ _ 0 Ho ltac:(lia)) as [HoL HoK].
  rewrite (trajectory_tokens_length_any K L); try assumption.
  - now apply (shaped2_row (S B) L).
  - now apply (shaped2_row (S B) L).
Qed.

End LossErrors.

Lemma compute_loss_sequence_too_long_witness :
  compute_loss (fun img : list Z => img) (fun terms => length terms) Nat.add
    (stub_world_model Z 4 7) (stub_batch 0 1 true true) = Raise IndexError.
Proof.
  apply (compute_loss_sequence_too_long (fun img : list Z => img)
           (fun terms => length terms) Nat.add (stub_world_model Z 4 7)
           (stub_batch 0 1 true true) 1 2 2).
  - unfold batch_shaped, shaped3, shaped2, stub_batch. cbn.
    repeat split; repeat constructor.
  - lia.
  - vm_compute. lia.
Defined.

Lemma in_combine_target {A B} (input : list A) (target : list B) y :
  length input = length target -> In y target ->
  exists g, In (g, y) (combine input target).
Proof.
  revert target. induction input as [|g input IH]; intros [|z target] Hlen Hin;
    simpl in *; try discriminate; [contradiction|].
  destruct Hin as [->|Hin].
  - exists g. now left.
  - destruct (IH target ltac:(lia) Hin) as [g' Hg']. exists g'. now right.
Qed.

Section RewardOutOfRange.

Context {Emb Hid Logit Image Loss : Type}.
Variable tokenizer_encode : Image -> list Z.
Variable nll_mean : list (Logit * Z) -> Loss.
Variable loss_add : Loss -> Loss -> Loss.

Lemma cross_entropy_out_of_range C (input : list Logit) target y :
  length input = length target -> In y target ->
  y <> ignore_index -> valid_class C y = false ->
  cross_entropy nll_mean C input target = Raise IndexError.
Proof.
  intros Hlen Hin Hne Hv. unfold cross_entropy.
  rewrite Hlen, Nat.eqb_refl. simpl negb. cbv iota.
  destruct (forallb _ _) eqn:E; [|reflexivity].
  exfalso. rewrite forallb_forall in E.
  destruct (in_combine_target input target y Hlen Hin) as [g Hg].
  assert (Hterm : In (g, y) (cross_entropy_terms input target)).
  { unfold cross_entropy_terms. apply filter_In. split; [exact Hg|]. simpl.
    destruct (Z.eqb_spec y ignore_index); [contradiction | reflexivity]. }
  apply E in Hterm. simpl in Hterm. congruence.
Qed.

(** X8.  The reward labels are handed to F.cross_entropy with the three-way
    reward logits: on a batch that is otherwise as the loss expects it (shape,
    block length, observation tokens in the vocabulary, at most one
    termination per trajectory, sequences within max_tokens), an unpadded
    step whose reward label is neither a class of the reward head nor the
    ignore label makes compute_loss raise an IndexError; this is so for the
    reward -1 the comment of the label line names. *)
Theorem compute_loss_reward_out_of_range ov av cfg (mods : Modules Z Emb Hid Logit) wm
    (batch : Batch Image) (B L K b t : nat) :
  WorldModel_init ov av cfg mods = Ok wm ->
  tokens_per_block cfg = K + 2 ->
  batch_shaped tokenizer_encode B L K batch ->
  Forall (Forall (Forall (fun z => valid_class (Z.of_nat (obs_vocab_size wm)) z = true)))
         (map (map tokenizer_encode) (observations_image batch)) ->
  binary (ends batch) ->
  Forall (fun row => terminations row <= 1) (ends batch) ->
  L * (K + 2) <= max_tokens cfg ->
  b < B -> t < L ->
  nth t (nth b (mask_padding batch) []) false = true ->
  let c := reward_label (nth t (nth b (rewards batch) []) 0%Q) false in
  valid_class num_reward_classes c = false ->
  c <> ignore_index ->
  compute_loss tokenizer_encode nll_mean loss_add wm batch = Raise IndexError.
Proof.
  intros Hinit HK Hshape Hro Hbin Hterm Hcap Hb Ht Hpad c Hv Hne.
  apply WorldModel_init_inv in Hinit as [m Hwm].
  assert (Em : K = m + 1) by (destruct Hwm as (Hn & _); lia). subst K.
  assert (Hcfg : config wm = cfg) by apply Hwm. rewrite <- Hcfg in Hcap, Hwm.
  replace (m + 1 + 2) with (m + 3) in * by lia.
  pose proof Hshape as (Ho & Htk & Ha & Hr & He & Hm).
  pose proof (logical_not_shaped B L _ Hm) as Hf.
  unfold compute_loss.
  destruct (outputs_of_batch_cases tokenizer_encode wm m B L batch Hshape Hcap)
    as [Eout|Eout]; rewrite Eout; [reflexivity|]. clear Eout.
  cbn [rbind].
  rewrite compute_labels_world_model_returns by (apply ends_check; assumption).
  cbn [rbind].
  rewrite (observation_loss_of_batch tokenizer_encode nll_mean wm m Hwm B L batch Hshape Hcap)
    by exact Hro.
  cbn [rbind].
  rewrite !map_map.
  change (fun x : list Z =>
            logits_rewards (heads_output wm (hidden_states wm x) (length x) 0))
    with (fun r : list Z =>
            Head_forward (head_rewards wm) (hidden_states wm r) (length r) 0).
  set (labels := map2 (map2 reward_label) (rewards batch) (logical_not (mask_padding batch))).
  assert (Hl : shaped2 B L labels) by (apply map2_rows_shaped; assumption).
  rewrite (cross_entropy_out_of_range num_reward_classes _ (concat labels) c);
    [reflexivity | | | exact Hne | exact Hv].
  - (* as many reward logits as labels *)
    rewrite (concat_length_uniform labels L (proj2 Hl)), (proj1 Hl).
    rewrite (concat_length_uniform _ L).
    + rewrite length_map.
      rewrite (tokens_rows tokenizer_encode m B L batch Hshape).
      now rewrite length_map, length_seq.
    + apply Forall_map.
      rewrite (tokens_rows tokenizer_encode m B L batch Hshape).
      apply Forall_map, Forall_forall. intros b' Hb'. apply in_seq in Hb'.
      pose proof (row_length tokenizer_encode m B L batch Hshape b' ltac:(lia)) as Hrow.
      rewrite Hrow.
      rewrite (step_logits wm m Hwm) by apply Hwm.
      now apply (step_logits_length wm m Hwm).
  - (* the label of the step is among them *)
    apply in_concat. exists (nth b labels []). split.
    + apply nth_In. rewrite (proj1 Hl). exact Hb.
    + assert (Hrow : length (nth b labels []) = L) by now apply (shaped2_row B L).
      assert (E : nth t (nth b labels []) 0%Z = c).
      { unfold labels.
        rewrite (nth_map2 _ _ _ b [] [] [])
          by (rewrite ?(proj1 Hr), ?(proj1 Hf); exact Hb).
        rewrite (nth_map2 _ _ _ t 0%Z 0%Q false)
          by (rewrite ?(shaped2_row B L _ b Hr Hb), ?(shaped2_row B L _ b Hf Hb); exact Ht).
        rewrite logical_not_nth.
        rewrite (nth_indep _ true false)
          by (rewrite (shaped2_row B L _ b Hm Hb); exact Ht).
        rewrite Hpad. reflexivity. }
      rewrite <- E. apply nth_In. rewrite Hrow. exact Ht.
Qed.

End RewardOutOfRange.

Lemma compute_loss_reward_out_of_range_witness :
  compute_loss (fun img : list Z => img) (fun terms => length terms) Nat.add
    (stub_world_model Z 4 8)
    {| observations_image := [[[5; 6]; [7; 8]]]%Z;
       observations_token := [[30; 31]]%Z;
       actions := [[2; 3]]%Z;
       rewards := [[1; - (1)]]%Q;
       ends := [[0; 1]]%Z;
       mask_padding := [[true; true]] |} = Raise IndexError.
Proof.
  apply (compute_loss_reward_out_of_range (fun img : list Z => img)
           (fun terms => length terms) Nat.add 512 6 (stub_config 4 8) (stub_modules Z)
           (stub_world_model Z 4 8) _ 1 2 2 0 1).
  - reflexivity.
  - reflexivity.
  - unfold batch_shaped, shaped3, shaped2. cbn. repeat split; repeat constructor.
  - cbn. repeat constructor.
  - unfold binary. cbn.
    repeat (apply Forall_cons || apply Forall_nil); auto.
  - cbn. repeat constructor.
  - vm_compute. lia.
  - lia.
  - lia.
  - reflexivity.
  - reflexivity.
  - discriminate.
Defined.

(** ** The rollout engine: before, at and after a reset *)

Section EngineReset.

Context {Emb Hid Logit Image CodeVec Rng : Type}.
Variable categorical_sample : Logit -> Rng -> Col * Rng.
Variable clamp01 : Image -> Image.
Variable world_model : WorldModel Col Emb Hid Logit.
Variable tokenizer : Tokenizer Image CodeVec.

Local Abbreviation cap := (max_tokens (config world_model)).
Local Abbreviation W := (World Emb Rng).

(** X9.  An engine is constructed without cache, token count and stored
    block, and step asserts the first two: on an engine whose cache or token
    count is not set, as after construction, step raises an AssertionError,
    with either flag, and on one without a stored block decode_obs_tokens
    raises a TypeError; neither changes anything of the engine nor calls the
    world model. *)
Theorem step_requires_reset (w : W) (action : Col) (flag : bool) :
  (keys_values_wm (self w) = None \/ _num_observations_tokens (self w) = None ->
   step categorical_sample clamp01 world_model tokenizer action flag w
   = (Raise AssertionError, w)) /\
  (obs_tokens (self w) = None ->
   decode_obs_tokens clamp01 tokenizer w = (Raise TypeError, w)) /\
  (forall g : Rng,
     step categorical_sample clamp01 world_model tokenizer action flag (fresh_world g)
     = (Raise AssertionError, fresh_world g) /\
     decode_obs_tokens clamp01 tokenizer (fresh_world (Emb := Emb) g)
     = (Raise TypeError, fresh_world g)).
Proof.
  split; [|split].
  - intros H. unfold step, bind, get_self.
    destruct (keys_values_wm (self w)) as [kv|];
      destruct (_num_observations_tokens (self w)) as [n|];
      try reflexivity.
    destruct H; discriminate.
  - intros H. unfold decode_obs_tokens, bind, get_self. now rewrite H.
  - intros g. split; reflexivity.
Qed.

(** A reset on an engine whose token count is unset or that of the block, when
    the block fits the cache. *)
Lemma reset_from_initial_observations_run (w : W) obs_img obs_tok :
  let t := tokenizer_encode_tokens tokenizer obs_img ++ obs_tok in
  (_num_observations_tokens (self w) = None \/
   _num_observations_tokens (self w) = Some (length t)) ->
  length t <= cap ->
  Embedder_in_range (embedder world_model) t (length t) 0 = true ->
  exists kv',
    kv_size kv' = length t /\ kv_max_tokens kv' = cap /\
    let w' := {| self := {| keys_values_wm := Some kv';
                            obs_tokens := Some t;
                            _num_observations_tokens := Some (length t) |};
                 rng := rng w;
                 forward_calls := forward_calls w ++ [(t, 0)] |} in
    reset_from_initial_observations clamp01 world_model tokenizer obs_img obs_tok w
    = (fst (decode_obs_tokens clamp01 tokenizer w'), w').
Proof.
  intros t Hnum Hcap Hin. unfold reset_from_initial_observations.
  fold t. unfold bind at 1. unfold get_self at 1. cbv beta iota.
  unfold bind at 1.
  set (pre := match _num_observations_tokens (self w) with
              | Some _ => ret tt
              | None => set_num_observations_tokens (Some (length t))
              end).
  assert (Hpre : exists w0, pre w = (Ok tt, w0) /\
                   _num_observations_tokens (self w0) = Some (length t) /\
                   obs_tokens (self w0) = obs_tokens (self w) /\
                   rng w0 = rng w /\
                   forward_calls w0 = forward_calls w).
  { subst pre. destruct Hnum as [E | E]; rewrite E.
    - eexists. split; [reflexivity|]. repeat split.
    - exists w. split; [reflexivity|]. repeat split. exact E. }
  destruct Hpre as (w0 & -> & HN0 & Ho0 & Hg0 & Hc0). cbv beta iota.
  destruct (refresh_ok world_model w0 (length t) t HN0 eq_refl Hcap Hin)
    as (x & kv' & Hsz & Hmax & E & _).
  exists kv'. split; [exact Hsz|]. split; [exact Hmax|]. cbv zeta.
  unfold bind at 1. rewrite E. cbv beta iota.
  unfold bind at 1.
  set (w2 := snd (set_obs_tokens (Some t) (with_cache w0 kv' [(t, 0)]))).
  change (set_obs_tokens (Some t) (with_cache w0 kv' [(t, 0)])) with (Ok tt, w2).
  cbv beta iota.
  assert (Ew2 : w2 = {| self := {| keys_values_wm := Some kv';
                                   obs_tokens := Some t;
                                   _num_observations_tokens := Some (length t) |};
                        rng := rng w;
                        forward_calls := forward_calls w ++ [(t, 0)] |}).
  { unfold w2, set_obs_tokens, bind, get_self, set_self, with_cache. cbn.
    now rewrite HN0, Hg0, Hc0. }
  rewrite <- Ew2.
  pose proof (decode_obs_tokens_state clamp01 tokenizer w2) as Hst.
  destruct (decode_obs_tokens clamp01 tokenizer w2) as [r w3]. simpl in Hst. subst w3.
  reflexivity.
Qed.

(** The token count, once set, refuses every block of another length. *)
Lemma reset_from_initial_observations_mismatch (w : W) N obs_img obs_tok :
  _num_observations_tokens (self w) = Some N ->
  length (tokenizer_encode_tokens tokenizer obs_img ++ obs_tok) <> N ->
  reset_from_initial_observations clamp01 world_model tokenizer obs_img obs_tok w
  = (Raise AssertionError, w).
Proof.
  intros HN Hlen. unfold reset_from_initial_observations.
  unfold bind at 1. unfold get_self at 1. cbv beta iota. rewrite HN.
  unfold bind at 1. unfold ret at 1. cbv beta iota.
  unfold bind at 1. unfold refresh_keys_values_with_initial_obs_tokens.
  unfold bind at 1. unfold get_self at 1. cbv beta iota. rewrite HN.
  apply Nat.eqb_neq in Hlen. rewrite Hlen. reflexivity.
Qed.

(** X10.  reset_from_initial_observations on an engine whose token count is
    unset, or is the length of the new block, with a block (the codec tokens
    of the frame followed by the task tokens given) that fits the cache and
    whose tokens are rows of the embedding tables of their slots:
    the block is stored, the token count is its length, the cache was
    allocated with the configured capacity and holds exactly the block, fed in
    one call of the world model on the empty cache, the random generator is
    untouched, and the call returns whatever decoding the stored block
    returns; the engine is initialized, and ready for a step as soon as the
    block of the world model is the stored block plus one action token. *)
Theorem reset_from_initial_observations_initializes (w : W) obs_img obs_tok :
  let t := tokenizer_encode_tokens tokenizer obs_img ++ obs_tok in
  (_num_observations_tokens (self w) = None \/
   _num_observations_tokens (self w) = Some (length t)) ->
  length t <= cap ->
  Embedder_in_range (embedder world_model) t (length t) 0 = true ->
  let res := reset_from_initial_observations clamp01 world_model tokenizer
               obs_img obs_tok w in
  obs_tokens (self (snd res)) = Some t /\
  _num_observations_tokens (self (snd res)) = Some (length t) /\
  cache_ok world_model (snd res) /\
  cache_size (snd res) = length t /\
  rng (snd res) = rng w /\
  forward_calls (snd res) = forward_calls w ++ [(t, 0)] /\
  fst res = fst (decode_obs_tokens clamp01 tokenizer (snd res)) /\
  initialized world_model (snd res) (length t) /\
  (tokens_per_block (config world_model) = length t + 1 ->
   ready world_model (snd res) (length t)).
Proof.
  intros t Hnum Hcap Hin res.
  destruct (reset_from_initial_observations_run w obs_img obs_tok Hnum Hcap Hin)
    as (kv' & Hsz & Hmax & E).
  cbv zeta in E. fold t in E, Hsz. subst res. rewrite E. cbn [fst snd].
  assert (Hok : cache_ok world_model
                  {| self := {| keys_values_wm := Some kv';
                                obs_tokens := Some t;
                                _num_observations_tokens := Some (length t) |};
                     rng := rng w;
                     forward_calls := forward_calls w ++ [(t, 0)] |}).
  { exists kv'. split; [reflexivity|]. split; [exact Hmax | lia]. }
  assert (Hi : initialized world_model
                 {| self := {| keys_values_wm := Some kv';
                               obs_tokens := Some t;
                               _num_observations_tokens := Some (length t) |};
                    rng := rng w;
                    forward_calls := forward_calls w ++ [(t, 0)] |} (length t)).
  { split; [exact Hok|]. split; [exact Hcap|]. split; [reflexivity|].
    exists t. split; reflexivity. }
  do 2 (split; [reflexivity|]). split; [exact Hok|].
  split; [unfold cache_size; cbn; exact Hsz|].
  do 3 (split; [reflexivity|]). split; [exact Hi|].
  intros Hblock. split; [exact Hi|]. split; [exact Hblock|].
  unfold cache_size. cbn. rewrite Hsz. apply Nat.mod_small. lia.
Qed.

(** X11.  The token count set by the first reset is kept for the life of the
    engine: a later reset whose block has another length raises an
    AssertionError and leaves the cache, the stored block, the token count
    and the log of world model calls as they were. *)
Theorem reset_token_count_is_fixed (w : W) (N : nat) obs_img obs_tok :
  _num_observations_tokens (self w) = Some N ->
  length (tokenizer_encode_tokens tokenizer obs_img ++ obs_tok) <> N ->
  reset_from_initial_observations clamp01 world_model tokenizer obs_img obs_tok w
  = (Raise AssertionError, w).
Proof. apply reset_from_initial_observations_mismatch. Qed.

(** X12.  reset_from_initial_observations sets the token count and allocates
    the cache before it feeds the block: a first reset with a block longer
    than max_tokens raises an IndexError and leaves an engine whose token
    count is the length of that block, whose cache is allocated and empty and
    whose stored block is unchanged; on this engine every later reset with a
    block of another length, so every block that would fit the cache, raises
    an AssertionError. *)
Theorem reset_block_too_long (w : W) obs_img obs_tok :
  let t := tokenizer_encode_tokens tokenizer obs_img ++ obs_tok in
  _num_observations_tokens (self w) = None ->
  cap < length t ->
  let w' := {| self := {| keys_values_wm := Some (generate_empty_keys_values cap);
                          obs_tokens := obs_tokens (self w);
                          _num_observations_tokens := Some (length t) |};
               rng := rng w;
               forward_calls := forward_calls w |} in
  reset_from_initial_observations clamp01 world_model tokenizer obs_img obs_tok w
  = (Raise IndexError, w') /\
  forall obs_img2 obs_tok2,
    length (tokenizer_encode_tokens tokenizer obs_img2 ++ obs_tok2) <= cap ->
    reset_from_initial_observations clamp01 world_model tokenizer obs_img2 obs_tok2 w'
    = (Raise AssertionError, w').
Proof.
  intros t Hnum Hcap w'. split.
  - unfold reset_from_initial_observations.
    fold t. unfold bind at 1. unfold get_self at 1. cbv beta iota.
    rewrite Hnum. unfold bind at 1.
    set (w0 := snd (set_num_observations_tokens (Some (length t)) w)).
    change (set_num_observations_tokens (Some (length t)) w) with (Ok tt, w0).
    cbv beta iota. unfold bind at 1.
    unfold refresh_keys_values_with_initial_obs_tokens.
    unfold bind at 1. unfold get_self at 1. cbv beta iota.
    change (_num_observations_tokens (self w0)) with (Some (length t)).
    cbv beta iota. rewrite Nat.eqb_refl. unfold bind at 1. unfold massert, ret at 1.
    cbv beta iota. unfold bind at 1.
    set (w1 := snd (set_keys_values_wm (Some (generate_empty_keys_values cap)) w0)).
    change (set_keys_values_wm (Some (generate_empty_keys_values cap)) w0) with (Ok tt, w1).
    cbv beta iota.
    unfold bind at 1.
    rewrite (call_world_model_overflow world_model t w1 (generate_empty_keys_values cap)).
    + reflexivity.
    + reflexivity.
    + intros E. rewrite E in Hcap. simpl in Hcap. lia.
    + unfold kv_size. simpl. lia.
  - intros obs_img2 obs_tok2 Hfit.
    apply (reset_from_initial_observations_mismatch w' (length t)); [reflexivity | lia].
Qed.

End EngineReset.

Lemma step_requires_reset_witness :
  step stub_sample (fun x => x) (stub_world_model Col 4 11) stub_tokenizer [0%Z] true
    (fresh_world 0)
  = (Raise AssertionError, fresh_world 0).
Proof.
  destruct (step_requires_reset stub_sample (fun x => x) (stub_world_model Col 4 11)
              stub_tokenizer (fresh_world 0) [0%Z] true) as (H & _ & _).
  apply H. left. reflexivity.
Defined.

Lemma reset_from_initial_observations_initializes_witness :
  let res := reset_from_initial_observations (fun x => x) (stub_world_model Col 4 11)
               stub_tokenizer [[[1]; [2]]]%Z [[30%Z]] (fresh_world 0) in
  obs_tokens (self (snd res)) = Some [[1]; [2]; [30]]%Z /\
  cache_size (snd res) = 3 /\
  ready (stub_world_model Col 4 11) (snd res) 3.
Proof.
  intros res.
  destruct (reset_from_initial_observations_initializes (fun x => x)
              (stub_world_model Col 4 11) stub_tokenizer (fresh_world 0)
              [[[1]; [2]]]%Z [[30%Z]] (or_introl eq_refl) ltac:(vm_compute; lia)
              ltac:(vm_compute; reflexivity))
    as (Ho & _ & _ & Hs & _ & _ & _ & _ & Hr).
  split; [exact Ho|]. split; [exact Hs|]. apply Hr. reflexivity.
Defined.

Lemma reset_token_count_is_fixed_witness :
  reset_from_initial_observations (fun x => x) (stub_world_model Col 4 11) stub_tokenizer
    [[[1]; [2]; [3]]]%Z [[30%Z]] (stub_world (stub_block 3) 3 11)
  = (Raise AssertionError, stub_world (stub_block 3) 3 11).
Proof.
  apply (reset_token_count_is_fixed (fun x => x) (stub_world_model Col 4 11) stub_tokenizer
           (stub_world (stub_block 3) 3 11) 3).
  - reflexivity.
  - vm_compute. lia.
Defined.

Lemma reset_block_too_long_witness :
  exists w',
    reset_from_initial_observations (fun x => x) (stub_world_model Col 4 2) stub_tokenizer
      [[[1]; [2]]]%Z [[30%Z]] (fresh_world 0) = (Raise IndexError, w') /\
    reset_from_initial_observations (fun x => x) (stub_world_model Col 4 2) stub_tokenizer
      [[[1]]]%Z [[30%Z]] w' = (Raise AssertionError, w').
Proof.
  destruct (reset_block_too_long (fun x => x) (stub_world_model Col 4 2) stub_tokenizer
              (fresh_world 0) [[[1]; [2]]]%Z [[30%Z]] eq_refl ltac:(vm_compute; lia))
    as [H1 H2].
  eexists. split; [exact H1|].
  apply H2. vm_compute. lia.
Defined.

(** ** The rollout engine: steps in sequence *)

Lemma last_concat_singletons {A} (acc : list (list A)) (d : A) (d' : list A) :
  acc <> [] -> Forall (fun x => length x = 1) acc ->
  [last (concat acc) d] = last acc d'.
Proof.
  revert d'. induction acc as [|x acc IH]; intros d' Hne Hall; [contradiction|].
  inversion Hall as [|? ? Hx Hacc]; subst.
  destruct x as [|c [|c' x]]; try discriminate.
  destruct acc as [|y acc]; [reflexivity|].
  rewrite (last_cons_default [c] (y :: acc) d').
  rewrite <- (IH [c] ltac:(discriminate) Hacc).
  inversion Hacc as [|? ? Hy _]; subst.
  destruct y as [|c2 [|c3 y]]; try discriminate. reflexivity.
Qed.

Section EngineSteps.

Context {Emb Hid Logit Image CodeVec Rng : Type}.
Variable categorical_sample : Logit -> Rng -> Col * Rng.
Variable clamp01 : Image -> Image.
Variable world_model : WorldModel Col Emb Hid Logit.
Variable tokenizer : Tokenizer Image CodeVec.

Local Abbreviation cap := (max_tokens (config world_model)).
Local Abbreviation W := (World Emb Rng).

Lemma decode_obs_tokens_eq (w : W) N t :
  _num_observations_tokens (self w) = Some N ->
  obs_tokens (self w) = Some t ->
  length t = N -> 1 <= N ->
  decode_obs_tokens clamp01 tokenizer w
  = (match rearrange_hw (map (tokenizer_embedding tokenizer) (removelast t)) (Nat.sqrt N) with
     | Ok z => Ok {| image := clamp01 (tokenizer_decode tokenizer z);
                     token := [last t []] |}
     | Raise e => Raise e
     end, w).
Proof.
  intros HN Ht Hlen Hpos. unfold decode_obs_tokens, bind, get_self.
  rewrite Ht, HN.
  destruct (rearrange_hw _ _); [|reflexivity].
  destruct t; [simpl in Hlen; lia | reflexivity].
Qed.

(** X14.  A step with next-observation prediction ends by decoding the new
    stored block, after the cache and the stored block have been updated: on a
    ready engine with room (max_tokens at least 2N + 1) whose tokens are in
    the vocabulary (the action a row of the action table, the draws classes of
    the observation head, the stored block, if it is fed again, rows of the
    tables of its slots) the step returns exactly when floor(sqrt N) divides
    N - 1, and the observation it returns then carries as its task token the
    single all-zero placeholder column of the final pass, never a sampled
    token; otherwise the step raises the reshape error of the decoding, yet
    the passes have run: the cache has grown by 1 + N positions from where
    pass 0 started and the engine is ready for the next step. *)
Theorem step_returns_placeholder_token ov av cfg (mods : Modules Col Emb Hid Logit)
    (w : W) (N : nat) (t : list Col) (action : Col) :
  WorldModel_init ov av cfg mods = Ok world_model ->
  ready world_model w N ->
  obs_tokens (self w) = Some t ->
  2 * N + 1 <= cap ->
  in_table (act_vocab_size world_model) action = true ->
  samples_in_vocabulary categorical_sample world_model ->
  ((cap <? cache_size w + (1 + N)) = true -> in_vocabulary world_model t 0) ->
  let res := step categorical_sample clamp01 world_model tokenizer action true w in
  let s0 := if cap <? cache_size w + (1 + N) then N else cache_size w in
  cache_size (snd res) = s0 + (1 + N) /\
  ready world_model (snd res) N /\
  ((N - 1) mod Nat.sqrt N = 0 ->
   exists r o, fst res = Ok r /\ r_obs r = Some o /\
               length (token o) = 1 /\ all_zero (token o)) /\
  ((N - 1) mod Nat.sqrt N <> 0 -> fst res = Raise EinopsError).
Proof.
  intros Hinit Hready Ht Hcap Hact Hsample Hblk res s0.
  destruct (step_predict_run categorical_sample clamp01 world_model tokenizer
              ov av cfg mods w N t action Hinit Hready Ht Hcap Hact Hsample Hblk)
    as (acc & kvP & gP & out0 & kv1 & H).
  cbv zeta in H. fold s0 in H.
  destruct H as (_ & HszP & HmaxP & HcapP & Hacc & Hw1 & Hzero & HN2 & Estep & Hr & _).
  subst res. rewrite Estep. cbn [fst snd].
  split; [unfold cache_size; cbn; exact HszP|]. split; [exact Hr|].
  set (w' := after_step w kvP (concat acc) gP _) in *.
  assert (Hcat : length (concat acc) = N)
    by (rewrite (concat_length_uniform acc 1 Hw1); lia).
  rewrite (decode_obs_tokens_eq w' N (concat acc)); [|apply Hr|reflexivity|exact Hcat|lia].
  cbn [fst].
  assert (Hq : length (map (tokenizer_embedding tokenizer) (removelast (concat acc))) = N - 1)
    by (rewrite length_map, removelast_length; lia).
  assert (Hh : Nat.sqrt N <> 0).
  { pose proof (Nat.sqrt_spec N (Nat.le_0_l N)) as Hs.
    intros E. rewrite E in Hs. simpl in Hs. lia. }
  split.
  - intros Hm. rewrite rearrange_hw_Ok by (rewrite ?Hq; assumption).
    do 2 eexists. split; [reflexivity|]. split; [reflexivity|]. cbn [token].
    split; [reflexivity|].
    assert (Hne : acc <> []) by (intros E; rewrite E in Hacc; simpl in Hacc; lia).
    rewrite (last_concat_singletons acc [] [action] Hne Hw1). exact Hzero.
  - intros Hm. now rewrite rearrange_hw_Raise by (rewrite Hq; exact Hm).
Qed.

(** The cache size after a step, counted in blocks above the stored block. *)
Lemma cache_blocks_step (N j : nat) :
  1 <= N -> 2 * N + 1 <= cap ->
  let q := (cap - N) / (N + 1) in
  1 <= q /\
  (j <= q ->
   (if cap <? N + j * (N + 1) + (1 + N) then N else N + j * (N + 1)) + (1 + N)
   = N + (j mod q + 1) * (N + 1) /\ j mod q + 1 <= q).
Proof.
  intros HN Hcap q.
  assert (Hq1 : 1 <= q).
  { subst q. apply Nat.div_le_lower_bound; lia. }
  split; [exact Hq1|]. intros Hj.
  assert (Hqb : q * (N + 1) <= cap - N)
    by (subst q; rewrite Nat.mul_comm; apply Nat.Div0.mul_div_le).
  assert (Hqu : cap - N < (q + 1) * (N + 1)).
  { subst q. pose proof (Nat.div_mod_eq (cap - N) (N + 1)) as E.
    pose proof (Nat.mod_upper_bound (cap - N) (N + 1) ltac:(lia)). nia. }
  destruct (Nat.eq_dec j q) as [->|Hne].
  - rewrite Nat.Div0.mod_same.
    destruct (Nat.ltb_spec cap (N + q * (N + 1) + (1 + N))); [split; lia | nia].
  - rewrite Nat.mod_small by lia.
    destruct (Nat.ltb_spec cap (N + j * (N + 1) + (1 + N))); [nia | split; lia].
Qed.

Lemma after_steps_blocks ov av cfg (mods : Modules Col Emb Hid Logit)
    (actions : list Col) (w : W) (N j : nat) :
  WorldModel_init ov av cfg mods = Ok world_model ->
  2 * N + 1 <= cap ->
  Forall (fun a => in_table (act_vocab_size world_model) a = true) actions ->
  samples_in_vocabulary categorical_sample world_model ->
  let q := (cap - N) / (N + 1) in
  ready world_model w N ->
  (forall t, obs_tokens (self w) = Some t -> in_vocabulary world_model t 0) ->
  cache_size w = N + (j + 1) * (N + 1) -> j + 1 <= q ->
  let w' := after_steps categorical_sample clamp01 world_model tokenizer actions w in
  ready world_model w' N /\
  cache_size w' = N + ((j + length actions) mod q + 1) * (N + 1).
Proof.
  intros Hinit Hcap Hacts Hsample q. revert w j.
  induction Hacts as [|a actions Ha _ IH]; intros w j Hready Hvoc Hsz Hj w'.
  - subst w'. cbn [after_steps fold_left length]. rewrite Nat.add_0_r.
    rewrite Nat.mod_small by lia. split; assumption.
  - subst w'. unfold after_steps. cbn [fold_left length].
    fold (after_steps categorical_sample clamp01 world_model tokenizer actions
            (snd (step categorical_sample clamp01 world_model tokenizer a true w))).
    pose proof Hready as ((_ & _ & _ & (t & Ht & _)) & _).
    destruct (step_predict_run categorical_sample clamp01 world_model tokenizer
                ov av cfg mods w N t a Hinit Hready Ht Hcap Ha Hsample
                (fun _ => Hvoc t Ht))
      as (acc & kvP & gP & out0 & kv1 & H).
    cbv zeta in H.
    destruct H as (_ & HszP & _ & _ & _ & _ & _ & HN2 & Estep & Hr & Hvoc1).
    rewrite Estep. cbn [snd].
    set (w1 := after_step w kvP (concat acc) gP _) in *.
    assert (Hsz1 : cache_size w1 = N + ((j + 1) mod q + 1) * (N + 1)
                   /\ (j + 1) mod q + 1 <= q).
    { destruct (cache_blocks_step N (j + 1) ltac:(lia) Hcap) as [_ Hstep].
      fold q in Hstep. specialize (Hstep Hj). rewrite <- Hsz in Hstep.
      unfold cache_size at 1. cbn [w1 after_step self keys_values_wm].
      rewrite HszP. exact Hstep. }
    destruct Hsz1 as [Hsz1 Hj1].
    destruct (IH w1 ((j + 1) mod q) Hr) as [Hr' Hsz'].
    { intros t1 Ht1. cbn in Ht1. injection Ht1 as <-. exact Hvoc1. }
    { exact Hsz1. }
    { exact Hj1. }
    split; [exact Hr'|]. rewrite Hsz'. do 3 f_equal.
    rewrite Nat.Div0.add_mod_idemp_l. f_equal. lia.
Qed.

(** X15.  The cache over a rollout: reset leaves the N tokens of the stored
    block in the cache, a step adds 1 + N positions, and a step that would
    pass max_tokens first rebuilds the cache from the stored block.  So with q
    the number of steps that fit the cache after the stored block,
    q = (max_tokens - N) / (N + 1), an engine that is ready with the stored
    block alone in its cache is, after any k >= 1 steps with next-observation
    prediction whose actions are rows of the action table, with a sampler
    that draws classes of the observation head, ready again with
    N + ((k - 1) mod q + 1) * (N + 1) positions cached, within max_tokens: the
    cache is rebuilt at every q-th step after the first q. *)
Theorem cache_size_after_steps ov av cfg (mods : Modules Col Emb Hid Logit)
    (actions : list Col) (w : W) (N : nat) :
  WorldModel_init ov av cfg mods = Ok world_model ->
  ready world_model w N ->
  cache_size w = N ->
  2 * N + 1 <= cap ->
  actions <> [] ->
  Forall (fun a => in_table (act_vocab_size world_model) a = true) actions ->
  samples_in_vocabulary categorical_sample world_model ->
  let q := (cap - N) / (N + 1) in
  let w' := after_steps categorical_sample clamp01 world_model tokenizer actions w in
  1 <= q /\
  ready world_model w' N /\
  cache_size w' = N + ((length actions - 1) mod q + 1) * (N + 1) /\
  cache_size w' <= cap.
Proof.
  intros Hinit Hready Hsz Hcap Hne Hacts Hsample q w'.
  destruct actions as [|a actions]; [contradiction|].
  apply Forall_cons_iff in Hacts as [Ha Hacts'].
  pose proof Hready as ((_ & _ & _ & (t & Ht & _)) & _).
  destruct (step_predict_run categorical_sample clamp01 world_model tokenizer
              ov av cfg mods w N t a Hinit Hready Ht Hcap Ha Hsample)
    as (acc & kvP & gP & out0 & kv1 & H).
  { intros Er. apply Nat.ltb_lt in Er. lia. }
  cbv zeta in H.
  destruct H as (_ & HszP & _ & _ & _ & _ & _ & HN2 & Estep & Hr & Hvoc1).
  destruct (cache_blocks_step N 0 ltac:(lia) Hcap) as [Hq1 Hstep].
  fold q in Hq1, Hstep. specialize (Hstep ltac:(lia)).
  rewrite Nat.Div0.mod_0_l in Hstep. cbn [Nat.mul Nat.add] in Hstep.
  rewrite !Nat.add_0_r in Hstep. destruct Hstep as [Hstep _].
  subst w'. unfold after_steps. cbn [fold_left length].
  fold (after_steps categorical_sample clamp01 world_model tokenizer actions
          (snd (step categorical_sample clamp01 world_model tokenizer a true w))).
  rewrite Estep. cbn [snd].
  set (w1 := after_step w kvP (concat acc) gP _) in *.
  assert (Hsz1 : cache_size w1 = N + (0 + 1) * (N + 1)).
  { unfold cache_size at 1. cbn [w1 after_step self keys_values_wm].
    rewrite HszP, Hsz. cbn [Nat.add Nat.mul]. rewrite Nat.add_0_r.
    exact Hstep. }
  destruct (after_steps_blocks ov av cfg mods actions w1 N 0 Hinit Hcap Hacts' Hsample Hr)
    as [Hr' Hsz'].
  { intros t1 Ht1. cbn in Ht1. injection Ht1 as <-. exact Hvoc1. }
  { exact Hsz1. }
  { lia. }
  fold q in Hsz'. cbn [Nat.add] in Hsz'.
  replace (S (length actions) - 1) with (length actions) by lia.
  split; [exact Hq1|]. split; [exact Hr'|]. split; [exact Hsz'|].
  destruct Hr' as [[(kv & Hkv & _ & Hle) _] _].
  unfold cache_size. rewrite Hkv. exact Hle.
Qed.

(** X16.  A step without next-observation prediction stores a single token
    column in place of the block of N >= 2 columns, and the rebuild of the
    cache asserts that the stored block has N columns: after such a step on a
    ready engine (the step returns when its action is a row of the action
    table and the stored block, if it is fed again, is in the vocabulary),
    every step whose passes do not fit the cache any more, with either flag,
    raises an AssertionError and leaves the engine as it was. *)
Theorem step_after_step_without_next_obs ov av cfg (mods : Modules Col Emb Hid Logit)
    (w : W) (N : nat) (t : list Col) (a1 a2 : Col) (flag : bool) :
  WorldModel_init ov av cfg mods = Ok world_model ->
  ready world_model w N ->
  obs_tokens (self w) = Some t ->
  N + 1 <= cap ->
  in_table (act_vocab_size world_model) a1 = true ->
  ((cap <? cache_size w + 1) = true -> in_vocabulary world_model t 0) ->
  let w1 := snd (step categorical_sample clamp01 world_model tokenizer a1 false w) in
  (exists r, fst (step categorical_sample clamp01 world_model tokenizer a1 false w) = Ok r) /\
  (cap < cache_size w1 + (if flag then 1 + N else 1) ->
   step categorical_sample clamp01 world_model tokenizer a2 flag w1
   = (Raise AssertionError, w1)).
Proof.
  intros Hinit [Hi [Hblock Hal]] Ht Hcap Hact Hblk w1.
  pose proof (WorldModel_init_tables _ _ _ _ _ Hinit) as Hsz.
  apply WorldModel_init_inv in Hinit as [m Hwm].
  assert (Hcfg : config world_model = cfg) by apply Hwm. rewrite <- Hcfg in Hwm.
  assert (HN2 : N = m + 2) by (destruct Hwm as (Hn & _); lia).
  pose proof Hi as (_ & _ & HN & (t' & Ht' & Hlen)).
  rewrite Ht in Ht'. injection Ht' as <-.
  set (s0 := if cap <? cache_size w + 1 then N else cache_size w).
  assert (Hs0 : s0 mod (N + 1) = N).
  { subst s0. destruct (cap <? cache_size w + 1); [apply Nat.mod_small; lia | exact Hal]. }
  destruct (step_run categorical_sample clamp01 world_model tokenizer
              w N t a1 false Hi Ht ltac:(lia) ltac:(simpl; lia))
    as (kv0 & out0 & kv1 & acc & kvP & gP & H).
  { intros k x Hk. apply (emits_when_aligned world_model m N); assumption. }
  { intros Er. apply (Embedder_in_range_iff _ world_model m t 0 Hwm Hsz).
    apply Hblk. exact Er. }
  { fold s0. rewrite (single_in_range world_model m) by assumption.
    rewrite (slot_vocab_size_cases _ world_model m _ Hwm).
    replace (m + 3) with (N + 1) by lia. rewrite Hs0.
    replace (N =? m + 2) with true by (symmetry; apply Nat.eqb_eq; lia). exact Hact. }
  { intros k x g Hk. lia. }
  { intros tok Hk. lia. }
  cbv zeta in H.
  destruct H as (_ & _ & _ & HszP & _ & _ & Hacc & Hw1 & _ & _ & Estep).
  subst w1. rewrite Estep in *. cbn [fst snd] in *.
  split; [eexists; reflexivity|]. intros Hover.
  set (w1 := after_step w kvP (concat acc) gP _) in *.
  assert (Hcat : length (concat acc) = 1).
  { rewrite (concat_length_uniform acc 1 Hw1), Hacc.
    rewrite Nat.min_l by lia. reflexivity. }
  assert (Hkv1 : keys_values_wm (self w1) = Some kvP) by reflexivity.
  assert (HN1 : _num_observations_tokens (self w1) = Some N) by exact HN.
  rewrite (step_unfold categorical_sample clamp01 world_model tokenizer a2 flag w1 kvP N
             Hkv1 HN1).
  unfold cache_size in Hover. rewrite Hkv1 in Hover.
  apply Nat.ltb_lt in Hover.
  unfold bind at 1. rewrite Hover.
  change (obs_tokens (self w1)) with (Some (concat acc)). cbv beta iota.
  unfold bind at 1. unfold refresh_keys_values_with_initial_obs_tokens.
  unfold bind at 1. unfold get_self at 1. cbv beta iota.
  rewrite HN1, Hcat.
  replace (1 =? N) with false by (symmetry; apply Nat.eqb_neq; lia).
  reflexivity.
Qed.

End EngineSteps.

Lemma stub_world_ready cached cap' :
  cached <= cap' -> 3 <= cap' -> cached mod 4 = 3 ->
  ready (stub_world_model Col 4 cap') (stub_world (stub_block 3) cached cap') 3.
Proof.
  intros H H3 Hal. split; [now apply stub_world_initialized|].
  split; [reflexivity|].
  unfold cache_size. cbn. unfold kv_size. cbn. rewrite repeat_length. exact Hal.
Qed.

Lemma step_raises_without_room_witness :
  fst (step stub_sample (fun x => x) (stub_world_model Col 4 6) stub_tokenizer [0%Z] true
         (stub_world (stub_block 3) 3 6))
  = Raise IndexError.
Proof.
  apply (step_raises_without_room stub_sample (fun x => x) (stub_world_model Col 4 6)
           stub_tokenizer 512 6 (stub_config 4 6) (stub_modules Col)
           (stub_world (stub_block 3) 3 6) 3 [0%Z] eq_refl).
  - apply stub_world_ready; [lia | lia | reflexivity].
  - vm_compute. lia.
Defined.

Lemma step_returns_placeholder_token_witness :
  exists r o,
    fst (step stub_sample (fun x => x) (stub_world_model Col 4 11) stub_tokenizer [0%Z] true
           (stub_world (stub_block 3) 3 11)) = Ok r /\
    r_obs r = Some o /\ all_zero (token o).
Proof.
  destruct (step_returns_placeholder_token stub_sample (fun x => x)
              (stub_world_model Col 4 11) stub_tokenizer 512 6 (stub_config 4 11)
              (stub_modules Col) (stub_world (stub_block 3) 3 11) 3 (stub_block 3) [0%Z]
              eq_refl
              (stub_world_ready 3 11 ltac:(lia) ltac:(lia) eq_refl)
              eq_refl
              ltac:(vm_compute; lia)
              eq_refl
              (stub_sample_in_vocabulary 11)
              (fun _ => stub_block_in_vocabulary 11))
    as (_ & _ & Hret & _).
  destruct (Hret eq_refl) as (r & o & E & Ho & _ & Hz).
  exists r, o. split; [exact E|]. split; [exact Ho | exact Hz].
Defined.

Lemma cache_size_after_steps_witness :
  cache_size (after_steps stub_sample (fun x => x) (stub_world_model Col 4 11)
                stub_tokenizer [[0]; [1]; [2]]%Z (stub_world (stub_block 3) 3 11))
  = 7.
Proof.
  destruct (cache_size_after_steps stub_sample (fun x => x) (stub_world_model Col 4 11)
              stub_tokenizer 512 6 (stub_config 4 11) (stub_modules Col)
              [[0]; [1]; [2]]%Z (stub_world (stub_block 3) 3 11) 3 eq_refl
              (stub_world_ready 3 11 ltac:(lia) ltac:(lia) eq_refl) eq_refl
              ltac:(vm_compute; lia) ltac:(discriminate)
              ltac:(repeat constructor)
              (stub_sample_in_vocabulary 11))
    as (_ & _ & H & _).
  exact H.
Defined.

Lemma step_after_step_without_next_obs_witness :
  let w1 := snd (step stub_sample (fun x => x) (stub_world_model Col 4 11) stub_tokenizer
                   [0%Z] false (stub_world (stub_block 3) 7 11)) in
  step stub_sample (fun x => x) (stub_world_model Col 4 11) stub_tokenizer [1%Z] true w1
  = (Raise AssertionError, w1).
Proof.
  intros w1.
  destruct (step_after_step_without_next_obs stub_sample (fun x => x)
              (stub_world_model Col 4 11) stub_tokenizer 512 6 (stub_config 4 11)
              (stub_modules Col) (stub_world (stub_block 3) 7 11) 3 (stub_block 3)
              [0%Z] [1%Z] true eq_refl
              (stub_world_ready 7 11 ltac:(lia) ltac:(lia) eq_refl)
              eq_refl
              ltac:(vm_compute; lia)
              eq_refl
              (fun _ => stub_block_in_vocabulary 11))
    as [_ H].
  apply H. vm_compute. lia.
Defined.

(** ** The rollout engine: rendering and reset from the environment *)

Section RenderAndReset.

Context {Emb Hid Logit Image CodeVec Rng RawImage EnvState Frame : Type}.
Variable clamp01 : Image -> Image.
Variable world_model : WorldModel Col Emb Hid Logit.
Variable tokenizer : Tokenizer Image CodeVec.
Variable to_frames : Image -> list Frame.
Variable env_reset : EnvState -> (RawImage * Z) * EnvState.
Variable to_tensor : RawImage -> Image.

Local Abbreviation cap := (max_tokens (config world_model)).
Local Abbreviation W := (World Emb Rng).

(** X17.  decode_obs_tokens returns a dict (image and token), and
    render_batch calls the tensor method detach on what it returns: whatever
    the state of the engine, render_batch never returns frames, it raises an
    AttributeError whenever the decoding succeeds and the error of the
    decoding otherwise; so render never returns a frame either; neither
    changes the engine. *)
Theorem render_never_returns (w : W) :
  render_batch clamp01 tokenizer to_frames w
  = (match fst (decode_obs_tokens clamp01 tokenizer w) with
     | Ok _ => Raise AttributeError
     | Raise e => Raise e
     end, w) /\
  (exists e, fst (render_batch clamp01 tokenizer to_frames w) = Raise e) /\
  (exists e, fst (render clamp01 tokenizer to_frames w) = Raise e) /\
  snd (render clamp01 tokenizer to_frames w) = w.
Proof.
  assert (Hb : render_batch clamp01 tokenizer to_frames w
               = (match fst (decode_obs_tokens clamp01 tokenizer w) with
                  | Ok _ => Raise AttributeError
                  | Raise e => Raise e
                  end, w)).
  { unfold render_batch.
    pose proof (decode_obs_tokens_state clamp01 tokenizer w) as Hst.
    destruct (decode_obs_tokens clamp01 tokenizer w) as [[o|e] w']; simpl in Hst; subst w';
      reflexivity. }
  assert (Hbe : exists e, fst (render_batch clamp01 tokenizer to_frames w) = Raise e).
  { rewrite Hb. cbn [fst].
    destruct (fst (decode_obs_tokens clamp01 tokenizer w)); eauto. }
  split; [exact Hb|]. split; [exact Hbe|].
  unfold render. destruct (obs_tokens (self w)) as [t|];
    [|split; [eexists; reflexivity | reflexivity]].
  destruct (shape_is t 1 _); [|split; [eexists; reflexivity | reflexivity]].
  rewrite Hb. destruct (fst (decode_obs_tokens clamp01 tokenizer w));
    (split; [eexists; reflexivity | reflexivity]).
Qed.

(** X18.  reset asserts that the engine was built with an environment, and
    hands the frame and the task token of the environment to
    reset_from_initial_observations as a batch of one: without an environment
    it raises an AssertionError and changes nothing; with one, on an engine
    whose token count is not set yet and a cache that holds the block, when
    the codec tokens and the task token are rows of the embedding tables of
    their slots, the
    stored block is the K codec tokens of the frame followed by the task
    token, the token count is K + 1 (it counts the task slot), the cache
    holds these K + 1 positions, and whenever floor(sqrt(K + 1)) divides K
    the call returns the decoded grid of the K codec tokens together with the
    task token of the environment. *)
Theorem reset_from_environment (w : W) :
  reset clamp01 world_model tokenizer env_reset to_tensor None w
  = ((Raise AssertionError, w), None) /\
  forall s img tok s',
    env_reset s = ((img, tok), s') ->
    _num_observations_tokens (self w) = None ->
    let codes := tokenizer_encode_tokens tokenizer (to_tensor img) in
    let K := length codes in
    K + 1 <= cap ->
    Embedder_in_range (embedder world_model) (codes ++ [[tok]]) (K + 1) 0 = true ->
    let res := reset clamp01 world_model tokenizer env_reset to_tensor (Some s) w in
    let w' := snd (fst res) in
    snd res = Some s' /\
    obs_tokens (self w') = Some (codes ++ [[tok]]) /\
    _num_observations_tokens (self w') = Some (K + 1) /\
    cache_size w' = K + 1 /\
    (K mod Nat.sqrt (K + 1) = 0 ->
     fst (fst res)
     = Ok {| image := clamp01 (tokenizer_decode tokenizer
                                 (chunks (K / Nat.sqrt (K + 1)) (Nat.sqrt (K + 1))
                                         (map (tokenizer_embedding tokenizer) codes)));
             token := [[tok]] |}).
Proof.
  split; [reflexivity|].
  intros s img tok s' Henv Hnum codes K Hcap Hin res w'.
  subst res w'. unfold reset. rewrite Henv. cbn [fst snd].
  assert (Hlen : length (codes ++ [[tok]]) = K + 1)
    by (rewrite length_app; reflexivity).
  destruct (reset_from_initial_observations_run clamp01 world_model tokenizer w
              (to_tensor img) [[tok]] (or_introl Hnum))
    as (kv' & Hsz & Hmax & E).
  { fold codes. rewrite Hlen. exact Hcap. }
  { fold codes. rewrite Hlen. exact Hin. }
  cbv zeta in E. fold codes in E, Hsz. rewrite Hlen in E, Hsz. rewrite E. cbn [fst snd].
  split; [reflexivity|]. split; [reflexivity|]. split; [reflexivity|].
  split; [unfold cache_size; cbn; exact Hsz|].
  intros Hm.
  rewrite (decode_obs_tokens_eq clamp01 tokenizer _ (K + 1) (codes ++ [[tok]]));
    [|reflexivity|reflexivity|exact Hlen|lia].
  cbn [fst]. rewrite removelast_last, last_snoc.
  assert (Hh : Nat.sqrt (K + 1) <> 0).
  { pose proof (Nat.sqrt_spec (K + 1) (Nat.le_0_l _)) as Hs.
    intros E0. rewrite E0 in Hs. simpl in Hs. lia. }
  rewrite rearrange_hw_Ok by (rewrite ?length_map; assumption).
  rewrite length_map. reflexivity.
Qed.

End RenderAndReset.

Lemma reset_from_environment_witness :
  fst (fst (reset (fun x => x) (stub_world_model Col 6 11) stub_tokenizer
              (fun s : nat => (([[[1]; [2]]; [[3]; [4]]]%Z, 30%Z), S s))
              (fun img : list (list Col) => img) (Some 0) (fresh_world 0)))
  = Ok {| image := [[[1]; [2]]; [[3]; [4]]]%Z; token := [[30%Z]] |}.
Proof.
  destruct (reset_from_environment (fun x => x) (stub_world_model Col 6 11) stub_tokenizer
              (fun s : nat => (([[[1]; [2]]; [[3]; [4]]]%Z, 30%Z), S s))
              (fun img : list (list Col) => img) (fresh_world 0)) as [_ H].
  destruct (H 0 _ _ _ eq_refl eq_refl ltac:(vm_compute; lia) ltac:(vm_compute; reflexivity))
    as (_ & _ & _ & _ & Hret).
  exact (Hret eq_refl).
Defined.

(** ** The collector: storing collected experience *)

Lemma update_length {A} (i : nat) (v : A) l : length (update i v l) = length l.
Proof.
  revert i. induction l as [|a l IH]; intros [|i]; simpl; try reflexivity.
  now rewrite IH.
Qed.

Lemma nth_error_update_eq {A} (i : nat) (v : A) l :
  i < length l -> nth_error (update i v l) i = Some v.
Proof.
  revert i. induction l as [|a l IH]; intros [|i] H; simpl in *; try lia.
  - reflexivity.
  - apply IH. lia.
Qed.

Lemma nth_error_update_neq {A} (i j : nat) (v : A) l :
  i <> j -> nth_error (update i v l) j = nth_error l j.
Proof.
  revert i j. induction l as [|a l IH]; intros [|i] [|j] H; simpl; try reflexivity.
  - lia.
  - apply IH. lia.
Qed.

Lemma nth_update_neq {A} (i j : nat) (v d : A) l :
  i <> j -> nth j (update i v l) d = nth j l d.
Proof.
  revert i j. induction l as [|a l IH]; intros [|i] [|j] H; simpl; try reflexivity.
  - lia.
  - apply IH. lia.
Qed.

Lemma column_length {A} T N (rows : list (list A)) i :
  rectangular T N rows -> i < N -> length (column i rows) = T.
Proof.
  intros [HT HN] Hi. subst T. unfold column.
  induction HN as [|r rows Hr _ IH]; [reflexivity|].
  cbn [flat_map]. rewrite length_app, IH.
  destruct (nth_error r i) eqn:E; [reflexivity|].
  apply nth_error_None in E. lia.
Qed.

Lemma column_nth {A} T N (rows : list (list A)) i t d :
  rectangular T N rows -> i < N -> t < T ->
  nth t (column i rows) d = nth i (nth t rows []) d.
Proof.
  intros [HT HN] Hi. subst T. unfold column. revert t.
  induction HN as [|r rows Hr _ IH]; intros t Ht; [simpl in Ht; lia|].
  cbn [flat_map].
  destruct (nth_error r i) as [a|] eqn:E.
  - destruct t as [|t].
    + cbn. symmetry. now apply nth_error_nth.
    + cbn [app nth]. apply IH. simpl in Ht. lia.
  - apply nth_error_None in E. lia.
Qed.

Lemma swapaxes01_rectangular {A} T N (rows : list (list A)) :
  rectangular T N rows -> 1 <= T ->
  swapaxes01 rows = inr (map (fun i => column i rows) (seq 0 N)).
Proof.
  intros [HT HN] H1. unfold swapaxes01.
  destruct rows as [|r0 rows]; [simpl in HT; lia|].
  assert (H0 : length r0 = N) by now inversion HN.
  rewrite H0.
  replace (forallb _ _) with true; [reflexivity|].
  symmetry. apply forallb_forall. intros r Hr. apply Nat.eqb_eq.
  rewrite Forall_forall in HN. now apply HN.
Qed.

Lemma combine_map_same {A B C} (f : A -> B) (g : A -> C) l :
  combine (map f l) (map g l) = map (fun a => (f a, g a)) l.
Proof. induction l as [|a l IH]; simpl; [reflexivity | now rewrite IH]. Qed.

Section CollectorProps.

Context {RawFrame Frame Dataset : Type}.
Variable add_episode : Episode Frame -> Dataset -> nat * Dataset.
Variable update_episode : nat -> Episode Frame -> Dataset -> Dataset.
Variable channel_first : RawFrame -> Frame.

Local Abbreviation C := (Collector Frame Dataset).

(** The call of the episode store for environment [i]: a new episode where no
    id is known, an update of the known episode otherwise. *)
Let call_for (ids : list (option nat)) (E : nat -> Episode Frame) (i : nat)
  : DatasetCall Frame :=
  match nth i ids None with
  | None => AddEpisode (E i)
  | Some id => UpdateEpisode id (E i)
  end.

Lemma store_episodes_run
    (f : nat -> list RawFrame * (list Z * (list Z * (list Q * list bool)))) n :
  forall k (c : C),
    k + n <= length (episode_ids c) ->
    let E := fun i => match f i with
                      | (img, (tok, (a, (r, d)))) => make_episode channel_first img tok a r d
                      end in
    exists c',
      store_episodes add_episode update_episode channel_first
        (map (fun i => (i, f i)) (seq k n)) c = (None, c') /\
      length (episode_ids c') = length (episode_ids c) /\
      (forall i, k <= i < k + n -> exists id, nth_error (episode_ids c') i = Some (Some id)) /\
      (forall i, i < k \/ k + n <= i ->
         nth_error (episode_ids c') i = nth_error (episode_ids c) i) /\
      (forall i id, nth_error (episode_ids c) i = Some (Some id) ->
         nth_error (episode_ids c') i = Some (Some id)) /\
      dataset_calls c'
      = dataset_calls c ++ map (call_for (episode_ids c) E) (seq k n).
Proof.
  induction n as [|n IH]; intros k c Hk E.
  - exists c. cbn [seq map store_episodes]. rewrite app_nil_r.
    repeat split; try reflexivity; [intros i Hi; lia | intros i id Hi; exact Hi].
  - cbn [seq map store_episodes].
    destruct (f k) as [img [tok [a [r d]]]] eqn:Ef.
    assert (Ek : E k = make_episode channel_first img tok a r d)
      by (unfold E; now rewrite Ef).
    rewrite <- Ek. unfold store_episode.
    destruct (nth_error (episode_ids c) k) as [[id|]|] eqn:Eid.
    + (* the episode of environment k is known: update *)
      set (c1 := {| episode_ids := episode_ids c;
                    dataset := update_episode id (E k) (dataset c);
                    dataset_calls := dataset_calls c ++ [UpdateEpisode id (E k)] |}).
      destruct (IH (S k) c1 ltac:(cbn; lia)) as (c' & Erun & Hlen & Hnew & Hold & Hkeep & Hcalls).
      subst c1. cbn [episode_ids dataset_calls] in Hlen, Hold, Hkeep, Hcalls.
      exists c'. split; [exact Erun|]. split; [exact Hlen|].
      split; [|split; [|split]].
      * intros i Hi. destruct (Nat.eq_dec i k) as [->|Hne].
        -- exists id. rewrite Hold by lia. exact Eid.
        -- apply Hnew. lia.
      * intros i Hi. apply Hold. lia.
      * exact Hkeep.
      * rewrite Hcalls, <- app_assoc.
        f_equal. cbn [app]. f_equal.
        unfold call_for. now rewrite (nth_error_nth _ _ None Eid).
    + (* no episode yet: add *)
      destruct (add_episode (E k) (dataset c)) as [id d'] eqn:Eadd.
      set (c1 := {| episode_ids := update k (Some id) (episode_ids c);
                    dataset := d';
                    dataset_calls := dataset_calls c ++ [AddEpisode (E k)] |}).
      assert (Hklt : k < length (episode_ids c)) by lia.
      destruct (IH (S k) c1 ltac:(cbn; rewrite update_length; lia))
        as (c' & Erun & Hlen & Hnew & Hold & Hkeep & Hcalls).
      subst c1. cbn [episode_ids dataset_calls] in Hlen, Hold, Hkeep, Hcalls.
      rewrite update_length in Hlen.
      exists c'. split; [exact Erun|]. split; [exact Hlen|].
      split; [|split; [|split]].
      * intros i Hi. destruct (Nat.eq_dec i k) as [->|Hne].
        -- exists id. rewrite Hold by lia. now apply nth_error_update_eq.
        -- apply Hnew. lia.
      * intros i Hi. rewrite Hold by lia. apply nth_error_update_neq. lia.
      * intros i id' Hi. apply Hkeep.
        rewrite nth_error_update_neq; [exact Hi|]. intros ->. congruence.
      * rewrite Hcalls, <- app_assoc.
        f_equal. cbn [app]. f_equal.
        -- unfold call_for. now rewrite (nth_error_nth _ _ None Eid).
        -- apply map_ext_in. intros i Hi. apply in_seq in Hi.
           unfold call_for. rewrite nth_update_neq by lia. reflexivity.
    + apply nth_error_None in Eid. lia.
Qed.

(** X19.  add_experience_to_dataset asserts that the four lists of collected
    steps have the same length, and turns them into arrays whose first two
    axes it swaps: with lists of different lengths it raises an
    AssertionError, with four empty lists numpy's AxisError (an empty list
    is a one-dimensional array); in both cases neither the episode ids nor
    the episode store are touched. *)
Theorem add_experience_to_dataset_errors (observations : list (EnvObs RawFrame))
    (actions : list (list Z)) (rewards : list (list Q)) (dones : list (list bool)) (c : C) :
  (~ (length observations = length actions /\ length actions = length rewards
      /\ length rewards = length dones) ->
   add_experience_to_dataset add_episode update_episode channel_first
     observations actions rewards dones c = (Some (Python AssertionError), c)) /\
  add_experience_to_dataset add_episode update_episode channel_first [] [] [] [] c
  = (Some AxisError, c).
Proof.
  split; [|reflexivity].
  intros H. unfold add_experience_to_dataset.
  destruct (Nat.eqb_spec (length observations) (length actions));
    destruct (Nat.eqb_spec (length actions) (length rewards));
    destruct (Nat.eqb_spec (length rewards) (length dones));
    try reflexivity.
  exfalso. apply H. repeat split; assumption.
Qed.

(** X20.  add_experience_to_dataset on T >= 1 collected steps of N
    environments, N the number of episode ids: the call returns, and for each
    environment i, in this order, the episode store is called once, with
    add_episode when the id of i is None and with update_episode on the id
    of i otherwise; afterwards every episode id is set and the ids that were
    set are unchanged.  The episode of environment i holds the entries i of
    the T steps: its actions, rewards, task tokens and terminations (True as
    1) have length T, their t-th entry is the entry of environment i in
    step t, and its padding mask is T times True. *)
Theorem add_experience_to_dataset_per_environment
    (observations : list (EnvObs RawFrame)) (actions : list (list Z))
    (rewards : list (list Q)) (dones : list (list bool)) (c : C) (T N : nat) :
  1 <= T ->
  rectangular T N (map (@obs_image RawFrame) observations) ->
  rectangular T N (map (@obs_token RawFrame) observations) ->
  rectangular T N actions -> rectangular T N rewards -> rectangular T N dones ->
  length (episode_ids c) = N ->
  let res := add_experience_to_dataset add_episode update_episode channel_first
               observations actions rewards dones c in
  let ep := episode_of channel_first observations actions rewards dones in
  fst res = None /\
  length (episode_ids (snd res)) = N /\
  (forall i, i < N -> exists id, nth_error (episode_ids (snd res)) i = Some (Some id)) /\
  (forall i id, nth_error (episode_ids c) i = Some (Some id) ->
     nth_error (episode_ids (snd res)) i = Some (Some id)) /\
  dataset_calls (snd res)
  = dataset_calls c
    ++ map (fun i => match nth i (episode_ids c) None with
                     | None => AddEpisode (ep i)
                     | Some id => UpdateEpisode id (ep i)
                     end) (seq 0 N) /\
  (forall i t, i < N -> t < T ->
     length (ep_actions (ep i)) = T /\
     nth t (ep_actions (ep i)) 0%Z = nth i (nth t actions []) 0%Z /\
     nth t (ep_rewards (ep i)) 0%Q = nth i (nth t rewards []) 0%Q /\
     nth t (ep_ends (ep i)) 0%Z = Z.b2z (nth i (nth t dones []) false) /\
     nth t (ep_observations_token (ep i)) 0%Z
     = nth i (obs_token (nth t observations {| obs_image := []; obs_token := [] |})) 0%Z /\
     ep_mask_padding (ep i) = repeat true T).
Proof.
  intros HT Hi Ht Ha Hr Hd Hids res ep.
  assert (Hlens : length observations = T /\ length actions = T
                  /\ length rewards = T /\ length dones = T).
  { destruct Hi as [Hi _], Ha as [Ha _], Hr as [Hr _], Hd as [Hd _].
    rewrite length_map in Hi. repeat split; assumption. }
  destruct Hlens as (Lo & La & Lr & Ld).
  set (f := fun i => (column i (map (@obs_image RawFrame) observations),
                      (column i (map (@obs_token RawFrame) observations),
                       (column i actions, (column i rewards, column i dones))))).
  assert (Eres : add_experience_to_dataset add_episode update_episode channel_first
                   observations actions rewards dones c
                 = store_episodes add_episode update_episode channel_first
                     (map (fun i => (i, f i)) (seq 0 N)) c).
  { unfold add_experience_to_dataset.
    rewrite Lo, La, Lr, Ld, Nat.eqb_refl. cbn [andb negb].
    rewrite (swapaxes01_rectangular T N _ Hi HT), (swapaxes01_rectangular T N _ Ht HT),
      (swapaxes01_rectangular T N _ Ha HT), (swapaxes01_rectangular T N _ Hr HT),
      (swapaxes01_rectangular T N _ Hd HT).
    rewrite !combine_map_same, length_map, length_seq.
    rewrite <- (map_id (seq 0 N)) at 1. rewrite combine_map_same. reflexivity. }
  destruct (store_episodes_run f N 0 c ltac:(lia))
    as (c' & Erun & Hlen & Hnew & _ & Hkeep & Hcalls).
  subst res. rewrite Eres, Erun. cbn [fst snd].
  split; [reflexivity|]. split; [lia|].
  split; [intros i Hlt; apply Hnew; lia|]. split; [exact Hkeep|]. split.
  - rewrite Hcalls. f_equal. apply map_ext_in. intros i Hin. apply in_seq in Hin.
    unfold call_for.
    assert (Eep : make_episode channel_first
                    (column i (map (@obs_image RawFrame) observations))
                    (column i (map (@obs_token RawFrame) observations))
                    (column i actions) (column i rewards) (column i dones) = ep i).
    { unfold make_episode, ep, episode_of. f_equal.
      rewrite (column_length T N dones i Hd) by lia. now rewrite Ld. }
    cbn [f]. rewrite Eep. reflexivity.
  - intros i t Hlt Htt. unfold ep, episode_of.
    cbn [ep_actions ep_rewards ep_ends ep_observations_token ep_mask_padding].
    split; [now apply (column_length T N)|].
    split; [now apply (column_nth T N)|].
    split; [now apply (column_nth T N)|].
    split; [|split; [|now rewrite Ld]].
    + rewrite <- (column_nth T N dones i t false Hd Hlt Htt).
      change 0%Z with (Z.b2z false). apply map_nth.
    + rewrite (column_nth T N _ i t 0%Z Ht Hlt Htt). f_equal.
      change (@nil Z) with (obs_token {| obs_image := @nil RawFrame; obs_token := [] |}).
      apply map_nth.
Qed.

End CollectorProps.

Lemma add_experience_to_dataset_per_environment_witness :
  let res := add_experience_to_dataset
               (fun (e : Episode nat) (d : list (Episode nat)) => (length d, d ++ [e]))
               (fun _ e d => d ++ [e]) (fun x : nat => x)
               [{| obs_image := [10; 11]; obs_token := [30; 31]%Z |};
                {| obs_image := [12; 13]; obs_token := [30; 31]%Z |}]
               [[0; 1]; [2; 3]]%Z [[0; 1]; [1 # 2; 0]]%Q [[false; false]; [false; true]]
               {| episode_ids := [None; Some 5]; dataset := []; dataset_calls := [] |} in
  fst res = None /\
  nth_error (episode_ids (snd res)) 1 = Some (Some 5) /\
  length (dataset_calls (snd res)) = 2.
Proof.
  intros res.
  destruct (add_experience_to_dataset_per_environment
              (fun (e : Episode nat) (d : list (Episode nat)) => (length d, d ++ [e]))
              (fun _ e d => d ++ [e]) (fun x : nat => x)
              [{| obs_image := [10; 11]; obs_token := [30; 31]%Z |};
               {| obs_image := [12; 13]; obs_token := [30; 31]%Z |}]
              [[0; 1]; [2; 3]]%Z [[0; 1]; [1 # 2; 0]]%Q [[false; false]; [false; true]]
              {| episode_ids := [None; Some 5]; dataset := []; dataset_calls := [] |} 2 2)
    as (Hret & _ & _ & Hkeep & Hcalls & _).
  - lia.
  - split; [reflexivity | repeat constructor].
  - split; [reflexivity | repeat constructor].
  - split; [reflexivity | repeat constructor].
  - split; [reflexivity | repeat constructor].
  - split; [reflexivity | repeat constructor].
  - reflexivity.
  - split; [exact Hret|]. split; [apply Hkeep; reflexivity|].
    fold res in Hcalls. rewrite Hcalls. reflexivity.
Defined.
